(** * KanjiCompositeTest: the composition engine of [kanjiComposition.js]

    A shallow embedding of the three stateful classes of the file
    ([GlyphLoader], [KanjiComposer], [KanjiEditorState]) and the properties
    the design document states about them.

    Numbers are the language's numbers: IEEE 754 binary64, here the kernel's
    primitive [float] with round-to-nearest-even, so every product, quotient
    and sum below rounds where the program's does.  Strings are byte strings
    holding the UTF-8 form of the program's text. *)

From Stdlib Require Import Ascii ZArith Floats.
From stdpp Require Import base option list strings pretty gmap.

Set Default Proof Using "Type".
Set Warnings "-inexact-float,-register-all".

(** ** The fragment of JavaScript the program relies on *)

Module JS.

(** *** Numbers *)

(** [Math.floor].  A finite non-zero double is [(-1)^s * m * 2^e]; with
    [0 <= e] it is already an integer, otherwise the integer part of
    [m / 2^-e] is taken and, for a negative number with a fractional part,
    moved one further from zero.  Zeros, infinities and NaN are returned
    as they are. *)
Definition floor (x : float) : float :=
  match Prim2SF x with
  | S754_finite s m e =>
      if (0 <=? e)%Z then x
      else
        let q := Z.shiftr (Z.pos m) (- e) in
        let whole := (Z.shiftl q (- e) =? Z.pos m)%Z in
        match (if s && negb whole then q + 1 else q)%Z with
        | Z.pos n => SF2Prim (S754_finite s n 0)
        | _ => if s then PrimFloat.neg_zero else PrimFloat.zero
        end
  | _ => x
  end.

(** A zero or a finite non-zero number, in the specification's view of a
    double. *)
Definition SF_finite (x : spec_float) : Prop :=
  match x with S754_zero _ | S754_finite _ _ _ => True | _ => False end.

(** *** Values *)

(** The values that [JSON.parse] produces, and [undefined]. *)
Inductive value :=
| VUndefined
| VNull
| VBool (b : bool)
| VNum (n : float)
| VStr (s : string)
| VArr (items : list value)
| VObj (props : list (string * value)).

(** A plain object: its own properties in insertion order. *)
Definition obj := list (string * value).

(** [typeof v]. *)
Definition typeof (v : value) : string :=
  match v with
  | VUndefined => "undefined"
  | VNull => "object"
  | VBool _ => "boolean"
  | VNum _ => "number"
  | VStr _ => "string"
  | VArr _ => "object"
  | VObj _ => "object"
  end.

(** [ToBoolean]: what [if (v)] and [!v] test. *)
Definition truthy (v : value) : bool :=
  match v with
  | VUndefined | VNull => false
  | VBool b => b
  | VNum n => negb (is_nan n || is_zero n)
  | VStr s => negb (String.eqb s "")
  | VArr _ | VObj _ => true
  end.

(** Own property [k] of an object, [undefined] when there is none. *)
Fixpoint obj_get (o : obj) (k : string) : value :=
  match o with
  | [] => VUndefined
  | (k', v) :: o' => if String.eqb k' k then v else obj_get o' k
  end.

(** [o.k = v]: an existing property keeps its place, a new one goes last. *)
Fixpoint obj_set (o : obj) (k : string) (v : value) : obj :=
  match o with
  | [] => [(k, v)]
  | (k', v') :: o' =>
      if String.eqb k' k then (k, v) :: o' else (k', v') :: obj_set o' k v
  end.

(** [v.k] for a key [k] that [Object.prototype], [Array.prototype] and
    [String.prototype] do not define and that is not an index (the program
    reads [data], [logicalSize] and [area] only).  [None] is the
    [TypeError] of reading a property of [null] or [undefined]. *)
Definition get_prop (v : value) (k : string) : option value :=
  match v with
  | VUndefined | VNull => None
  | VObj o => Some (obj_get o k)
  | _ => Some VUndefined
  end.

(** *** Strings *)

(** [s.split(sep)] for a separator of one character: the pieces between
    the separators, so at least one piece. *)
Fixpoint split (sep : ascii) (s : string) : list string :=
  match s with
  | EmptyString => [EmptyString]
  | String c s' =>
      if Ascii.eqb c sep then EmptyString :: split sep s'
      else
        match split sep s' with
        | [] => [String c EmptyString]
        | piece :: pieces => String c piece :: pieces
        end
  end.

(** [pieces.join(sep)], the pieces already converted to strings. *)
Fixpoint join (sep : string) (pieces : list string) : string :=
  match pieces with
  | [] => ""
  | [p] => p
  | p :: ps => p +:+ sep +:+ join sep ps
  end.

(** [s.startsWith(c)] for one character. *)
Definition startsWith (s : string) (c : ascii) : bool :=
  match s with
  | String c' _ => Ascii.eqb c' c
  | EmptyString => false
  end.

(** *** JSON *)

(** What is read back from the text written for a finite number: the
    number, but [0] for a negative zero, which is written [0]. *)
Definition json_number (n : float) : float :=
  if is_zero n then PrimFloat.zero else n.

(** What [JSON.parse] reads back from the text [JSON.stringify] writes for
    a value: a number that is not finite is written [null], a property
    holding [undefined] is left out, an array element holding [undefined] is
    written [null]; every finite number and every string is read back as it
    was written. *)
Fixpoint jsonify (v : value) : value :=
  match v with
  | VUndefined => VNull
  | VNum n => if is_finite n then VNum (json_number n) else VNull
  | VArr items => VArr (map jsonify items)
  | VObj props =>
      VObj ((fix own (ps : list (string * value)) : list (string * value) :=
               match ps with
               | [] => []
               | (_, VUndefined) :: ps' => own ps'
               | (k, v') :: ps' => (k, jsonify v') :: own ps'
               end) props)
  | _ => v
  end.

Definition jsonify_props (o : obj) : obj :=
  match jsonify (VObj o) with
  | VObj o' => o'
  | _ => []
  end.

(** [JSON.parse] and [JSON.stringify] are built in.  A text is kept as what
    the parser makes of it: the document it denotes, or nothing when the
    parser throws [SyntaxError]. *)
Inductive text :=
| JsonText (doc : value)
| NotJson.

(** [JSON.parse(t)]; [None] is the [SyntaxError]. *)
Definition JSON_parse (t : text) : option value :=
  match t with
  | JsonText doc => Some doc
  | NotJson => None
  end.

(** [JSON.stringify(o, null, 2)] for an object [o]; the indentation does
    not change the document. *)
Definition JSON_stringify (o : obj) : text := JsonText (VObj (jsonify_props o)).

End JS.

(** ** [GlyphLoader]: the cache of raw definitions *)

Module GlyphLoader.
Import JS.

(** *** [charToId] *)

Definition hex_digit (d : N) : ascii :=
  match d with
  | 0 => "0" | 1 => "1" | 2 => "2" | 3 => "3" | 4 => "4" | 5 => "5"
  | 6 => "6" | 7 => "7" | 8 => "8" | 9 => "9" | 10 => "a" | 11 => "b"
  | 12 => "c" | 13 => "d" | 14 => "e" | _ => "f"
  end%N%char.

Fixpoint hex_digits (fuel : nat) (n : N) (acc : string) : string :=
  match fuel with
  | O => acc
  | S fuel' =>
      let acc' := String (hex_digit (n mod 16)) acc in
      if (n / 16 =? 0)%N then acc' else hex_digits fuel' (n / 16) acc'
  end.

(** [n.toString(16)], which is lower case already. *)
Definition toString16 (n : N) : string := hex_digits (S (N.size_nat n)) n "".

(** The next [k] continuation bytes of a UTF-8 sequence, added to [acc]. *)
Fixpoint utf8_tail (k : nat) (s : string) (acc : N) : N :=
  match k, s with
  | S k', String c s' =>
      utf8_tail k' s' (N.lor (N.shiftl acc 6) (N.land (Ascii.N_of_ascii c) 63))
  | _, _ => acc
  end.

(** [s.codePointAt(0)]: the first code point of the text, read from its
    UTF-8 form; [None] on the empty string (where the program never asks). *)
Definition codePointAt0 (s : string) : option N :=
  match s with
  | EmptyString => None
  | String c s' =>
      let b := Ascii.N_of_ascii c in
      Some (if (b <? 128)%N then b
            else if (b <? 224)%N then utf8_tail 1 s' (N.land b 31)
            else if (b <? 240)%N then utf8_tail 2 s' (N.land b 15)
            else utf8_tail 3 s' (N.land b 7))
  end.

(** [charToId(char)]; [None] is [null]. *)
Definition charToId (char : string) : option string :=
  match codePointAt0 char with
  | None => None
  | Some cp => Some (String "u"%char (toString16 cp))
  end.

(** *** The loader and the requests in flight *)

(** [this.cache] is a plain object used as a map.  [json.data] is stored
    unchecked, so an entry holds any value. *)
Record t := { cache : gmap string value }.

(** [new GlyphLoader()]. *)
Definition new : t := {| cache := ∅ |}.

(** [load] is an [async] function: it runs to its first [await] when it is
    called, and the rest of it runs when the awaited request settles.  Code
    between two suspensions runs without interruption.  The two awaits
    [await fetch(url)] and [await res.json()] touch no state in between and
    are taken as one.

    A world is the loader together with the requests in flight, oldest
    first, each named by the identifier it asks for, and the identifiers of
    all requests issued so far. *)
Record world := {
  loader : t;
  inflight : list string;
  fetched : list string
}.

Definition start : world := {| loader := new; inflight := []; fetched := [] |}.

(** How a request settles: [fetch] or [res.json()] rejects, or a JSON
    document arrives. *)
Inductive response :=
| Rejected
| Body (json : value).

(** What a call of [load] has produced when it gives control back. *)
Inductive outcome :=
| Returned (v : value)      (** the promise is already settled with [v] *)
| Awaiting (id : string).   (** suspended on the request for [id] *)

(** The names [Object.prototype] defines: [cache[k]] finds them by
    inheritance when the cache has no own property [k]. *)
Definition Object_prototype_names : list string :=
  [ "constructor"; "__defineGetter__"; "__defineSetter__"; "hasOwnProperty";
    "__lookupGetter__"; "__lookupSetter__"; "isPrototypeOf";
    "propertyIsEnumerable"; "toString"; "valueOf"; "__proto__";
    "toLocaleString" ].

(** Whether [this.cache[k]] is truthy.  An inherited property is a function
    or an object, hence truthy. *)
Definition cache_truthy (c : gmap string value) (k : string) : bool :=
  match c !! k with
  | Some v => truthy v
  | None => bool_decide (k ∈ Object_prototype_names)
  end.

(** [this.cache[k]] for an identifier [k], which starts with [u] and so is
    never found by inheritance. *)
Definition cache_get (c : gmap string value) (k : string) : value :=
  default VUndefined (c !! k).

(** The identifier [load] works with: its argument when that starts with
    [u], otherwise the identifier of its first character. *)
Definition resolve (nameOrId : string) : option string :=
  if startsWith nameOrId "u" then Some nameOrId else charToId nameOrId.

(** [load(nameOrId)] up to its first suspension. *)
Definition load_call (nameOrId : string) (w : world) : world * outcome :=
  match resolve nameOrId with
  | None => (w, Returned VNull)
  | Some id =>
      if truthy (cache_get (cache (loader w)) id)
      then (w, Returned (cache_get (cache (loader w)) id))
      else ({| loader := loader w;
               inflight := inflight w ++ [id];
               fetched := fetched w ++ [id] |}, Awaiting id)
  end.

(** One turn of [for (const line of lines)]. *)
Definition scan_line (w : world) (line : string) : world :=
  let cols := split ":" line in
  match cols !! 0%nat with
  | Some "99" =>
      match cols !! 7%nat with
      | Some refId =>
          if negb (String.eqb refId "") && negb (cache_truthy (cache (loader w)) refId)
          then fst (load_call refId w)
          else w
      | None => w
      end
  | _ => w
  end.

(** The rest of [load] for [id] once its request has settled, up to
    [await Promise.all(promises)], with the value the call's promise will
    settle with ([null] from the [catch]).  That promise settles after the
    recursive loads have; nothing else of the call runs then. *)
Definition load_resume (id : string) (r : response) (w : world) : world * value :=
  match r with
  | Rejected => (w, VNull)
  | Body json =>
      match get_prop json "data" with
      | None => (w, VNull)
      | Some data =>
          let w1 := {| loader := {| cache := <[id := data]> (cache (loader w)) |};
                       inflight := inflight w;
                       fetched := fetched w |} in
          match data with
          | VStr s => (foldl scan_line w1 (split "$" s), data)
          | _ => (w1, VNull)
          end
      end
  end.

(** What can happen next: somebody calls [load], or the [k]-th request in
    flight settles. *)
Inductive event :=
| Call (nameOrId : string)
| Settle (k : nat) (r : response).

Definition step (w : world) (e : event) : world :=
  match e with
  | Call nameOrId => fst (load_call nameOrId w)
  | Settle k r =>
      match inflight w !! k with
      | Some id =>
          fst (load_resume id r {| loader := loader w;
                                   inflight := delete k (inflight w);
                                   fetched := fetched w |})
      | None => w
      end
  end.

Definition run (es : list event) (w : world) : world := foldl step w es.

(** The requests for [id] among those issued so far. *)
Definition fetches_of (id : string) (w : world) : list string :=
  filter (eq id) (fetched w).

(** An entry is settled when it holds a truthy value and no request for
    its identifier is in flight. *)
Definition settled (w : world) (id : string) (v : value) : Prop :=
  cache (loader w) !! id = Some v /\ truthy v = true /\ id ∉ inflight w.

(** What a stretch of execution keeps of the world [w] it starts from: the
    keys of the cache, and every settled entry, for whose identifier no
    further request is issued. *)
Record keeps (w w' : world) : Prop := {
  keeps_keys : dom (cache (loader w)) ⊆ dom (cache (loader w'));
  keeps_settled id v :
    settled w id v -> settled w' id v /\ fetches_of id w' = fetches_of id w
}.

(** A JSON document of the external source with the raw definition [d]. *)
Definition glyph (name : string) (d : value) : value :=
  VObj [("name", VStr name); ("data", d)].

End GlyphLoader.

(** ** [KanjiComposer]: layout, affine transform and area *)

Module Rect.
(** The [Rect] of the program's type comments. *)
Record t := { x : float; y : float; w : float; h : float }.

(** The empty object [{}] that [boxCurrent] and [boxPart] start as: each of
    its fields reads [undefined], and the quotients and sums it enters turn
    that into NaN. *)
Definition empty : t := {| x := nan; y := nan; w := nan; h := nan |}.
End Rect.

Module KanjiComposer.
Import JS.
Local Open Scope float_scope.

(** A flattened stroke record: numbers, coordinates from position 3 on. *)
Definition stroke := list float.

(** What [compose] returns. *)
Record result := { data : string; logicalSize : float; area : float }.

(** The outcome of the layout chain of [compose]: either the new size and
    the two boxes, or, for [TRIANGLE], the new size, the area and the three
    boxes of the early return. *)
Inductive placement :=
| Boxes (nextLogicalSize : float) (boxCurrent boxPart : Rect.t)
| Triangle (nextLogicalSize nextArea : float) (boxTop boxLeft boxRight : Rect.t).

Definition place (layoutMode : string) (currentLogicalSize areaFactor : float)
  : placement :=
  if String.eqb layoutMode "ADD_RIGHT" then
    let addW := 300 in
    let nextLogicalSize := currentLogicalSize + addW in
    Boxes nextLogicalSize
      {| Rect.x := 0; Rect.y := 0; Rect.w := currentLogicalSize; Rect.h := nextLogicalSize |}
      {| Rect.x := currentLogicalSize; Rect.y := 0; Rect.w := addW; Rect.h := nextLogicalSize |}
  else if String.eqb layoutMode "ADD_LEFT" then
    let addW := 120 in
    let nextLogicalSize := currentLogicalSize + addW in
    Boxes nextLogicalSize
      {| Rect.x := addW; Rect.y := 0; Rect.w := currentLogicalSize; Rect.h := nextLogicalSize |}
      {| Rect.x := 0; Rect.y := 0; Rect.w := addW; Rect.h := nextLogicalSize |}
  else if String.eqb layoutMode "ADD_TOP" then
    let addH := 150 in
    let nextLogicalSize := currentLogicalSize + addH in
    Boxes nextLogicalSize
      {| Rect.x := 0; Rect.y := addH; Rect.w := nextLogicalSize; Rect.h := currentLogicalSize |}
      {| Rect.x := 0; Rect.y := 0; Rect.w := nextLogicalSize; Rect.h := addH |}
  else if String.eqb layoutMode "ADD_BOTTOM" then
    let addH := 150 in
    let nextLogicalSize := currentLogicalSize + addH in
    Boxes nextLogicalSize
      {| Rect.x := 0; Rect.y := 0; Rect.w := nextLogicalSize; Rect.h := currentLogicalSize |}
      {| Rect.x := 0; Rect.y := currentLogicalSize; Rect.w := nextLogicalSize; Rect.h := addH |}
  else if String.eqb layoutMode "NYOU" then
    let nextLogicalSize := currentLogicalSize / 0.7 in
    let margin := nextLogicalSize - currentLogicalSize in
    let offsetY := nextLogicalSize * 0.1 in
    Boxes nextLogicalSize
      {| Rect.x := margin; Rect.y := offsetY; Rect.w := currentLogicalSize; Rect.h := currentLogicalSize |}
      {| Rect.x := 0; Rect.y := 0; Rect.w := nextLogicalSize; Rect.h := nextLogicalSize |}
  else if String.eqb layoutMode "ENCLOSE" then
    let nextLogicalSize := currentLogicalSize + 70 in
    let boxSize := nextLogicalSize * 1.4 - 70 in
    let boxPadding := (nextLogicalSize - boxSize) / 2 in
    let padding := (nextLogicalSize - currentLogicalSize) / 2 in
    Boxes nextLogicalSize
      {| Rect.x := padding; Rect.y := padding; Rect.w := currentLogicalSize; Rect.h := currentLogicalSize |}
      {| Rect.x := boxPadding; Rect.y := boxPadding; Rect.w := boxSize; Rect.h := boxSize |}
  else if String.eqb layoutMode "ENCLOSE_GATE" then
    let innerRatio := 0.75 in
    let nextLogicalSize := currentLogicalSize / innerRatio in
    let contentScale := 0.5 in
    let contentW := nextLogicalSize * contentScale in
    let contentH := nextLogicalSize * contentScale in
    let offsetX := (nextLogicalSize - contentW) / 2 in
    let offsetY := nextLogicalSize * 0.45 in
    Boxes nextLogicalSize
      {| Rect.x := offsetX; Rect.y := offsetY; Rect.w := contentW; Rect.h := contentH |}
      {| Rect.x := 0; Rect.y := 0; Rect.w := nextLogicalSize; Rect.h := nextLogicalSize |}
  else if String.eqb layoutMode "TRIANGLE" then
    let nextLogicalSize := currentLogicalSize * 2 in
    let nextArea := (40000 * 3) * areaFactor in
    let half := nextLogicalSize / 2 in
    Triangle nextLogicalSize nextArea
      {| Rect.x := half / 2; Rect.y := 0; Rect.w := half; Rect.h := half |}
      {| Rect.x := 0; Rect.y := half; Rect.w := half; Rect.h := half |}
      {| Rect.x := half; Rect.y := half; Rect.w := half; Rect.h := half |}
  else
    Boxes currentLogicalSize Rect.empty Rect.empty.

(** [transformStrokes(strokes, targetBox, srcRect)]; [None] is a missing
    [srcRect].  Positions 0 to 2 of a copy are left alone; position [3 + k]
    takes the x map for even [k] and the y map for odd [k]. *)
Definition transformStrokes (strokes : list stroke) (targetBox : Rect.t)
    (srcRect : option Rect.t) : list stroke :=
  let sX := (match srcRect with Some r => Rect.x r | None => 0 end) * 200 in
  let sY := (match srcRect with Some r => Rect.y r | None => 0 end) * 200 in
  let sW := (match srcRect with Some r => Rect.w r | None => 1 end) * 200 in
  let sH := (match srcRect with Some r => Rect.h r | None => 1 end) * 200 in
  let scaleX := Rect.w targetBox / sW in
  let scaleY := Rect.h targetBox / sH in
  let offsetX := Rect.x targetBox - sX * scaleX in
  let offsetY := Rect.y targetBox - sY * scaleY in
  map (fun s : stroke =>
         take 3 s ++
         imap (fun k val =>
                 if Nat.even k then floor (val * scaleX + offsetX)
                 else floor (val * scaleY + offsetY))
              (drop 3 s))
      strokes.

(** [a[i]] as an operand of arithmetic: an element that is not there reads
    [undefined], which arithmetic turns into NaN. *)
Definition arr_num (a : list float) (i : nat) : float := default nan (a !! i).

(** [a[i] = v] for [i] up to the length of [a]: an element that is there is
    replaced, and assigning at the length appends.  (The loop below never
    assigns further out.) *)
Definition arr_set (a : list float) (i : nat) (v : float) : list float :=
  if decide (i < length a)%nat then <[i := v]> a else a ++ [v].

(** The loop [for (let i = 3; i < newStroke.length; i+=2)] of [compose] over
    a copy of an existing stroke, started at [i], with the bound read again
    on every turn.  [fuel] bounds the number of turns. *)
Fixpoint remap_loop (scaleX offsetX scaleY offsetY : float)
    (fuel i : nat) (newStroke : list float) : list float :=
  match fuel with
  | O => newStroke
  | S fuel' =>
      if decide (i < length newStroke)%nat then
        let a1 := arr_set newStroke i (floor (arr_num newStroke i * scaleX + offsetX)) in
        let a2 := arr_set a1 (i + 1) (floor (arr_num a1 (i + 1) * scaleY + offsetY)) in
        remap_loop scaleX offsetX scaleY offsetY fuel' (i + 2)%nat a2
      else newStroke
  end.

(** What the loop makes of the coordinates from position 3 on: each x and
    the y after it are remapped; a last x with no y after it is remapped and
    followed by the NaN that the assignment to the missing y appends. *)
Fixpoint remap_pairs (scaleX offsetX scaleY offsetY : float) (coords : list float)
  : list float :=
  match coords with
  | [] => []
  | [vx] => [floor (vx * scaleX + offsetX); floor (nan * scaleY + offsetY)]
  | vx :: vy :: coords' =>
      floor (vx * scaleX + offsetX) :: floor (vy * scaleY + offsetY)
        :: remap_pairs scaleX offsetX scaleY offsetY coords'
  end.

(** The existing strokes remapped into [boxCurrent].  A turn of the loop
    moves on by two places, so as many turns as the stroke is long are
    enough. *)
Definition transformCurrent (strokes : list stroke) (boxCurrent : Rect.t)
    (currentLogicalSize : float) : list stroke :=
  let scaleX_curr := Rect.w boxCurrent / currentLogicalSize in
  let scaleY_curr := Rect.h boxCurrent / currentLogicalSize in
  let offsetX_curr := Rect.x boxCurrent in
  let offsetY_curr := Rect.y boxCurrent in
  map (fun s : stroke =>
         remap_loop scaleX_curr offsetX_curr scaleY_curr offsetY_curr (length s) 3 s)
      strokes.

(** The new size of each layout in the layout table of the design
    document; a layout the table does not list keeps the size. *)
Definition table_size (layoutMode : string) (currentLogicalSize : float) : float :=
  if String.eqb layoutMode "ADD_RIGHT" then currentLogicalSize + 300
  else if String.eqb layoutMode "ADD_LEFT" then currentLogicalSize + 120
  else if String.eqb layoutMode "ADD_TOP" then currentLogicalSize + 150
  else if String.eqb layoutMode "ADD_BOTTOM" then currentLogicalSize + 150
  else if String.eqb layoutMode "NYOU" then currentLogicalSize / 0.7
  else if String.eqb layoutMode "ENCLOSE" then currentLogicalSize + 70
  else if String.eqb layoutMode "ENCLOSE_GATE" then currentLogicalSize / 0.75
  else if String.eqb layoutMode "TRIANGLE" then currentLogicalSize * 2
  else currentLogicalSize.

(** The whole local square, the source region of a part without a rect. *)
Definition whole : Rect.t := {| Rect.x := 0; Rect.y := 0; Rect.w := 1; Rect.h := 1 |}.

(** A stroke record whose coordinates from position 3 on come in pairs. *)
Definition complete_pairs (s : stroke) : Prop := Nat.even (length s - 3) = true.

(** An output record keeps the length and the first three fields of the
    record it was made from. *)
Definition same_frame (out src : stroke) : Prop :=
  length out = length src /\ take 3 out = take 3 src.

Section Engine.

(** The stroke decomposition of the KAGE engine: [kage.getEachStrokes]
    under the parts pushed to [kage.kBuhin], in the order pushed. *)
Variable getEachStrokes : list (string * value) -> string -> list stroke.

(** The text of a number in [Array.prototype.join]. *)
Variable Number_toString : float -> string.

(** [this.loader]. *)
Variable loader : GlyphLoader.t.

(** [_getKageInstance()]: the parts pushed to the engine's table, one per
    cache entry.  The table is keyed by name and the cache has one entry
    per name, so the order of these pushes is of no account. *)
Definition getKageInstance : list (string * value) :=
  map_to_list (GlyphLoader.cache loader).

Definition flatten (kageData : string) : list stroke :=
  getEachStrokes (getKageInstance ++ [("u_temp", VStr kageData)]) kageData.

Definition stringify (strokes : list stroke) : string :=
  join "$" (map (fun s : stroke => join ":" (map Number_toString s)) strokes).

(** The strokes [compose] hands to [stringify], with the size and the
    area it returns. *)
Definition compose_strokes (currentData partData layoutMode : string)
    (currentLogicalSize currentArea areaFactor : float)
    (partRect : option Rect.t) : list stroke * float * float :=
  let strokesCurrent := flatten currentData in
  let strokesPart := flatten partData in
  let srcPartRect :=
    default {| Rect.x := 0; Rect.y := 0; Rect.w := 1; Rect.h := 1 |} partRect in
  match place layoutMode currentLogicalSize areaFactor with
  | Triangle nextLogicalSize nextArea boxTop boxLeft boxRight =>
      let s1 := transformStrokes strokesPart boxTop (Some srcPartRect) in
      let s2 := transformStrokes strokesPart boxLeft (Some srcPartRect) in
      let s3 := transformStrokes strokesPart boxRight (Some srcPartRect) in
      (s1 ++ s2 ++ s3, nextLogicalSize, nextArea)
  | Boxes nextLogicalSize boxCurrent boxPart =>
      let baseRatio := nextLogicalSize / currentLogicalSize in
      let baseNextArea := currentArea * baseRatio in
      let deltaArea := baseNextArea - currentArea in
      let adjustedDelta := deltaArea * areaFactor in
      let nextArea := currentArea + adjustedDelta in
      let transCurrent := transformCurrent strokesCurrent boxCurrent currentLogicalSize in
      let transPart := transformStrokes strokesPart boxPart (Some srcPartRect) in
      (transCurrent ++ transPart, floor nextLogicalSize, nextArea)
  end.

Definition compose (currentData partData layoutMode : string)
    (currentLogicalSize currentArea areaFactor : float)
    (partRect : option Rect.t) : result :=
  let '(strokes, size, nextArea) :=
    compose_strokes currentData partData layoutMode
      currentLogicalSize currentArea areaFactor partRect in
  {| data := stringify strokes; logicalSize := size; area := nextArea |}.

End Engine.

End KanjiComposer.

(** ** [KanjiEditorState]: the current composite and its history *)

Module KanjiEditorState.
Import JS.
Local Open Scope float_scope.

(** [this.history] is an array used as a stack whose top is its last
    element; [this.state] is a plain object. *)
Record t := { history : list obj; state : obj }.

Definition getInitialState : obj :=
  [("data", VStr ""); ("logicalSize", VNum 200); ("area", VNum 40000)].

(** [new KanjiEditorState()]. *)
Definition new : t := {| history := []; state := getInitialState |}.

Definition reset (initialData : value) (ed : t) : t :=
  {| history := [];
     state := [("data", initialData); ("logicalSize", VNum 200); ("area", VNum 40000)] |}.

(** [update]: the copy [{ ...this.state }] goes on the stack, then the three
    fields of the current object are assigned. *)
Definition update (newData newSize newArea : value) (ed : t) : t :=
  {| history := history ed ++ [state ed];
     state := obj_set (obj_set (obj_set (state ed) "data" newData)
                         "logicalSize" newSize) "area" newArea |}.

(** [undo]: [history.pop()] takes the last element off. *)
Definition undo (ed : t) : bool * t :=
  match last (history ed) with
  | Some snapshot =>
      (true, {| history := take (length (history ed) - 1) (history ed);
                state := snapshot |})
  | None => (false, ed)
  end.

Definition getCurrent (ed : t) : obj := state ed.

Definition exportJson (ed : t) : text := JSON_stringify (state ed).

(** [importJson]: every exception is caught and answered [false]. *)
Definition importJson (jsonString : text) (ed : t) : bool * t :=
  match JSON_parse jsonString with
  | None => (false, ed)
  | Some parsed =>
      match parsed with
      | VUndefined | VNull => (false, ed)
      | VObj o =>
          if String.eqb (typeof (obj_get o "data")) "string"
             && String.eqb (typeof (obj_get o "logicalSize")) "number"
             && String.eqb (typeof (obj_get o "area")) "number"
          then (true, {| history := []; state := o |})
          else (false, ed)
      | _ => (false, ed)
      end
  end.

(** The shape [importJson] asks of a parsed document: an object with a
    string [data] and numeric [logicalSize] and [area]. *)
Definition valid_import (parsed : value) : Prop :=
  exists (o : obj) (s : string) (n m : float),
    parsed = VObj o /\ obj_get o "data" = VStr s
    /\ obj_get o "logicalSize" = VNum n /\ obj_get o "area" = VNum m.

(** The canonical starting square around [d]. *)
Definition starting_state (d : value) : obj :=
  [("data", d); ("logicalSize", VNum 200); ("area", VNum 40000)].

End KanjiEditorState.

(** ** [GlyphConfig]: the catalog of parts and the variant resolver *)

Module GlyphConfig.
Import JS.
Local Open Scope float_scope.

(** The [Variant|string] of the type comments: a bare identifier, or an
    object with an [id] and, when it has one, a [rect] array. *)
Inductive Variant :=
| Bare (id : string)
| WithRect (id : string) (rect : option (list float)).

(** The [CharConfig] of the type comments; [variants] is optional. *)
Record CharConfig := {
  char : string;
  layouts : list string;
  variants : option (list (string * Variant))
}.

(** [GlyphConfig.CHARS]. *)
Definition CHARS : list CharConfig :=
  [ {| char := "木";
       layouts := ["ADD_RIGHT"; "ADD_LEFT"; "ADD_TOP"; "ADD_BOTTOM"];
       variants := Some [("ADD_LEFT", WithRect "u6728-01" (Some [0; 0; 0.45; 1]))] |};
    {| char := "日";
       layouts := ["ADD_RIGHT"; "ADD_TOP"; "ADD_BOTTOM"];
       variants := None |};
    {| char := "口";
       layouts := ["ADD_RIGHT"; "ADD_LEFT"; "ADD_TOP"; "ADD_BOTTOM"];
       variants := None |};
    {| char := "田";
       layouts := ["ADD_RIGHT"; "ADD_TOP"; "ADD_BOTTOM"];
       variants := None |};
    {| char := "門";
       layouts := ["ADD_RIGHT"; "ADD_LEFT"; "ENCLOSE_GATE"];
       variants := None |};
    {| char := "人";
       layouts := ["ADD_RIGHT"; "ADD_TOP"; "ADD_LEFT"];
       variants := Some [("ADD_LEFT", WithRect "u4ebb-01" (Some [0; 0; 0.5; 1]))] |};
    {| char := "水";
       layouts := ["ADD_LEFT"; "ADD_BOTTOM"];
       variants := Some [("ADD_LEFT", WithRect "u6c35-01" (Some [0; 0; 0.45; 1]))] |};
    {| char := "火";
       layouts := ["ADD_LEFT"; "ADD_BOTTOM"];
       variants := Some [("ADD_LEFT", WithRect "u706b-01" (Some [0; 0; 0.5; 1]));
                         ("ADD_BOTTOM", WithRect "u706c-04" (Some [0; 0.6; 1; 0.4]))] |};
    {| char := "土";
       layouts := ["ADD_RIGHT"; "ADD_BOTTOM"; "ADD_LEFT"];
       variants := Some [("ADD_LEFT", WithRect "u571f-01" (Some [0; 0; 0.55; 1]))] |};
    {| char := "山";
       layouts := ["ADD_TOP"; "ADD_LEFT"];
       variants := None |};
    {| char := "雨";
       layouts := ["ADD_TOP"; "ADD_RIGHT"];
       variants := Some [("ADD_TOP", WithRect "u96e8-03" (Some [0; 0; 1; 0.5]))] |};
    {| char := "言";
       layouts := ["ADD_LEFT"; "ADD_RIGHT"; "ADD_BOTTOM"];
       variants := Some [("ADD_LEFT", WithRect "u8a00-01" (Some [0; 0; 0.4; 1]))] |};
    {| char := "心";
       layouts := ["ADD_BOTTOM"; "ADD_RIGHT"; "ADD_LEFT"];
       variants := Some [("ADD_LEFT", WithRect "u5fc4-01" (Some [0; 0; 0.4; 1]));
                         ("ADD_BOTTOM", WithRect "u5fc3-04" (Some [0; 0.6; 1; 0.4]))] |};
    {| char := "手";
       layouts := ["ADD_LEFT"; "ADD_BOTTOM"];
       variants := Some [("ADD_LEFT", WithRect "u624c-01" (Some [0; 0; 0.45; 1]))] |};
    {| char := "示";
       layouts := ["ADD_LEFT"; "ADD_BOTTOM"];
       variants := Some [("ADD_LEFT", WithRect "u793b-01" (Some [0; 0; 0.45; 1]))] |};
    {| char := "辶";
       layouts := ["NYOU"];
       variants := Some [("NYOU", WithRect "u8fb6-g" (Some [0; 0; 1; 1]))] |};
    {| char := "囗";
       layouts := ["ENCLOSE"];
       variants := None |} ].

(** [GlyphConfig.LAYOUT_LABELS]. *)
Definition LAYOUT_LABELS : list (string * string) :=
  [ ("ADD_RIGHT", "右に追加 (つくり)");
    ("ADD_LEFT", "左に追加 (へん)");
    ("ADD_TOP", "上に載せる (かんむり)");
    ("ADD_BOTTOM", "下に追加 (あし)");
    ("NYOU", "しんにょう (左下囲み)");
    ("ENCLOSE", "囲む (くにがまえ)");
    ("ENCLOSE_GATE", "門構え (内側下配置)");
    ("TRIANGLE", "品字型 (3つ複製)") ].

(** [o[k]] on an object kept as a list of its own properties; [None] is
    [undefined]. *)
Fixpoint own {A : Type} (o : list (string * A)) (k : string) : option A :=
  match o with
  | [] => None
  | (k', a) :: o' => if String.eqb k' k then Some a else own o' k
  end.

(** [charConfig.variants ? charConfig.variants[layoutMode] : undefined].  A
    [layoutMode] that names a property of [Object.prototype] finds a
    function or the prototype there, which the tests below pass by as they
    pass by [undefined]; so own properties are enough. *)
Definition variant_of (charConfig : CharConfig) (layoutMode : string) : option Variant :=
  match variants charConfig with
  | Some vs => own vs layoutMode
  | None => None
  end.

(** [{ x: rect[0], y: rect[1], w: rect[2], h: rect[3] }]; an element that
    is not there reads [undefined], NaN to the arithmetic it enters. *)
Definition rect_of (rect : list float) : Rect.t :=
  {| Rect.x := default nan (rect !! 0%nat);
     Rect.y := default nan (rect !! 1%nat);
     Rect.w := default nan (rect !! 2%nat);
     Rect.h := default nan (rect !! 3%nat) |}.

(** [getVariantInfo(charConfig, layoutMode)]: the [id] and the [rect]
    ([None] is [null]).  An empty string is falsy: an empty bare variant, or
    an object variant with an empty [id], gives the character itself, and
    the object's [rect] is then not looked at. *)
Definition getVariantInfo (charConfig : CharConfig) (layoutMode : string)
  : string * option Rect.t :=
  let '(id, rect) :=
    match variant_of charConfig layoutMode with
    | Some (WithRect vid vrect) =>
        if negb (String.eqb vid "")
        then (vid, match vrect with Some r => Some (rect_of r) | None => None end)
        else ("", None)
    | Some (Bare vid) => (vid, None)
    | None => ("", None)
    end in
  (if String.eqb id "" then char charConfig else id, rect).

(** The part of [composeRandom] before its [await]: the entry at index [i]
    of the catalog, the layout at index [j] of its layouts, and the variant
    resolved for them.  [i] and [j] stand for the two values of
    [Math.floor(Math.random() * length)].  [None] is an index out of range:
    for [i] the [TypeError] of reading [layouts] of [undefined]; for [j] the
    run that goes on with [undefined] as the layout, which is not followed
    here. *)
Definition composeRandom_pick (i j : nat)
  : option (CharConfig * string * string * option Rect.t) :=
  match CHARS !! i with
  | Some charConfig =>
      match layouts charConfig !! j with
      | Some layoutMode =>
          let '(id, partRect) := getVariantInfo charConfig layoutMode in
          Some (charConfig, layoutMode, id, partRect)
      | None => None
      end
  | None => None
  end.

(** The layouts that the chain of [compose] places with two boxes. *)
Definition two_box_layouts : list string :=
  ["ADD_RIGHT"; "ADD_LEFT"; "ADD_TOP"; "ADD_BOTTOM"; "NYOU"; "ENCLOSE"; "ENCLOSE_GATE"].

(** A rect that lies in the unit square and has a positive width and
    height. *)
Definition in_unit_square (r : Rect.t) : Prop :=
  (0 <=? Rect.x r) = true /\ (0 <=? Rect.y r) = true
  /\ (0 <? Rect.w r) = true /\ (0 <? Rect.h r) = true
  /\ (Rect.x r + Rect.w r <=? 1) = true /\ (Rect.y r + Rect.h r <=? 1) = true.

End GlyphConfig.

(** ** Runs of editor operations *)

Module EditorRuns.
Import JS KanjiEditorState.

(** The updates of a list, applied first to last; an element is the
    [(newData, newSize, newArea)] of one [update]. *)
Definition updates (us : list (value * value * value)) (ed : t) : t :=
  foldl (fun ed' u => update u.1.1 u.1.2 u.2 ed') ed us.

(** [n] times [undo], whatever each one answers. *)
Definition undos (n : nat) (ed : t) : t := Nat.iter n (fun ed' => (undo ed').2) ed.

End EditorRuns.

(** ** What the loader is expected to keep *)

Module LoaderSpec.
Import JS GlyphLoader.

(** An identifier in canonical form starts with [u]. *)
Definition is_id (s : string) : Prop := startsWith s "u" = true.

(** The part a record of a raw definition refers to: field 7 of a record
    whose field 0 is [99], when it is there and not empty. *)
Definition line_ref (line : string) : option string :=
  let cols := split ":" line in
  match cols !! 0%nat, cols !! 7%nat with
  | Some kind, Some refId =>
      if String.eqb kind "99" && negb (String.eqb refId "") then Some refId else None
  | _, _ => None
  end.

(** The parts a raw definition refers to, in the order of its records. *)
Definition references (data : string) : list string :=
  omap line_ref (split "$" data).

(** Every request ever issued asks for an identifier in canonical form,
    every request in flight was issued, and every key of the cache was
    requested. *)
Definition canonical (w : world) : Prop :=
  Forall is_id (fetched w)
  /\ inflight w ⊆ fetched w
  /\ (forall k, is_Some (cache (loader w) !! k) -> k ∈ fetched w).

(** The part [refId] is provided for in [w]: its entry is truthy, or the
    identifier it resolves to has a truthy entry or has been requested. *)
Definition provided (w : world) (refId : string) : Prop :=
  cache_truthy (cache (loader w)) refId = true
  \/ exists id, resolve refId = Some id
       /\ (truthy (cache_get (cache (loader w)) id) = true \/ id ∈ fetched w).

End LoaderSpec.

(** ** Reading identifiers back *)

Module Codec.

(** The value of a lower-case hexadecimal digit. *)
Definition hex_digit_value (c : ascii) : option N :=
  let n := N_of_ascii c in
  if ((48 <=? n) && (n <=? 57))%N then Some (n - 48)%N
  else if ((97 <=? n) && (n <=? 102))%N then Some (n - 87)%N
  else None.

(** The value of a run of hexadecimal digits with [16 ^ its length]. *)
Fixpoint hex_val (s : string) : option (N * N) :=
  match s with
  | EmptyString => Some (0, 1)%N
  | String c s' =>
      match hex_digit_value c, hex_val s' with
      | Some d, Some (v, p) => Some (d * p + v, 16 * p)%N
      | _, _ => None
      end
  end.

(** The number a text of lower-case hexadecimal digits denotes. *)
Definition hex_value (s : string) : option N :=
  match s with
  | EmptyString => None
  | _ => fst <$> hex_val s
  end.

(** The UTF-8 form of the text of one code point. *)
Definition utf8_encode (cp : N) : string :=
  let byte (n : N) := ascii_of_N n in
  (if cp <? 128 then String (byte cp) ""
   else if cp <? 2048 then
     String (byte (192 + cp / 64)) (String (byte (128 + cp mod 64)) "")
   else if cp <? 65536 then
     String (byte (224 + cp / 4096))
       (String (byte (128 + (cp / 64) mod 64)) (String (byte (128 + cp mod 64)) ""))
   else
     String (byte (240 + cp / 262144))
       (String (byte (128 + (cp / 4096) mod 64))
          (String (byte (128 + (cp / 64) mod 64))
             (String (byte (128 + cp mod 64)) ""))))%N.

End Codec.

(** ** Binary64 numbers as mantissa and exponent *)

Module Binary64.

(** The value of the finite number of mantissa [m] and exponent [e], in
    units of [2^-2148]: the finite numbers and the products of two of them
    are whole in this unit. *)
Definition units (m : positive) (e : Z) : Z := (Z.pos m * 2 ^ (e + 2148))%Z.

(** The number that rounding makes of the mantissa [R], which is at most
    [2^53], at the exponent [e]. *)
Definition pack (sx : bool) (R : Z) (e : Z) : spec_float :=
  match R with
  | Z0 => S754_zero sx
  | Zpos r =>
      if (Z.pos r <? 2 ^ 53)%Z
      then (if (e <=? 971)%Z then S754_finite sx r e else S754_infinity sx)
      else (if (e + 1 <=? 971)%Z then S754_finite sx 4503599627370496 (e + 1)
            else S754_infinity sx)
  | Zneg _ => S754_nan
  end.

End Binary64.

(** ** The affine remapping as the design document words it *)

Module PlacementSpec.
Import JS KanjiComposer.
Local Open Scope float_scope.

(** [f] on the first element, [g] on the second, [f] on the third, and so
    on: the x map and the y map over a run of coordinates. *)
Fixpoint alternate {A B : Type} (f g : A -> B) (l : list A) : list B :=
  match l with
  | [] => []
  | v :: l' => f v :: alternate g f l'
  end.

(** A record of a part placed into [targetBox] from the source region
    [partRect] scaled by 200: the scale is the box over the region, the
    offset is the corner of the box less the corner of the region times the
    scale, and every coordinate from position 3 on, x and y in turn, is
    floored after the map.  Positions 0 to 2 are kept. *)
Definition fitted (targetBox partRect : Rect.t) (s : stroke) : stroke :=
  let scaleX := Rect.w targetBox / (Rect.w partRect * 200) in
  let scaleY := Rect.h targetBox / (Rect.h partRect * 200) in
  let offsetX := Rect.x targetBox - Rect.x partRect * 200 * scaleX in
  let offsetY := Rect.y targetBox - Rect.y partRect * 200 * scaleY in
  take 3 s ++ alternate (fun x => floor (x * scaleX + offsetX))
                        (fun y => floor (y * scaleY + offsetY))
                        (drop 3 s).

(** The text of a list of records: the numbers of a record joined by
    colons, the records joined by dollar signs. *)
Definition text_of (Number_toString : float -> string) (records : list stroke) : string :=
  join "$" (map (fun s : stroke => join ":" (map Number_toString s)) records).

End PlacementSpec.

(** ** What the composer is expected to keep *)

Module ComposerSpec.
Import JS KanjiComposer.
Local Open Scope float_scope.

(** The layouts the chain of [compose] knows: those that have a label. *)
Definition known_layouts : list string := map fst GlyphConfig.LAYOUT_LABELS.

(** A record whose coordinates are all NaN: the fields 0 to 2 of [src]
    and then [n] times NaN. *)
Definition blanked (src : stroke) (n : nat) : stroke := take 3 src ++ replicate n nan.

(** The number of values the loop of [compose] leaves after position 3 of
    a record with [n] values there: [n], made even. *)
Definition paired (n : nat) : nat := if Nat.odd n then S n else n.

(** An existing record [src] after the loop of [compose] has remapped it
    into [boxCurrent]: fields 0 to 2 are kept; every x is scaled by the
    width of the box over the current size, moved by the left edge of the
    box and floored, every y likewise by the height and the top edge; the
    coordinates are made a whole number of pairs, and a y that was missing
    is NaN. *)
Definition remapped (boxCurrent : Rect.t) (currentLogicalSize : float)
    (out src : stroke) : Prop :=
  out = take 3 src
        ++ remap_pairs (Rect.w boxCurrent / currentLogicalSize) (Rect.x boxCurrent)
             (Rect.h boxCurrent / currentLogicalSize) (Rect.y boxCurrent)
             (drop 3 src)
  /\ length out = (length (take 3 src) + paired (length src - 3))%nat
  /\ (Nat.odd (length src - 3) = true -> last out = Some nan).

(** Whether the character [c] occurs in [s]. *)
Fixpoint has_char (c : ascii) (s : string) : bool :=
  match s with
  | EmptyString => false
  | String c' s' => Ascii.eqb c' c || has_char c s'
  end.

(** A number whose text has neither of the two separators in it. *)
Definition clean (Number_toString : float -> string) (n : float) : Prop :=
  has_char ":" (Number_toString n) = false /\ has_char "$" (Number_toString n) = false.

End ComposerSpec.

(** ** What the catalog is expected to keep *)

Module CatalogSpec.
Import JS GlyphConfig.

(** The entry [c] can be composed under its layout [l]: the layout is one
    the chain places with two boxes and has a label, the identifier resolved
    for it is one [load] can ask for, and the rect resolved for it, if any,
    lies in the unit square. *)
Definition composable (c : CharConfig) (l : string) : Prop :=
  l ∈ two_box_layouts
  /\ is_Some (own LAYOUT_LABELS l)
  /\ (exists id, GlyphLoader.resolve (getVariantInfo c l).1 = Some id
                 /\ LoaderSpec.is_id id)
  /\ (forall r, (getVariantInfo c l).2 = Some r -> in_unit_square r).

(** The layouts that have a variant in the entry [c]. *)
Definition variant_keys (c : CharConfig) : list string :=
  match variants c with
  | Some vs => map fst vs
  | None => []
  end.

End CatalogSpec.

(** ** [KanjiRenderer]: drawing a composite on a canvas *)

Module KanjiRenderer.
Import JS.
Local Open Scope float_scope.

(** The width parameters of a KAGE engine that [_applyKageScale] touches.
    A parameter handed to [scaleArray] is an array or is missing ([None],
    the falsy case of [if(arr)]); [kAdjustKakatoRangeX] is an array or a
    number. *)
Record Kage := {
  kWidth : float;
  kMinWidthT : float;
  kMinWidthY : float;
  kMinWidthU : float;
  kMage : float;
  kAdjustKakatoL : option (list float);
  kAdjustKakatoR : option (list float);
  kAdjustKakatoRangeX : list float + float;
  kAdjustKakatoRangeY : option (list float);
  kAdjustUrokoX : option (list float);
  kAdjustUrokoY : option (list float);
  kAdjustUrokoLength : option (list float);
  kAdjustUrokoLine : option (list float);
  kAdjustUroko2Length : float
}.

(** The local [scaleArray] of [_applyKageScale(kage, s)]. *)
Definition scaleArray (s : float) (arr : option (list float)) : option (list float) :=
  match arr with
  | Some a => Some (map (fun v => v * s) a)
  | None => None
  end.

Definition _applyKageScale (kage : Kage) (s : float) : Kage :=
  {| kWidth := kWidth kage * s;
     kMinWidthT := kMinWidthT kage * s;
     kMinWidthY := kMinWidthY kage * s;
     kMinWidthU := kMinWidthU kage * s;
     kMage := kMage kage * s;
     kAdjustKakatoL := scaleArray s (kAdjustKakatoL kage);
     kAdjustKakatoR := scaleArray s (kAdjustKakatoR kage);
     kAdjustKakatoRangeX :=
       match kAdjustKakatoRangeX kage with
       | inl a => inl (map (fun v => v * s) a)
       | inr v => inr (v * s)
       end;
     kAdjustKakatoRangeY := scaleArray s (kAdjustKakatoRangeY kage);
     kAdjustUrokoX := scaleArray s (kAdjustUrokoX kage);
     kAdjustUrokoY := scaleArray s (kAdjustUrokoY kage);
     kAdjustUrokoLength := scaleArray s (kAdjustUrokoLength kage);
     kAdjustUrokoLine := scaleArray s (kAdjustUrokoLine kage);
     kAdjustUroko2Length := kAdjustUroko2Length kage * s |}.

(** A vertex of a polygon of the engine. *)
Record point := { px : float; py : float }.

(** The calls that [draw] makes on the drawing context, in order. *)
Inductive ctx_op :=
  | ClearRect (x y w h : float)
  | Save
  | Scale (x y : float)
  | FillStyle (style : string)
  | BeginPath
  | MoveTo (x y : float)
  | LineTo (x y : float)
  | Fill
  | Restore.

(** What [draw] returns when it draws. *)
Record metrics := { visualSize : float; scaleFactor : float }.

(** The body of the loop over [polygons.array] for one polygon. *)
Definition trace_polygon (poly : list point) : list ctx_op :=
  match poly with
  | [] => []
  | p0 :: rest => MoveTo (px p0) (py p0) :: map (fun p => LineTo (px p) (py p)) rest
  end.

Section Engine.

(** The parameters of a [new Kage()]. *)
Variable new_Kage : Kage.

(** [kage.makeGlyph(polygons, name)] under the parameters of [kage] and the
    parts pushed to [kage.kBuhin], in the order pushed: the polygons it
    leaves in [polygons.array]. *)
Variable makeGlyph : Kage -> list (string * value) -> string -> list (list point).

(** [this.loader]. *)
Variable loader : GlyphLoader.t.

(** [draw(canvas, kageData, logicalSize, area)] on a canvas of the given
    [width] and [height]: the calls made on its context and the value
    returned, [None] for [null]. *)
Definition draw (width height : float) (kageData : value)
    (logicalSize area : float) : list ctx_op * option metrics :=
  let cleared := [ClearRect 0 0 width height] in
  if negb (truthy kageData) then (cleared, None)
  else
    let visualSize := sqrt area in
    let scaleFactor := visualSize / logicalSize in
    let fitScale := width / visualSize in
    let totalScale := fitScale in
    let compensation := 1.0 / totalScale * 2.0 in
    let kage := _applyKageScale new_Kage compensation in
    let cache := GlyphLoader.cache loader in
    let polygons :=
      makeGlyph kage (map_to_list cache ++ [("u_render", kageData)]) "u_render" in
    (cleared
       ++ [Save; Scale fitScale fitScale; Scale scaleFactor scaleFactor;
           FillStyle "black"; BeginPath]
       ++ flat_map trace_polygon polygons
       ++ [Fill; Restore],
     Some {| visualSize := visualSize; scaleFactor := scaleFactor |}).

End Engine.

End KanjiRenderer.

(** ** What the renderer is expected to keep *)

Module RendererSpec.
Import KanjiRenderer.

(** Two optional arrays are both missing or both there with one length. *)
Definition same_length (a b : option (list float)) : Prop :=
  match a, b with
  | Some a', Some b' => length a' = length b'
  | None, None => True
  | _, _ => False
  end.

(** Two engines have their array parameters of the same shape. *)
Definition same_shape (k k' : Kage) : Prop :=
  same_length (kAdjustKakatoL k) (kAdjustKakatoL k')
  /\ same_length (kAdjustKakatoR k) (kAdjustKakatoR k')
  /\ match kAdjustKakatoRangeX k, kAdjustKakatoRangeX k' with
     | inl a, inl a' => length a = length a'
     | inr _, inr _ => True
     | _, _ => False
     end
  /\ same_length (kAdjustKakatoRangeY k) (kAdjustKakatoRangeY k')
  /\ same_length (kAdjustUrokoX k) (kAdjustUrokoX k')
  /\ same_length (kAdjustUrokoY k) (kAdjustUrokoY k')
  /\ same_length (kAdjustUrokoLength k) (kAdjustUrokoLength k')
  /\ same_length (kAdjustUrokoLine k) (kAdjustUrokoLine k').

(** The optional array [b] is [a] with every element multiplied by [s]. *)
Definition scaled (s : float) (a b : option (list float)) : Prop :=
  match a, b with
  | Some a', Some b' =>
      length b' = length a'
      /\ forall i v, a' !! i = Some v -> b' !! i = Some (v * s)%float
  | None, None => True
  | _, _ => False
  end.

(** The engine [k'] has every width parameter of [k] multiplied by [s]:
    the numbers, and the arrays element by element. *)
Definition scaled_by (s : float) (k k' : Kage) : Prop :=
  kWidth k' = (kWidth k * s)%float
  /\ kMinWidthT k' = (kMinWidthT k * s)%float
  /\ kMinWidthY k' = (kMinWidthY k * s)%float
  /\ kMinWidthU k' = (kMinWidthU k * s)%float
  /\ kMage k' = (kMage k * s)%float
  /\ scaled s (kAdjustKakatoL k) (kAdjustKakatoL k')
  /\ scaled s (kAdjustKakatoR k) (kAdjustKakatoR k')
  /\ match kAdjustKakatoRangeX k, kAdjustKakatoRangeX k' with
     | inl a, inl a' => scaled s (Some a) (Some a')
     | inr v, inr v' => v' = (v * s)%float
     | _, _ => False
     end
  /\ scaled s (kAdjustKakatoRangeY k) (kAdjustKakatoRangeY k')
  /\ scaled s (kAdjustUrokoX k) (kAdjustUrokoX k')
  /\ scaled s (kAdjustUrokoY k) (kAdjustUrokoY k')
  /\ scaled s (kAdjustUrokoLength k) (kAdjustUrokoLength k')
  /\ scaled s (kAdjustUrokoLine k) (kAdjustUrokoLine k')
  /\ kAdjustUroko2Length k' = (kAdjustUroko2Length k * s)%float.

(** The vertex a call on the context goes to, if it is a path call. *)
Definition vertex (op : ctx_op) : option point :=
  match op with
  | MoveTo x y | LineTo x y => Some {| px := x; py := y |}
  | _ => None
  end.

Definition is_MoveTo (op : ctx_op) : bool :=
  match op with MoveTo _ _ => true | _ => false end.

Definition is_Save (op : ctx_op) : bool :=
  match op with Save => true | _ => false end.

Definition is_Restore (op : ctx_op) : bool :=
  match op with Restore => true | _ => false end.

Definition nonempty (poly : list point) : bool :=
  match poly with [] => false | _ => true end.

End RendererSpec.

(** ** Collaborators for the examples *)

Module Sample.
Import JS.
Local Open Scope float_scope.

(** A decomposition engine that knows two raw definitions, each one
    primitive stroke, and finds no stroke in any other text. *)
Definition getEachStrokes (_ : list (string * value)) (kageData : string)
  : list KanjiComposer.stroke :=
  if String.eqb kageData "1:0:0:10:10:50:50" then [[1; 0; 0; 10; 10; 50; 50]]
  else if String.eqb kageData "2:0:0:0:0:200:200" then [[2; 0; 0; 0; 0; 200; 200]]
  else [].

(** The text of a number, for the numbers the examples print: whole
    numbers below [2^63], zero and NaN.  Any other number is written [?]. *)
Definition Number_toString (n : float) : string :=
  match Prim2SF n with
  | S754_nan => "NaN"
  | S754_zero _ => "0"
  | S754_finite s m e =>
      let whole :=
        if (0 <=? e)%Z then Some (Z.shiftl (Z.pos m) e)
        else if (Z.shiftl (Z.shiftr (Z.pos m) (- e)) (- e) =? Z.pos m)%Z
             then Some (Z.shiftr (Z.pos m) (- e))
             else None in
      match whole with
      | Some z =>
          if (z <? 2 ^ 63)%Z then (if s then "-" else "") +:+ pretty z else "?"
      | None => "?"
      end
  | S754_infinity _ => "?"
  end.

End Sample.

(** An engine whose one record has a last x without a y. *)
Definition lone_x_engine (_ : list (string * JS.value)) (_ : string)
  : list KanjiComposer.stroke :=
  [[2; 0; 0; 0; 0; 200; 200; 7]%float].

(** Engine parameters for the examples of the renderer. *)
Definition sample_Kage : KanjiRenderer.Kage :=
  {| KanjiRenderer.kWidth := 5; KanjiRenderer.kMinWidthT := 6;
     KanjiRenderer.kMinWidthY := 2; KanjiRenderer.kMinWidthU := 2;
     KanjiRenderer.kMage := 10;
     KanjiRenderer.kAdjustKakatoL := Some [14; 9; 5; 2; 0];
     KanjiRenderer.kAdjustKakatoR := Some [8; 6; 4; 2];
     KanjiRenderer.kAdjustKakatoRangeX := inr 20;
     KanjiRenderer.kAdjustKakatoRangeY := Some [1; 19; 24; 30];
     KanjiRenderer.kAdjustUrokoX := Some [24; 20; 16; 12];
     KanjiRenderer.kAdjustUrokoY := Some [12; 11; 9; 8];
     KanjiRenderer.kAdjustUrokoLength := Some [22; 36; 50];
     KanjiRenderer.kAdjustUrokoLine := Some [22; 26; 30];
     KanjiRenderer.kAdjustUroko2Length := 40 |}%float.

(** An engine that makes of every glyph a triangle, a polygon without a
    vertex and a segment. *)
Definition sample_makeGlyph (_ : KanjiRenderer.Kage) (_ : list (string * JS.value))
    (_ : string) : list (list KanjiRenderer.point) :=
  [ [ {| KanjiRenderer.px := 0; KanjiRenderer.py := 0 |};
      {| KanjiRenderer.px := 200; KanjiRenderer.py := 0 |};
      {| KanjiRenderer.px := 0; KanjiRenderer.py := 200 |} ];
    [];
    [ {| KanjiRenderer.px := 10; KanjiRenderer.py := 10 |};
      {| KanjiRenderer.px := 50; KanjiRenderer.py := 50 |} ] ]%float.

(** * Properties *)

(** ** Binary64 arithmetic *)

Section FloatFacts.
Import JS.
Local Open Scope float_scope.

(** [Math.floor] on both sides of zero, on whole numbers and on the values
    it passes through. *)
Lemma floor_examples :
  floor 2.7 = 2 /\ floor (-2.5) = -3 /\ floor (-0.3) = -1 /\ floor 0.3 = 0
  /\ floor 215 = 215 /\ floor (-3) = -3 /\ floor 285.7142857142857 = 285
  /\ floor 4503599627370495.5 = 4503599627370495
  /\ floor neg_zero = neg_zero /\ floor nan = nan /\ floor infinity = infinity.
Proof. repeat split. Qed.

Lemma Prim2SF_is_finite (x : float) : is_finite x = true -> SF_finite (Prim2SF x).
Proof.
  unfold is_finite, Prim2SF.
  destruct (is_nan x); [discriminate|].
  destruct (is_infinity x); [discriminate|]. intros _.
  destruct (is_zero x); [done|].
  destruct (Z.frexp x) as [r ex].
  destruct (shr_fexp _ _ _ _ _) as [mrs e'].
  by destruct (shr_m mrs).
Qed.

Lemma SF_finite_not_nan (x : float) : SF_finite (Prim2SF x) -> (x =? x) = true.
Proof.
  unfold Prim2SF, is_nan. destruct (x =? x); [done|]. cbn. done.
Qed.

(** The product of a finite number and zero is a zero. *)
Lemma mul_zero_r (x : float) :
  SF_finite (Prim2SF x) -> exists s, Prim2SF (x * 0) = S754_zero s.
Proof.
  intros Hx. rewrite mul_spec. change (Prim2SF 0) with (S754_zero false).
  destruct (Prim2SF x); try done; cbn; eauto.
Qed.

Lemma sub_finite_r (x y : float) : SF_finite (Prim2SF (x - y)) -> SF_finite (Prim2SF y).
Proof.
  rewrite sub_spec. unfold SF64sub.
  destruct (Prim2SF y) as [| sy | |]; try done;
    destruct (Prim2SF x) as [| [] | |]; try done; destruct sy; done.
Qed.

Lemma add_zero_r (a z : float) s :
  SF_finite (Prim2SF a) -> Prim2SF z = S754_zero s ->
  (a + z =? a) = true /\ ((0 <? a) = true -> a + z = a).
Proof.
  intros Ha Hz.
  assert (Hsum : Prim2SF a = Prim2SF (a + z) \/
                 exists s1 s2, Prim2SF a = S754_zero s1 /\ Prim2SF (a + z) = S754_zero s2).
  { rewrite add_spec, Hz. unfold SF64add.
    destruct (Prim2SF a) as [sa| | |]; try done; [|by left].
    right. exists sa. destruct sa, s; cbn; eauto. }
  destruct Hsum as [Heq | (s1 & s2 & H1 & H2)].
  - apply Prim2SF_inj in Heq. rewrite <- Heq.
    split; [by apply SF_finite_not_nan|done].
  - split.
    + rewrite FloatAxioms.eqb_spec, H1, H2. done.
    + intros Hpos. rewrite ltb_spec, H1 in Hpos.
      change (Prim2SF 0) with (S754_zero false) in Hpos. done.
Qed.

(** [a + (b - a) * 0] is [a] whenever the difference is finite. *)
Lemma add_scaled_by_zero (a b : float) :
  is_finite (b - a) = true ->
  (a + (b - a) * 0 =? a) = true /\ ((0 <? a) = true -> a + (b - a) * 0 = a).
Proof.
  intros Hfin%Prim2SF_is_finite.
  destruct (mul_zero_r _ Hfin) as [s Hs].
  apply (add_zero_r _ _ s); [|done].
  by apply (sub_finite_r b).
Qed.

Lemma digits2_pos_iter_xO (m : positive) (k : nat) :
  Z.pos (digits2_pos (Nat.iter k xO m)) = (Z.pos (digits2_pos m) + Z.of_nat k)%Z.
Proof.
  induction k as [|k IH]; [cbn; lia|].
  change (Nat.iter (S k) xO m) with (xO (Nat.iter k xO m)).
  cbn [digits2_pos]. lia.
Qed.

Lemma shr_52 (m : positive) :
  SpecFloat.iter_pos shr_1 52
    {| shr_m := Z.pos (4503599627370496 * m); shr_r := false; shr_s := false |}
  = {| shr_m := Z.pos m; shr_r := false; shr_s := false |}.
Proof. reflexivity. Qed.

(** Multiplying by one rounds nothing. *)
Lemma mul_one_r (x : float) : x * 1 = x.
Proof.
  apply Prim2SF_inj. rewrite mul_spec.
  change (Prim2SF 1) with (S754_finite false 4503599627370496 (-52)).
  pose proof (Prim2SF_valid x) as Hvalid.
  destruct (Prim2SF x) as [[]|[]| |s m e]; try reflexivity.
  cbn [valid_binary] in Hvalid. unfold bounded, canonical_mantissa in Hvalid.
  apply andb_prop in Hvalid as [Hcanon%Z.eqb_eq Hmax].
  unfold SF64mul, SFmul.
  rewrite Pos.mul_comm.
  change (4503599627370496 * m)%positive with (Nat.iter 52 xO m).
  unfold binary_round_aux, shr_fexp, Zdigits2.
  rewrite digits2_pos_iter_xO.
  replace (Z.pos (digits2_pos m) + Z.of_nat 52 + (e + -52))%Z
    with (Z.pos (digits2_pos m) + e)%Z by lia.
  rewrite Hcanon.
  replace (e - (e + -52))%Z with 52%Z by lia.
  cbn [shr shr_record_of_loc].
  change (Nat.iter 52 xO m) with (4503599627370496 * m)%positive.
  rewrite shr_52.
  cbn [shr_m loc_of_shr_record round_nearest_even Zdigits2].
  replace (e + -52 + 52)%Z with e by lia.
  rewrite Hcanon, Z.sub_diag. cbn [shr shr_m shr_record_of_loc].
  rewrite Hmax. by destruct s.
Qed.

End FloatFacts.

(** ** Rounding in binary64 *)

Section Rounding.
Import Binary64.
Local Open Scope Z_scope.

Ltac hide_pow :=
  repeat match goal with
         | |- context [Z.pow ?a ?b] =>
             let p := fresh "p" in set (p := Z.pow a b) in *; clearbody p
         | H : context [Z.pow ?a ?b] |- _ =>
             let p := fresh "p" in set (p := Z.pow a b) in *; clearbody p
         end.

Lemma fexp_eq (e : Z) : fexp 53 1024 e = Z.max (e - 53) (-1074).
Proof. reflexivity. Qed.

Lemma digits2_pos_bounds (m : positive) :
  2 ^ (Z.pos (digits2_pos m) - 1) <= Z.pos m < 2 ^ Z.pos (digits2_pos m).
Proof.
  induction m as [m IH|m IH|]; cbn [digits2_pos]; [| |by cbn].
  - rewrite Pos2Z.inj_succ, (Pos2Z.inj_xI m).
    replace (Z.succ (Z.pos (digits2_pos m)) - 1) with (Z.succ (Z.pos (digits2_pos m) - 1)) by lia.
    rewrite !Z.pow_succ_r by lia. hide_pow. lia.
  - rewrite Pos2Z.inj_succ, (Pos2Z.inj_xO m).
    replace (Z.succ (Z.pos (digits2_pos m)) - 1) with (Z.succ (Z.pos (digits2_pos m) - 1)) by lia.
    rewrite !Z.pow_succ_r by lia. hide_pow. lia.
Qed.

(** The number of digits is decided by the two powers it lies between. *)
Lemma digits2_pos_unique (m : positive) (d : Z) :
  2 ^ (d - 1) <= Z.pos m < 2 ^ d -> Z.pos (digits2_pos m) = d.
Proof.
  intros [Hlo Hhi]. pose proof (digits2_pos_bounds m) as [Hlo' Hhi'].
  assert (0 < d).
  { destruct (Z.lt_ge_cases 0 d) as [|Hd]; [done|].
    rewrite (Z.pow_neg_r 2 (d - 1)) in Hlo by lia.
    destruct (Z.eq_dec d 0) as [->|]; [cbn in Hhi; lia|].
    rewrite Z.pow_neg_r in Hhi by lia. lia. }
  destruct (Z.lt_trichotomy (Z.pos (digits2_pos m)) d) as [Hlt|[Heq|Hgt]]; [|done|].
  - assert (2 ^ Z.pos (digits2_pos m) <= 2 ^ (d - 1)) by (apply Z.pow_le_mono_r; lia). lia.
  - assert (2 ^ d <= 2 ^ (Z.pos (digits2_pos m) - 1)) by (apply Z.pow_le_mono_r; lia). lia.
Qed.

Lemma pos_iter_xO (m d : positive) :
  Z.pos (Pos.iter xO m d) = Z.pos m * 2 ^ Z.pos d.
Proof.
  revert m. induction d as [|d IH] using Pos.peano_ind; intros m.
  - cbn. lia.
  - rewrite Pos.iter_succ, Pos2Z.inj_succ, Z.pow_succ_r by lia.
    rewrite Pos2Z.inj_xO, IH. ring.
Qed.

Lemma digits2_pos_shift (m m' : positive) (k : Z) :
  0 <= k -> Z.pos m' = Z.pos m * 2 ^ k ->
  Z.pos (digits2_pos m') = Z.pos (digits2_pos m) + k.
Proof.
  intros Hk Hm'. apply digits2_pos_unique. rewrite Hm'.
  pose proof (digits2_pos_bounds m) as [Hlo Hhi].
  replace (Z.pos (digits2_pos m) + k - 1) with (Z.pos (digits2_pos m) - 1 + k) by lia.
  rewrite !Z.pow_add_r by lia.
  assert (0 < 2 ^ k) by (apply Z.pow_pos_nonneg; lia).
  split; [apply Z.mul_le_mono_nonneg_r; lia|apply Z.mul_lt_mono_pos_r; lia].
Qed.

Lemma shl_align_le (m : positive) (e e' : Z) :
  e' <= e ->
  exists m', shl_align m e e' = (m', e') /\ Z.pos m' = Z.pos m * 2 ^ (e - e').
Proof.
  intros He. unfold shl_align.
  destruct (e' - e) as [|d|d] eqn:Hd; [| lia |].
  - assert (e' = e) as -> by lia. exists m. rewrite Z.sub_diag. split; [done|]. cbn. lia.
  - eexists. split; [done|]. rewrite pos_iter_xO. f_equal. f_equal. lia.
Qed.

Lemma shl_align_ge (m : positive) (e e' : Z) :
  e <= e' -> shl_align m e e' = (m, e).
Proof.
  intros He. unfold shl_align. destruct (e' - e) as [|d|d] eqn:Hd; [done|done|lia].
Qed.

(** *** Shifting right *)

Lemma shr_1_m (mrs : shr_record) :
  0 <= shr_m mrs -> shr_m (shr_1 mrs) = shr_m mrs / 2.
Proof.
  destruct mrs as [m r s]. cbn [shr_m]. intros Hm.
  destruct m as [|[p|p|]|p]; cbn [shr_1 shr_m]; [done| | |done|lia].
  - apply (Z.div_unique _ 2 _ 1); lia.
  - apply (Z.div_unique _ 2 _ 0); lia.
Qed.

Lemma pow2_xO (n : positive) : 2 ^ Z.pos n~0 = 2 ^ Z.pos n * 2 ^ Z.pos n.
Proof.
  replace (Z.pos n~0) with (Z.pos n + Z.pos n) by lia. by rewrite Z.pow_add_r by lia.
Qed.

Lemma pow2_xI (n : positive) : 2 ^ Z.pos n~1 = 2 * (2 ^ Z.pos n * 2 ^ Z.pos n).
Proof.
  replace (Z.pos n~1) with (1 + (Z.pos n + Z.pos n)) by lia.
  by rewrite !Z.pow_add_r by lia.
Qed.

Lemma shr_iter_m (n : positive) (mrs : shr_record) :
  0 <= shr_m mrs ->
  shr_m (SpecFloat.iter_pos shr_1 n mrs) = shr_m mrs / 2 ^ Z.pos n.
Proof.
  revert mrs. induction n as [n IH|n IH|]; intros mrs Hm; cbn [SpecFloat.iter_pos].
  - assert (0 <= shr_m (shr_1 mrs)) by (rewrite shr_1_m by done; apply Z.div_pos; lia).
    assert (0 < 2 ^ Z.pos n) by (apply Z.pow_pos_nonneg; lia).
    rewrite IH, IH, shr_1_m; [|done|done|].
    + rewrite !Z.div_div by lia. by rewrite pow2_xI.
    + rewrite IH by done. apply Z.div_pos; lia.
  - assert (0 < 2 ^ Z.pos n) by (apply Z.pow_pos_nonneg; lia).
    rewrite IH, IH; [|done|].
    + rewrite !Z.div_div by lia. by rewrite pow2_xO.
    + rewrite IH by done. apply Z.div_pos; lia.
  - rewrite shr_1_m by done. done.
Qed.

Lemma shr_1_exact (q : Z) :
  0 <= q ->
  shr_1 {| shr_m := 2 * q; shr_r := false; shr_s := false |}
  = {| shr_m := q; shr_r := false; shr_s := false |}.
Proof. intros Hq. destruct q as [|p|p]; [done|done|lia]. Qed.

Lemma shr_iter_exact (n : positive) (q : Z) :
  0 <= q ->
  SpecFloat.iter_pos shr_1 n {| shr_m := q * 2 ^ Z.pos n; shr_r := false; shr_s := false |}
  = {| shr_m := q; shr_r := false; shr_s := false |}.
Proof.
  revert q. induction n as [n IH|n IH|]; intros q Hq; cbn [SpecFloat.iter_pos].
  - assert (0 < 2 ^ Z.pos n) by (apply Z.pow_pos_nonneg; lia).
    rewrite pow2_xI.
    replace (q * (2 * (2 ^ Z.pos n * 2 ^ Z.pos n)))
      with (2 * (q * 2 ^ Z.pos n * 2 ^ Z.pos n)) by ring.
    rewrite shr_1_exact by nia. rewrite IH by nia. by rewrite IH.
  - assert (0 < 2 ^ Z.pos n) by (apply Z.pow_pos_nonneg; lia).
    rewrite pow2_xO, Z.mul_assoc.
    rewrite IH by nia. by rewrite IH.
  - rewrite Z.pow_1_r, Z.mul_comm. by apply shr_1_exact.
Qed.

(** *** Rounding a mantissa at an exponent *)

Lemma round_nearest_even_cases (q : Z) (l : location) :
  (round_nearest_even q l = q \/ round_nearest_even q l = q + 1)
  /\ (l = loc_Exact -> round_nearest_even q l = q).
Proof.
  split; [|by intros ->].
  destruct l as [|[]]; cbn; [by left|destruct (Z.even q); by auto|by left|by right].
Qed.

Lemma digits_le_53 (m : positive) :
  Z.pos (digits2_pos m) <= 53 <-> Z.pos m < 2 ^ 53.
Proof.
  pose proof (digits2_pos_bounds m) as [Hlo Hhi]. split; intros H.
  - assert (2 ^ Z.pos (digits2_pos m) <= 2 ^ 53) by (apply Z.pow_le_mono_r; lia). lia.
  - destruct (Z.le_gt_cases (Z.pos (digits2_pos m)) 53) as [|Hgt]; [done|].
    assert (2 ^ 53 <= 2 ^ (Z.pos (digits2_pos m) - 1)) by (apply Z.pow_le_mono_r; lia). lia.
Qed.

(** A mantissa below [2^53] at an exponent that is not below the least
    one is left as it is by the second shift of a rounding. *)
Lemma shr_fexp_small (r : positive) (e : Z) :
  Z.pos r < 2 ^ 53 -> -1074 <= e ->
  shr_fexp 53 1024 (Z.pos r) e loc_Exact
  = ({| shr_m := Z.pos r; shr_r := false; shr_s := false |}, e).
Proof.
  intros Hr He. apply digits_le_53 in Hr.
  unfold shr_fexp. cbn [Zdigits2 shr_record_of_loc]. rewrite fexp_eq.
  unfold shr. destruct (Z.max _ _ - e) eqn:Hn; [done|lia|done].
Qed.

Lemma pack_spec (sx : bool) (R e : Z) :
  0 <= R <= 2 ^ 53 -> -1074 <= e ->
  (let '(mrs, e'') := shr_fexp 53 1024 R e loc_Exact in
   match shr_m mrs with
   | Z0 => S754_zero sx
   | Z.pos m => if e'' <=? 1024 - 53 then S754_finite sx m e'' else S754_infinity sx
   | Z.neg _ => S754_nan
   end) = pack sx R e.
Proof.
  intros [HR0 HR] He. destruct R as [|r|r]; [|  |lia].
  - unfold shr_fexp. cbn [Zdigits2 shr_record_of_loc]. rewrite fexp_eq.
    unfold shr. destruct (Z.max _ _ - e) eqn:Hn; [done|lia|done].
  - unfold pack. destruct (Z.pos r <? 2 ^ 53) eqn:Hlt.
    + apply Z.ltb_lt in Hlt. by rewrite shr_fexp_small.
    + apply Z.ltb_ge in Hlt. assert (r = 9007199254740992%positive) as -> by lia.
      unfold shr_fexp. cbn [Zdigits2 shr_record_of_loc]. rewrite fexp_eq.
      change (Z.pos (digits2_pos 9007199254740992)) with 54.
      replace (Z.max (54 + e - 53) (-1074) - e) with 1 by lia.
      done.
Qed.

Lemma round_aux_spec (sx : bool) (m : positive) (e : Z) :
  let e' := Z.max e (fexp 53 1024 (Z.pos (digits2_pos m) + e)) in
  let q := Z.pos m / 2 ^ (e' - e) in
  exists R,
    (R = q \/ R = q + 1)
    /\ (Z.pos m mod 2 ^ (e' - e) = 0 -> R = q)
    /\ 0 <= R <= 2 ^ 53
    /\ binary_round_aux 53 1024 sx (Z.pos m) e loc_Exact = pack sx R e'.
Proof.
  intros e' q. pose proof (digits2_pos_bounds m) as [Hlo Hhi].
  unfold binary_round_aux. unfold shr_fexp at 1.
  cbn [Zdigits2 shr_record_of_loc].
  assert (He' : -1074 <= e') by (unfold e'; rewrite fexp_eq; lia).
  destruct (fexp 53 1024 (Z.pos (digits2_pos m) + e) - e) as [|n|n] eqn:Hn.
  - (* no shift *)
    assert (e' = e) as Hee by (unfold e'; lia).
    assert (q = Z.pos m) as Hq by (unfold q; rewrite Hee, Z.sub_diag; apply Z.div_1_r).
    assert (Z.pos m < 2 ^ 53).
    { apply digits_le_53. rewrite fexp_eq in Hn. lia. }
    exists (Z.pos m). rewrite Hq, Hee. split; [by left|]. split; [done|]. split; [lia|].
    cbn [shr shr_m loc_of_shr_record round_nearest_even].
    rewrite <- Hee. rewrite <- (pack_spec sx (Z.pos m) e') by lia. done.
  - (* a shift by [n] *)
    assert (e' = e + Z.pos n) as Hee by (unfold e'; lia).
    assert (Hq : q = Z.pos m / 2 ^ Z.pos n) by (unfold q; f_equal; f_equal; lia).
    cbn [shr].
    set (mrs := SpecFloat.iter_pos shr_1 n _).
    assert (Hmrs : shr_m mrs = q) by (rewrite Hq; by apply shr_iter_m).
    assert (0 < 2 ^ Z.pos n) by (apply Z.pow_pos_nonneg; lia).
    assert (Hq0 : 0 <= q) by (rewrite Hq; apply Z.div_pos; lia).
    assert (Hq53 : q < 2 ^ 53).
    { rewrite Hq. apply Z.div_lt_upper_bound; [lia|].
      rewrite <- Z.pow_add_r by lia.
      assert (2 ^ Z.pos (digits2_pos m) <= 2 ^ (Z.pos n + 53)); [|lia].
      apply Z.pow_le_mono_r; [lia|]. rewrite fexp_eq in Hn. lia. }
    destruct (round_nearest_even_cases (shr_m mrs) (loc_of_shr_record mrs)) as [HR Hexact].
    exists (round_nearest_even (shr_m mrs) (loc_of_shr_record mrs)).
    rewrite Hmrs in HR, Hexact. split; [by rewrite Hmrs|]. split; [|split].
    + replace (e' - e) with (Z.pos n) by lia. intros Hmod. rewrite Hmrs. apply Hexact.
      unfold mrs. rewrite (Z.div_mod (Z.pos m) (2 ^ Z.pos n)) at 1 by lia.
      rewrite Hmod, Z.add_0_r, Z.mul_comm, <- Hq.
      by rewrite shr_iter_exact.
    + rewrite Hmrs. lia.
    + replace (e + Z.pos n) with e' by lia.
      rewrite <- pack_spec; [done| |done]. rewrite Hmrs. lia.
  - (* no shift *)
    assert (e' = e) as Hee by (unfold e'; lia).
    assert (q = Z.pos m) as Hq by (unfold q; rewrite Hee, Z.sub_diag; apply Z.div_1_r).
    assert (Z.pos m < 2 ^ 53).
    { apply digits_le_53. rewrite fexp_eq in Hn. lia. }
    exists (Z.pos m). rewrite Hq, Hee. split; [by left|]. split; [done|]. split; [lia|].
    cbn [shr shr_m loc_of_shr_record round_nearest_even].
    rewrite <- Hee. rewrite <- (pack_spec sx (Z.pos m) e') by lia. done.
Qed.

(** *** Rounding against a number that can be represented *)

Lemma canonical_iff (m : positive) (e : Z) :
  canonical_mantissa 53 1024 m e = true
  <-> Z.max (Z.pos (digits2_pos m) + e - 53) (-1074) = e.
Proof. unfold canonical_mantissa. rewrite fexp_eq. apply Z.eqb_eq. Qed.

Lemma pow2_pos (k : Z) : 0 <= k -> 0 < 2 ^ k.
Proof. intros. apply Z.pow_pos_nonneg; lia. Qed.

Lemma pow2_split (a b : Z) : 0 <= a -> 0 <= b -> 2 ^ (a + b) = 2 ^ a * 2 ^ b.
Proof. intros. by apply Z.pow_add_r. Qed.

Lemma pack_units (sx : bool) (R e : Z) :
  0 < R <= 2 ^ 53 -> -1074 <= e ->
  match pack sx R e with
  | S754_finite s mp ep => s = sx /\ units mp ep = R * 2 ^ (e + 2148)
  | S754_infinity s => s = sx
  | _ => False
  end.
Proof.
  intros [HR0 HR] He. destruct R as [|r|r]; [lia| |lia]. unfold pack.
  destruct (Z.pos r <? 2 ^ 53) eqn:Hlt.
  - by destruct (e <=? 971).
  - apply Z.ltb_ge in Hlt. assert (r = 9007199254740992%positive) as -> by lia.
    destruct (e + 1 <=? 971); [|done]. split; [done|]. unfold units.
    replace (e + 1 + 2148) with (1 + (e + 2148)) by lia.
    rewrite pow2_split by lia. lia.
Qed.

Section Against.

Variables (m mb : positive) (e eb : Z).

Let e' := Z.max e (fexp 53 1024 (Z.pos (digits2_pos m) + e)).
Let q := Z.pos m / 2 ^ (e' - e).

Hypothesis Hcanon : canonical_mantissa 53 1024 mb eb = true.
Hypothesis He : -2148 <= e.

Lemma round_ge_R :
  units mb eb <= Z.pos m * 2 ^ (e + 2148) -> units mb eb <= q * 2 ^ (e' + 2148).
Proof using Hcanon He.
  intros Hle. apply canonical_iff in Hcanon.
  pose proof (digits2_pos_bounds m) as [Hlo Hhi].
  pose proof (digits2_pos_bounds mb) as [Hlob Hhib].
  assert (Hee : e <= e') by (unfold e'; lia).
  assert (Hn : 0 < 2 ^ (e' - e)) by (apply pow2_pos; lia).
  assert (Hs : 0 < 2 ^ (e + 2148)) by (apply pow2_pos; lia).
  assert (Hsplit : 2 ^ (e' + 2148) = 2 ^ (e' - e) * 2 ^ (e + 2148)).
  { rewrite <- pow2_split by lia. f_equal. lia. }
  unfold units in *.
  destruct (Z.le_gt_cases e' eb) as [Hgrid|Hbelow].
  - (* the bound is on the grid of the result *)
    assert (Hb : 2 ^ (eb + 2148) = 2 ^ (eb - e') * 2 ^ (e' + 2148)).
    { rewrite <- pow2_split by lia. f_equal. lia. }
    rewrite Hb, Z.mul_assoc. apply Z.mul_le_mono_nonneg_r; [rewrite Hsplit; nia|].
    unfold q. apply Z.div_le_lower_bound; [done|].
    rewrite Hb, Hsplit in Hle.
    assert (0 < 2 ^ (eb - e')) by (apply pow2_pos; lia).
    apply (Z.mul_le_mono_pos_r _ _ (2 ^ (e + 2148))); [done|]. lia.
  - destruct (Z.eq_dec e' e) as [Heq|Hne].
    + (* nothing is shifted out *)
      unfold q. rewrite Heq, Z.sub_diag, Z.div_1_r. done.
    + (* the result has more digits than the bound *)
      assert (Hexp : e' = Z.pos (digits2_pos m) + e - 53).
      { unfold e' in *. rewrite fexp_eq in *. lia. }
      assert (Hq : 2 ^ 52 <= q).
      { unfold q. apply Z.div_le_lower_bound; [done|].
        rewrite <- pow2_split by lia.
        replace (e' - e + 52) with (Z.pos (digits2_pos m) - 1) by lia. done. }
      assert (Hmb : Z.pos mb < 2 ^ 53).
      { apply digits_le_53. lia. }
      assert (Hb : 2 ^ (e' + 2148) = 2 * (2 ^ (e' - 1 - eb) * 2 ^ (eb + 2148))).
      { rewrite <- pow2_split by lia.
        replace (e' + 2148) with (1 + (e' - 1 - eb + (eb + 2148))) by lia.
        by rewrite (pow2_split 1) by lia. }
      rewrite Hb.
      assert (0 < 2 ^ (e' - 1 - eb)) by (apply pow2_pos; lia).
      assert (0 < 2 ^ (eb + 2148)) by (apply pow2_pos; lia).
      change (2 ^ 52) with 4503599627370496 in Hq.
      change (2 ^ 53) with 9007199254740992 in Hmb.
      hide_pow. nia.
Qed.

Lemma round_le_R (R : Z) :
  Z.pos m * 2 ^ (e + 2148) <= units mb eb ->
  (R = q \/ R = q + 1) -> (Z.pos m mod 2 ^ (e' - e) = 0 -> R = q) ->
  R * 2 ^ (e' + 2148) <= units mb eb.
Proof using Hcanon He.
  intros Hle HR Hexact. apply canonical_iff in Hcanon.
  pose proof (digits2_pos_bounds m) as [Hlo Hhi].
  pose proof (digits2_pos_bounds mb) as [Hlob Hhib].
  assert (Hee : e <= e') by (unfold e'; lia).
  assert (Hn : 0 < 2 ^ (e' - e)) by (apply pow2_pos; lia).
  assert (Hs : 0 < 2 ^ (e + 2148)) by (apply pow2_pos; lia).
  assert (Hsplit : 2 ^ (e' + 2148) = 2 ^ (e' - e) * 2 ^ (e + 2148)).
  { rewrite <- pow2_split by lia. f_equal. lia. }
  unfold units in *.
  destruct (Z.le_gt_cases e' eb) as [Hgrid|Hbelow].
  - assert (Hb : 2 ^ (eb + 2148) = 2 ^ (eb - e') * 2 ^ (e' + 2148)).
    { rewrite <- pow2_split by lia. f_equal. lia. }
    rewrite Hb, Z.mul_assoc. apply Z.mul_le_mono_nonneg_r; [rewrite Hsplit; nia|].
    assert (0 < 2 ^ (eb - e')) by (apply pow2_pos; lia).
    rewrite Hb, Hsplit in Hle.
    assert (Hm : Z.pos m <= Z.pos mb * 2 ^ (eb - e') * 2 ^ (e' - e)).
    { apply (Z.mul_le_mono_pos_r _ _ (2 ^ (e + 2148))); [done|]. lia. }
    pose proof (Z.div_mod (Z.pos m) (2 ^ (e' - e)) ltac:(lia)) as Hdm.
    pose proof (Z.mod_pos_bound (Z.pos m) (2 ^ (e' - e)) Hn) as Hmod.
    fold q in Hdm.
    destruct (Z.eq_dec (Z.pos m mod 2 ^ (e' - e)) 0) as [H0|Hn0].
    + rewrite (Hexact H0). rewrite H0 in Hdm. nia.
    + assert (q < Z.pos mb * 2 ^ (eb - e')) by nia. lia.
  - destruct (Z.eq_dec e' e) as [Heq|Hne].
    + assert (Hq : q = Z.pos m) by (unfold q; by rewrite Heq, Z.sub_diag, Z.div_1_r).
      rewrite Hexact; [by rewrite Hq, Heq|]. rewrite Heq, Z.sub_diag. apply Z.mod_1_r.
    + exfalso.
      assert (Hexp : e' = Z.pos (digits2_pos m) + e - 53).
      { unfold e' in *. rewrite fexp_eq in *. lia. }
      assert (Hmb : Z.pos mb < 2 ^ 53) by (apply digits_le_53; lia).
      assert (Hm : 2 ^ 52 * 2 ^ (e' - e) <= Z.pos m).
      { rewrite <- pow2_split by lia.
        replace (52 + (e' - e)) with (Z.pos (digits2_pos m) - 1) by lia. done. }
      assert (Hb : 2 ^ (e' + 2148) = 2 * (2 ^ (e' - 1 - eb) * 2 ^ (eb + 2148))).
      { rewrite <- pow2_split by lia.
        replace (e' + 2148) with (1 + (e' - 1 - eb + (eb + 2148))) by lia.
        by rewrite (pow2_split 1) by lia. }
      assert (0 < 2 ^ (e' - 1 - eb)) by (apply pow2_pos; lia).
      assert (0 < 2 ^ (eb + 2148)) by (apply pow2_pos; lia).
      assert (Hv : 2 ^ 52 * 2 ^ (e' + 2148) <= Z.pos m * 2 ^ (e + 2148)).
      { rewrite Hsplit. nia. }
      rewrite Hb in Hv.
      change (2 ^ 52) with 4503599627370496 in *.
      change (2 ^ 53) with 9007199254740992 in *.
      hide_pow. nia.
Qed.

End Against.

(** *** Numbers that can be represented *)

Lemma bounded_iff (m : positive) (e : Z) :
  bounded 53 1024 m e = true
  <-> canonical_mantissa 53 1024 m e = true /\ e <= 971.
Proof.
  unfold bounded. rewrite andb_true_iff. change (1024 - 53) with 971.
  by rewrite Z.leb_le.
Qed.

(** Of two canonical numbers the larger one has the larger exponent. *)
Lemma canonical_exponent_mono (m1 m2 : positive) (e1 e2 : Z) :
  canonical_mantissa 53 1024 m1 e1 = true ->
  canonical_mantissa 53 1024 m2 e2 = true ->
  units m1 e1 <= units m2 e2 -> e1 <= e2.
Proof.
  intros H1%canonical_iff H2%canonical_iff Hle.
  destruct (Z.le_gt_cases e1 e2) as [|Hgt]; [done|exfalso].
  pose proof (digits2_pos_bounds m1) as [Hlo1 Hhi1].
  pose proof (digits2_pos_bounds m2) as [Hlo2 Hhi2].
  assert (Hd1 : Z.pos (digits2_pos m1) = 53) by lia.
  assert (Hd2 : Z.pos (digits2_pos m2) <= 53) by lia.
  assert (Hm2 : Z.pos m2 < 2 ^ 53) by (by apply digits_le_53).
  assert (Hm1 : 2 ^ 52 <= Z.pos m1) by (by rewrite Hd1 in Hlo1).
  unfold units in Hle.
  assert (Hb : 2 ^ (e1 + 2148) = 2 * (2 ^ (e1 - 1 - e2) * 2 ^ (e2 + 2148))).
  { rewrite <- pow2_split by lia.
    replace (e1 + 2148) with (1 + (e1 - 1 - e2 + (e2 + 2148))) by lia.
    by rewrite (pow2_split 1) by lia. }
  rewrite Hb in Hle.
  assert (0 < 2 ^ (e1 - 1 - e2)) by (apply pow2_pos; lia).
  assert (0 < 2 ^ (e2 + 2148)) by (apply pow2_pos; lia).
  change (2 ^ 52) with 4503599627370496 in *.
  change (2 ^ 53) with 9007199254740992 in *.
  clear Hlo1 Hhi1 Hlo2 Hhi2 Hb H1 H2.
  set (x := 2 ^ (e1 - 1 - e2)) in *. set (y := 2 ^ (e2 + 2148)) in *.
  clearbody x y.
  assert (9007199254740992 <= Z.pos m1 * (2 * x)) by nia.
  assert (9007199254740992 * y <= Z.pos m1 * (2 * x) * y) by (apply Z.mul_le_mono_nonneg_r; lia).
  assert (Z.pos m2 * y < 9007199254740992 * y) by (apply Z.mul_lt_mono_pos_r; lia).
  lia.
Qed.

(** A canonical number is decided by its value. *)
Lemma canonical_unique (m1 m2 : positive) (e1 e2 : Z) :
  canonical_mantissa 53 1024 m1 e1 = true ->
  canonical_mantissa 53 1024 m2 e2 = true ->
  units m1 e1 = units m2 e2 -> m1 = m2 /\ e1 = e2.
Proof.
  intros H1 H2 Heq.
  assert (e1 = e2) as ->.
  { apply Z.le_antisymm; eapply canonical_exponent_mono; try done; lia. }
  split; [|done]. unfold units in Heq.
  assert (0 < 2 ^ (e2 + 2148)).
  { apply pow2_pos. apply canonical_iff in H2. lia. }
  apply Z.mul_cancel_r in Heq; [|lia]. by injection Heq.
Qed.

Lemma round_aux_canonical (sx : bool) (m : positive) (e : Z) :
  bounded 53 1024 m e = true ->
  binary_round_aux 53 1024 sx (Z.pos m) e loc_Exact = S754_finite sx m e.
Proof.
  intros [Hcanon He]%bounded_iff.
  destruct (round_aux_spec sx m e) as (R & _ & Hexact & _ & ->).
  apply canonical_iff in Hcanon.
  assert (Hee : Z.max e (fexp 53 1024 (Z.pos (digits2_pos m) + e)) = e).
  { rewrite fexp_eq. lia. }
  rewrite Hee, Z.sub_diag, Z.div_1_r in *.
  rewrite Hexact by apply Z.mod_1_r.
  unfold pack.
  assert (Z.pos m < 2 ^ 53) as ->%Z.ltb_lt by (apply digits_le_53; lia).
  by apply Z.leb_le in He as ->.
Qed.

(** The mantissa [m] at the exponent [e] is rounded to the canonical number
    of the same value, if there is one. *)
Lemma binary_round_exact (sx : bool) (m mp : positive) (e ep : Z) :
  bounded 53 1024 mp ep = true -> -2148 <= e ->
  Z.pos m * 2 ^ (e + 2148) = units mp ep ->
  binary_round 53 1024 sx m e = S754_finite sx mp ep.
Proof.
  intros Hb He Heq. pose proof Hb as [Hcanon Hep]%bounded_iff.
  apply canonical_iff in Hcanon. unfold units in Heq.
  unfold binary_round.
  destruct (Z.le_gt_cases ep e) as [Hle|Hgt].
  - (* the mantissa is shifted to the left *)
    assert (Hmp : Z.pos mp = Z.pos m * 2 ^ (e - ep)).
    { replace (e + 2148) with (e - ep + (ep + 2148)) in Heq by lia.
      rewrite (pow2_split (e - ep) (ep + 2148)), Z.mul_assoc in Heq by lia.
      apply Z.mul_cancel_r in Heq; [done|].
      assert (0 < 2 ^ (ep + 2148)) by (apply pow2_pos; lia). lia. }
    pose proof (digits2_pos_shift m mp (e - ep) ltac:(lia) Hmp) as Hd.
    assert (Hf : fexp 53 1024 (Z.pos (digits2_pos m) + e) = ep).
    { rewrite fexp_eq. lia. }
    rewrite Hf.
    destruct (shl_align_le m e ep Hle) as (m' & -> & Hm').
    assert (m' = mp) as -> by lia.
    by apply round_aux_canonical.
  - (* the mantissa is shifted to the right, and nothing is lost *)
    assert (Hm : Z.pos m = Z.pos mp * 2 ^ (ep - e)).
    { replace (ep + 2148) with (ep - e + (e + 2148)) in Heq by lia.
      rewrite (pow2_split (ep - e) (e + 2148)), Z.mul_assoc in Heq by lia.
      apply Z.mul_cancel_r in Heq; [done|].
      assert (0 < 2 ^ (e + 2148)) by (apply pow2_pos; lia). lia. }
    pose proof (digits2_pos_shift mp m (ep - e) ltac:(lia) Hm) as Hd.
    assert (Hf : fexp 53 1024 (Z.pos (digits2_pos m) + e) = ep).
    { rewrite fexp_eq. lia. }
    rewrite Hf, shl_align_ge by lia.
    destruct (round_aux_spec sx m e) as (R & _ & Hexact & _ & ->).
    rewrite Hf in *. replace (Z.max e ep) with ep in * by lia.
    assert (0 < 2 ^ (ep - e)) by (apply pow2_pos; lia).
    rewrite Hexact by (rewrite Hm; apply Z.mod_mul; lia).
    rewrite Hm, Z.div_mul by lia.
    unfold pack.
    assert (Z.pos mp < 2 ^ 53) as ->%Z.ltb_lt by (apply digits_le_53; lia).
    by apply Z.leb_le in Hep as ->.
Qed.

(** A mantissa of at most 53 digits at an exponent of the format has a
    canonical number of its value. *)
Lemma representable (d : positive) (e : Z) :
  Z.pos d < 2 ^ 53 -> -1074 <= e <= 971 ->
  exists md ed,
    bounded 53 1024 md ed = true /\ ed <= e
    /\ units md ed = Z.pos d * 2 ^ (e + 2148).
Proof.
  intros Hd%digits_le_53 He.
  set (ed := Z.max (Z.pos (digits2_pos d) + e - 53) (-1074)).
  destruct (shl_align_le d e ed ltac:(lia)) as (md & _ & Hmd).
  exists md, ed. split; [|split; [lia|]].
  - apply bounded_iff. split; [|lia]. apply canonical_iff.
    rewrite (digits2_pos_shift d md (e - ed)) by (lia || done). lia.
  - unfold units. rewrite Hmd, <- Z.mul_assoc, <- pow2_split by lia.
    f_equal. f_equal. lia.
Qed.

(** *** A difference that does not round *)

(** If [p] lies between [a] and its double, then [p - a] is computed
    without rounding, and so [a + (p - a)] gives back [p]. *)
Lemma add_sub_SF (ma mp : positive) (ea ep : Z) :
  bounded 53 1024 ma ea = true -> bounded 53 1024 mp ep = true ->
  units ma ea <= units mp ep <= 2 * units ma ea ->
  SFadd 53 1024 (S754_finite false ma ea)
    (SFsub 53 1024 (S754_finite false mp ep) (S754_finite false ma ea))
  = S754_finite false mp ep.
Proof.
  intros Ha Hp [Hlo Hhi].
  pose proof Ha as [Hca Hea]%bounded_iff. pose proof Hp as [Hcp Hep]%bounded_iff.
  pose proof (canonical_exponent_mono _ _ _ _ Hca Hcp Hlo) as Hexp.
  assert (Hea0 : -1074 <= ea) by (apply canonical_iff in Hca; lia).
  assert (Hma : Z.pos ma < 2 ^ 53) by (apply digits_le_53; apply canonical_iff in Hca; lia).
  unfold SFsub. rewrite Z.min_r by done.
  destruct (shl_align_le mp ep ea Hexp) as (mp' & -> & Hmp').
  rewrite shl_align_ge by lia. cbn [fst cond_Zopp].
  assert (Hs : 0 < 2 ^ (ea + 2148)) by (apply pow2_pos; lia).
  assert (Hup : units mp ep = Z.pos mp' * 2 ^ (ea + 2148)).
  { unfold units. rewrite Hmp', <- Z.mul_assoc, <- pow2_split by lia.
    f_equal. f_equal. lia. }
  unfold units in Hlo, Hhi, Hup. rewrite Hup in Hlo, Hhi.
  destruct (Z.pos mp' - Z.pos ma) as [|d|d] eqn:Hd.
  - (* the two are equal *)
    cbn [binary_normalize SFadd].
    assert (mp' = ma) as -> by lia.
    destruct (canonical_unique ma mp ea ep Hca Hcp) as [-> ->]; [|done].
    unfold units. by rewrite Hup.
  - cbn [binary_normalize].
    assert (Hdma : Z.pos d <= Z.pos ma) by nia.
    destruct (representable d ea ltac:(lia) ltac:(lia)) as (md & ed & Hbd & Hed & Hud).
    rewrite (binary_round_exact false d md ea ed Hbd ltac:(lia) (eq_sym Hud)).
    pose proof Hbd as [Hcd _]%bounded_iff.
    assert (Hed0 : -1074 <= ed) by (apply canonical_iff in Hcd; lia).
    unfold SFadd. rewrite Z.min_r by done.
    destruct (shl_align_le ma ea ed Hed) as (ma' & -> & Hma').
    rewrite shl_align_ge by lia. cbn [fst cond_Zopp].
    change (Z.pos ma' + Z.pos md) with (Z.pos (ma' + md)).
    cbn [binary_normalize].
    apply binary_round_exact; [done|lia|].
    rewrite Pos2Z.inj_add, Z.mul_add_distr_r.
    fold (units md ed). rewrite Hud.
    unfold units. rewrite Hup, Hma', <- Z.mul_assoc, <- pow2_split by lia.
    replace (ea - ed + (ed + 2148)) with (ea + 2148) by lia. lia.
  - exfalso. nia.
Qed.

(** *** A product by a factor between one and two *)

Lemma SFleb_units (m1 m2 : positive) (e1 e2 : Z) :
  canonical_mantissa 53 1024 m1 e1 = true ->
  canonical_mantissa 53 1024 m2 e2 = true ->
  SFleb (S754_finite false m1 e1) (S754_finite false m2 e2) = true ->
  units m1 e1 <= units m2 e2.
Proof.
  intros H1%canonical_iff H2%canonical_iff. unfold SFleb, SFcompare, units.
  destruct (e1 ?= e2) eqn:Hcmp.
  - apply Z.compare_eq in Hcmp as ->.
    change (Pos.compare_cont Eq m1 m2) with (m1 ?= m2)%positive.
    destruct (m1 ?= m2)%positive eqn:Hm; [| |done]; intros _.
    + apply Pos.compare_eq in Hm as ->. done.
    + rewrite Pos.compare_lt_iff in Hm.
      assert (Z.pos m1 <= Z.pos m2) by lia.
      apply Z.mul_le_mono_nonneg_r; [apply Z.pow_nonneg; lia|done].
  - intros _. rewrite Z.compare_lt_iff in Hcmp.
    pose proof (digits2_pos_bounds m1) as [Hlo1 Hhi1].
    pose proof (digits2_pos_bounds m2) as [Hlo2 Hhi2].
    assert (Hd2 : Z.pos (digits2_pos m2) = 53) by lia.
    assert (Hm2 : 2 ^ 52 <= Z.pos m2) by (by rewrite Hd2 in Hlo2).
    assert (Hm1 : Z.pos m1 < 2 ^ 53) by (apply digits_le_53; lia).
    assert (Hb : 2 ^ (e2 + 2148) = 2 * (2 ^ (e2 - 1 - e1) * 2 ^ (e1 + 2148))).
    { rewrite <- pow2_split by lia.
      replace (e2 + 2148) with (1 + (e2 - 1 - e1 + (e1 + 2148))) by lia.
      by rewrite (pow2_split 1) by lia. }
    rewrite Hb.
    assert (0 < 2 ^ (e2 - 1 - e1)) by (apply pow2_pos; lia).
    assert (0 < 2 ^ (e1 + 2148)) by (apply pow2_pos; lia).
    change (2 ^ 52) with 4503599627370496 in *.
    change (2 ^ 53) with 9007199254740992 in *.
    clear Hlo1 Hhi1 Hlo2 Hhi2 Hb H1 H2.
    set (x := 2 ^ (e2 - 1 - e1)) in *. set (y := 2 ^ (e1 + 2148)) in *.
    clearbody x y.
    assert (9007199254740992 <= Z.pos m2 * (2 * x)) by nia.
    assert (9007199254740992 * y <= Z.pos m2 * (2 * x) * y)
      by (apply Z.mul_le_mono_nonneg_r; lia).
    assert (Z.pos m1 * y < 9007199254740992 * y) by (apply Z.mul_lt_mono_pos_r; lia).
    lia.
  - done.
Qed.

Lemma canonical_double (m : positive) (e : Z) :
  canonical_mantissa 53 1024 m e = true ->
  exists m2 e2,
    canonical_mantissa 53 1024 m2 e2 = true /\ units m2 e2 = 2 * units m e.
Proof.
  intros H%canonical_iff.
  destruct (Z.eq_dec (Z.pos (digits2_pos m)) 53) as [Hd|Hd].
  - exists m, (e + 1). split; [apply canonical_iff; lia|]. unfold units.
    replace (e + 1 + 2148) with (1 + (e + 2148)) by lia.
    rewrite pow2_split by lia. lia.
  - exists (m~0)%positive, e. split.
    + apply canonical_iff. cbn [digits2_pos]. lia.
    + unfold units. lia.
Qed.

Lemma mul_between (ma mr : positive) (ea er : Z) :
  bounded 53 1024 ma ea = true -> bounded 53 1024 mr er = true ->
  2 ^ 2148 <= units mr er <= 2 ^ 2149 ->
  match SFmul 53 1024 (S754_finite false ma ea) (S754_finite false mr er) with
  | S754_finite s mp ep =>
      s = false /\ units ma ea <= units mp ep <= 2 * units ma ea
  | S754_infinity s => s = false
  | _ => False
  end.
Proof.
  intros [Hca Hea]%bounded_iff [Hcr Her]%bounded_iff [Hlo Hhi].
  pose proof Hca as Hca'%canonical_iff. pose proof Hcr as Hcr'%canonical_iff.
  assert (Hmr : Z.pos mr < 2 ^ 53) by (apply digits_le_53; lia).
  assert (Her52 : -52 <= er).
  { destruct (Z.le_gt_cases (-52) er) as [|Hlt]; [done|exfalso].
    unfold units in Hlo.
    assert (2 ^ (er + 2148) <= 2 ^ 2095) by (apply Z.pow_le_mono_r; lia).
    assert (0 < 2 ^ (er + 2148)) by (apply pow2_pos; lia).
    change (2 ^ 2148) with (9007199254740992 * 2 ^ 2095) in Hlo.
    change (2 ^ 53) with 9007199254740992 in Hmr.
    set (x := 2 ^ (er + 2148)) in *. set (y := 2 ^ 2095) in *. clearbody x y.
    nia. }
  cbn [SFmul xorb].
  destruct (round_aux_spec false (ma * mr) (ea + er)) as (R & HR & Hexact & HR53 & ->).
  set (e' := Z.max (ea + er) _) in *.
  assert (He' : -1074 <= e') by (unfold e'; rewrite fexp_eq; lia).
  assert (Hsa : 0 < 2 ^ (ea + 2148)) by (apply pow2_pos; lia).
  assert (Hsr : 0 < 2 ^ (er + 2148)) by (apply pow2_pos; lia).
  assert (Hv : Z.pos (ma * mr) * 2 ^ (ea + er + 2148) * 2 ^ 2148
               = units ma ea * units mr er).
  { unfold units. rewrite Pos2Z.inj_mul, <- !Z.mul_assoc, <- pow2_split by lia.
    replace (ea + er + 2148 + 2148) with (ea + 2148 + (er + 2148)) by lia.
    rewrite pow2_split by lia. ring. }
  assert (Hua : 0 < units ma ea) by (unfold units; lia).
  assert (Hvlo : units ma ea <= Z.pos (ma * mr) * 2 ^ (ea + er + 2148)).
  { apply (Z.mul_le_mono_pos_r _ _ (2 ^ 2148)); [done|]. rewrite Hv.
    apply Z.mul_le_mono_nonneg_l; lia. }
  assert (Hvhi : Z.pos (ma * mr) * 2 ^ (ea + er + 2148) <= 2 * units ma ea).
  { apply (Z.mul_le_mono_pos_r _ _ (2 ^ 2148)); [done|]. rewrite Hv.
    change (2 ^ 2149) with (2 * 2 ^ 2148) in Hhi.
    rewrite <- Z.mul_assoc, (Z.mul_comm 2), <- Z.mul_assoc.
    apply Z.mul_le_mono_nonneg_l; lia. }
  pose proof (round_ge_R (ma * mr) ma (ea + er) ea Hca ltac:(lia) Hvlo) as Hge.
  destruct (canonical_double ma ea Hca) as (m2 & e2 & Hc2 & Hu2).
  rewrite <- Hu2 in Hvhi.
  pose proof (round_le_R (ma * mr) m2 (ea + er) e2 Hc2 ltac:(lia) R Hvhi HR Hexact) as Hle.
  fold e' in Hge, Hle. rewrite Hu2 in Hle.
  assert (Hs' : 0 < 2 ^ (e' + 2148)) by (apply pow2_pos; lia).
  set (q := Z.pos (ma * mr) / 2 ^ (e' - (ea + er))) in *.
  assert (HqR : q * 2 ^ (e' + 2148) <= R * 2 ^ (e' + 2148)).
  { apply Z.mul_le_mono_nonneg_r; lia. }
  assert (HR0 : 0 < R) by nia.
  pose proof (pack_units false R e' ltac:(lia) He') as Hpack.
  destruct (pack false R e') as [| | |s mp ep]; try done.
  destruct Hpack as [-> ->]. split; [done|]. lia.
Qed.

(** *** On the numbers of the program *)

Local Open Scope float_scope.

(** For a positive finite [a] and a factor [r] from 1 to 2, the rule
    [a + (a * r - a)] gives the product [a * r] bit for bit: the product
    lies between [a] and its double, so the difference is computed without
    rounding. *)
Lemma add_sub_exact (a r : float) :
  (0 <? a) = true -> (a <? infinity) = true ->
  (1 <=? r) = true -> (r <=? 2) = true ->
  a + (a * r - a) = a * r.
Proof.
  rewrite !ltb_spec, !leb_spec. intros Ha0 Hainf Hr1 Hr2.
  apply Prim2SF_inj. rewrite add_spec, sub_spec.
  pose proof (Prim2SF_valid a) as Hva. pose proof (Prim2SF_valid r) as Hvr.
  pose proof (Prim2SF_valid (a * r)) as Hvp.
  rewrite mul_spec in *.
  change (Prim2SF 0) with (S754_zero false) in Ha0.
  change (Prim2SF infinity) with (S754_infinity false) in Hainf.
  change (Prim2SF 1) with (S754_finite false 4503599627370496 (-52)) in Hr1.
  change (Prim2SF 2) with (S754_finite false 4503599627370496 (-51)) in Hr2.
  destruct (Prim2SF a) as [sa|sa| |sa ma ea]; try done; try (by destruct sa).
  destruct sa; [done|].
  destruct (Prim2SF r) as [sr|sr| |sr mr er]; try done; try (by destruct sr).
  destruct sr; [done|].
  cbn [valid_binary] in Hva, Hvr.
  pose proof Hvr as [Hcr _]%bounded_iff.
  apply SFleb_units in Hr1; [|done|done]. apply SFleb_units in Hr2; [|done|done].
  unfold SF64mul, SF64add, SF64sub, FloatOps.prec, FloatOps.emax in *.
  pose proof (mul_between ma mr ea er Hva Hvr) as Hp.
  destruct (SFmul 53 1024 _ _) as [s|s| |s mp ep] eqn:Hmul.
  - by destruct Hp.
  - rewrite Hp; [done|]. split; [exact Hr1|exact Hr2].
  - by destruct Hp.
  - destruct Hp as [-> Hbetween]; [split; [exact Hr1|exact Hr2]|].
    by apply add_sub_SF.
Qed.

End Rounding.

(** ** The edit history *)

Section EditorProperties.
Import JS KanjiEditorState.
Local Open Scope float_scope.

(** C6.  After [reset(d); update(a); update(b)] a first [undo] succeeds and
    makes current the state [update(a)] had set, a second succeeds and
    makes current the starting state around [d] with an empty history, and
    a third fails and changes nothing. *)
Theorem undo_after_reset_update_update
    (ed : t) (d a sizeA areaA b sizeB areaB : value) :
  let ed3 := update b sizeB areaB (update a sizeA areaA (reset d ed)) in
  let u1 := undo ed3 in
  let u2 := undo (snd u1) in
  let u3 := undo (snd u2) in
  fst u1 = true
  /\ state (snd u1) = [("data", a); ("logicalSize", sizeA); ("area", areaA)]
  /\ obj_get (state (snd u1)) "data" = a
  /\ fst u2 = true
  /\ snd u2 = {| history := []; state := starting_state d |}
  /\ fst u3 = false
  /\ snd u3 = snd u2.
Proof. repeat split. Qed.

Lemma importJson_parsed (o : obj) (ed : t) :
  importJson (JsonText (VObj o)) ed =
    if String.eqb (typeof (obj_get o "data")) "string"
       && String.eqb (typeof (obj_get o "logicalSize")) "number"
       && String.eqb (typeof (obj_get o "area")) "number"
    then (true, {| history := []; state := o |})
    else (false, ed).
Proof. reflexivity. Qed.

Lemma typeof_string (v : value) :
  String.eqb (typeof v) "string" = true -> exists s, v = VStr s.
Proof. destruct v; try discriminate; eauto. Qed.

Lemma typeof_number (v : value) :
  String.eqb (typeof v) "number" = true -> exists n, v = VNum n.
Proof. destruct v; try discriminate; eauto. Qed.

(** C8.  A text that does not parse, or whose document is not an object
    with a string [data] and numeric [logicalSize] and [area], is refused
    and leaves the editor as it was; a document of that shape is accepted,
    becomes the current state and empties the history. *)
Theorem importJson_validates (jsonString : text) (ed : t) :
  (JSON_parse jsonString = None -> importJson jsonString ed = (false, ed))
  /\ (forall parsed, JSON_parse jsonString = Some parsed ->
        ~ valid_import parsed -> importJson jsonString ed = (false, ed))
  /\ (forall o, JSON_parse jsonString = Some (VObj o) ->
        valid_import (VObj o) ->
        importJson jsonString ed = (true, {| history := []; state := o |})).
Proof.
  destruct jsonString as [doc|]; cbn [JSON_parse]; (split; [|split]).
  - discriminate.
  - intros parsed [= <-] Hbad.
    destruct doc as [| | | | | |o]; try reflexivity.
    rewrite importJson_parsed.
    destruct (String.eqb (typeof (obj_get o "data")) "string") eqn:Hd;
      [|reflexivity].
    destruct (String.eqb (typeof (obj_get o "logicalSize")) "number") eqn:Hs;
      [|reflexivity].
    destruct (String.eqb (typeof (obj_get o "area")) "number") eqn:Ha;
      [|reflexivity].
    destruct Hbad.
    apply typeof_string in Hd as [s Hd].
    apply typeof_number in Hs as [n Hs].
    apply typeof_number in Ha as [m Ha].
    by exists o, s, n, m.
  - intros o [= ->] (o' & s & n & m & [= <-] & Hd & Hs & Ha).
    rewrite importJson_parsed, Hd, Hs, Ha. reflexivity.
  - reflexivity.
  - intros parsed [=].
  - intros o [=].
Qed.

(** The three cases of C8 on an editor with one step of history. *)
Lemma importJson_validates_witness :
  let ed := update (VStr "1:0:0:10:10:50:50") (VNum 500) (VNum 100000) new in
  let good := [("data", VStr ""); ("logicalSize", VNum 200); ("area", VNum 40000)] in
  importJson NotJson ed = (false, ed)
  /\ importJson (JsonText (VObj [("data", VStr ""); ("logicalSize", VStr "200")])) ed
     = (false, ed)
  /\ importJson (JsonText (VObj good)) ed = (true, {| history := []; state := good |}).
Proof.
  intros ed good. split; [|split].
  - exact (proj1 (importJson_validates NotJson ed) eq_refl).
  - refine (proj1 (proj2 (importJson_validates
             (JsonText (VObj [("data", VStr ""); ("logicalSize", VStr "200")])) ed))
             _ eq_refl _).
    intros (o & s & n & m & [= <-] & _ & Hs & _). discriminate Hs.
  - refine (proj2 (proj2 (importJson_validates (JsonText (VObj good)) ed))
             good eq_refl _).
    exists good, "", 200, 40000. repeat split.
Defined.

Lemma jsonify_props_cons (k : string) (v : value) (o : obj) :
  jsonify_props ((k, v) :: o) =
    match v with
    | VUndefined => jsonify_props o
    | _ => (k, jsonify v) :: jsonify_props o
    end.
Proof. destruct v; reflexivity. Qed.

(** A property that holds a value survives the round trip, as the round
    trip of that value. *)
Lemma obj_get_jsonify_props (o : obj) (k : string) (v : value) :
  obj_get o k = v -> v <> VUndefined ->
  obj_get (jsonify_props o) k = jsonify v.
Proof.
  induction o as [|[k' v'] o IH]; cbn [obj_get].
  - intros <-. congruence.
  - rewrite jsonify_props_cons. destruct (String.eqb k' k) eqn:Hk.
    + intros -> Hv. destruct v; try congruence; cbn [obj_get]; by rewrite Hk.
    + intros Hget Hv. destruct v'; cbn [obj_get]; rewrite ?Hk; auto.
  Qed.

(** A finite number and what it is read back as are the same number for
    [===]; a number other than zero is read back bit for bit. *)
Lemma json_number_same (n : float) :
  is_finite n = true -> (n =? json_number n) = true.
Proof.
  unfold json_number, is_finite. intros Hfin.
  destruct (is_zero n) eqn:Hz; [exact Hz|].
  destruct (is_nan n) eqn:Hnan; [discriminate|].
  unfold is_nan in Hnan. by destruct (n =? n).
Qed.

Lemma json_number_nonzero (n : float) : is_zero n = false -> json_number n = n.
Proof. unfold json_number. by intros ->. Qed.

(** C7, for finite sizes and areas.  When the current state has a string
    [data] and finite numbers [logicalSize] and [area], importing what was
    exported succeeds, empties the history, and the state it installs has
    the same [data] and, as [===] sees them, the same [logicalSize] and
    [area] (bit for bit when they are not zero). *)
Theorem import_export_roundtrip (ed : t) (s : string) (n m : float) :
  obj_get (state ed) "data" = VStr s ->
  obj_get (state ed) "logicalSize" = VNum n ->
  obj_get (state ed) "area" = VNum m ->
  is_finite n = true ->
  is_finite m = true ->
  let restored := jsonify_props (state ed) in
  importJson (exportJson ed) ed = (true, {| history := []; state := restored |})
  /\ obj_get restored "data" = VStr s
  /\ obj_get restored "logicalSize" = VNum (json_number n)
  /\ obj_get restored "area" = VNum (json_number m)
  /\ (n =? json_number n) = true
  /\ (m =? json_number m) = true
  /\ (is_zero n = false -> json_number n = n)
  /\ (is_zero m = false -> json_number m = m).
Proof.
  intros Hd Hs Ha Hn Hm restored.
  assert (Hd' : obj_get restored "data" = VStr s).
  { by apply (obj_get_jsonify_props _ _ (VStr s)). }
  assert (Hs' : obj_get restored "logicalSize" = VNum (json_number n)).
  { unfold restored.
    rewrite (obj_get_jsonify_props _ _ (VNum n)) by done.
    cbn [jsonify]. by rewrite Hn. }
  assert (Ha' : obj_get restored "area" = VNum (json_number m)).
  { unfold restored.
    rewrite (obj_get_jsonify_props _ _ (VNum m)) by done.
    cbn [jsonify]. by rewrite Hm. }
  split.
  { unfold exportJson, JSON_stringify. rewrite importJson_parsed.
    fold restored. by rewrite Hd', Hs', Ha'. }
  auto 10 using json_number_same, json_number_nonzero.
Qed.

(** The round trip of C7 from the starting state of a new editor. *)
Lemma import_export_roundtrip_witness :
  importJson (exportJson new) new = (true, new).
Proof.
  exact (proj1 (import_export_roundtrip new "" 200 40000
                  eq_refl eq_refl eq_refl eq_refl eq_refl)).
Defined.

(** C7 fails where a number is not finite: an area NaN, or an area
    Infinity, passes [typeof] as a number, is exported as [null], and the
    import refuses it. *)
Lemma roundtrip_refused_for_nan_area :
  let ed := update (VStr "1:0:0:10:10:50:50") (VNum 500) (VNum nan) new in
  let ed' := update (VStr "1:0:0:10:10:50:50") (VNum 500) (VNum infinity) new in
  typeof (obj_get (state ed) "data") = "string"
  /\ typeof (obj_get (state ed) "logicalSize") = "number"
  /\ typeof (obj_get (state ed) "area") = "number"
  /\ exportJson ed
     = JsonText (VObj [("data", VStr "1:0:0:10:10:50:50");
                       ("logicalSize", VNum 500); ("area", VNull)])
  /\ importJson (exportJson ed) ed = (false, ed)
  /\ typeof (obj_get (state ed') "area") = "number"
  /\ importJson (exportJson ed') ed' = (false, ed').
Proof. repeat split. Qed.

End EditorProperties.

(** ** The composition engine *)

Section ComposerProperties.
Import JS KanjiComposer PlacementSpec.
Local Open Scope float_scope.

Variable getEachStrokes : list (string * value) -> string -> list stroke.
Variable Number_toString : float -> string.
Variable loader : GlyphLoader.t.

Abbreviation flatten := (flatten getEachStrokes loader).
Abbreviation compose := (compose getEachStrokes Number_toString loader).
Abbreviation compose_strokes := (compose_strokes getEachStrokes loader).
Abbreviation stringify := (stringify Number_toString).

Lemma compose_unfold cd pd layoutMode cur a f rect :
  compose cd pd layoutMode cur a f rect =
    let '(strokes, size, nextArea) := compose_strokes cd pd layoutMode cur a f rect in
    {| data := stringify strokes; logicalSize := size; area := nextArea |}.
Proof. reflexivity. Qed.

(** *** The layout chain *)

Lemma place_triangle (cur f : float) :
  let half := cur * 2 / 2 in
  place "TRIANGLE" cur f =
    Triangle (cur * 2) (3 * 40000 * f)
      {| Rect.x := half / 2; Rect.y := 0; Rect.w := half; Rect.h := half |}
      {| Rect.x := 0; Rect.y := half; Rect.w := half; Rect.h := half |}
      {| Rect.x := half; Rect.y := half; Rect.w := half; Rect.h := half |}.
Proof. reflexivity. Qed.

(** Every layout but [TRIANGLE] leaves the chain with two boxes and the
    size of the layout table. *)
Lemma place_boxes (layoutMode : string) (cur f : float) :
  layoutMode <> "TRIANGLE" ->
  exists boxCurrent boxPart,
    place layoutMode cur f = Boxes (table_size layoutMode cur) boxCurrent boxPart.
Proof.
  intros Hlayout. unfold place, table_size.
  repeat (match goal with
          | |- context [String.eqb layoutMode ?l] =>
              destruct (String.eqb layoutMode l) eqn:?
          end; [by eauto|]).
  destruct (String.eqb layoutMode "TRIANGLE") eqn:Htri; [|by eauto].
  by apply String.eqb_eq in Htri.
Qed.

(** *** The two transforms keep the frame of every record *)

Lemma same_frame_take_app (s : stroke) (coords : list float) :
  length coords = length (drop 3 s) -> same_frame (take 3 s ++ coords) s.
Proof.
  intros Hlen. split.
  - rewrite length_app, Hlen, <- length_app. by rewrite take_drop.
  - destruct s as [|a [|b [|c s]]]; cbn in *;
      try (destruct coords; [reflexivity|discriminate]).
    reflexivity.
Qed.

Lemma transformStrokes_frames (strokes : list stroke) (box : Rect.t)
    (src : option Rect.t) :
  Forall2 same_frame (transformStrokes strokes box src) strokes.
Proof.
  unfold transformStrokes. cbv zeta.
  induction strokes as [|s strokes IH]; constructor; [|exact IH].
  apply same_frame_take_app. by rewrite length_imap.
Qed.

Lemma length_transformStrokes (strokes : list stroke) (box : Rect.t)
    (src : option Rect.t) :
  length (transformStrokes strokes box src) = length strokes.
Proof. apply length_map. Qed.

Lemma length_remap_pairs (sx ox sy oy : float) (coords : list float) :
  Nat.even (length coords) = true ->
  length (remap_pairs sx ox sy oy coords) = length coords.
Proof.
  enough (H : (Nat.even (length coords) = true ->
               length (remap_pairs sx ox sy oy coords) = length coords)
              /\ forall v, Nat.even (length (v :: coords)) = true ->
                   length (remap_pairs sx ox sy oy (v :: coords))
                   = length (v :: coords)) by apply H.
  induction coords as [|vy coords [IH0 IH1]].
  - split; [done|]. intros v. discriminate.
  - split; [apply IH1|].
    intros vx Heven. cbn [remap_pairs length]. f_equal. f_equal.
    apply IH0. exact Heven.
Qed.

(** The loop leaves a stroke alone once its index is past the end. *)
Lemma remap_loop_done (sx ox sy oy : float) (fuel i : nat) (a : list float) :
  (length a <= i)%nat -> remap_loop sx ox sy oy fuel i a = a.
Proof.
  intros Hi. destruct fuel as [|fuel]; [done|].
  cbn [remap_loop]. by rewrite decide_False by lia.
Qed.

Lemma arr_num_middle (pre rest : list float) (v : float) :
  arr_num (pre ++ v :: rest) (length pre) = v.
Proof. unfold arr_num. by rewrite list_lookup_middle. Qed.

Lemma arr_set_middle (pre rest : list float) (v v' : float) :
  arr_set (pre ++ v :: rest) (length pre) v' = pre ++ v' :: rest.
Proof.
  unfold arr_set. rewrite decide_True by (rewrite length_app; cbn; lia).
  by rewrite insert_app_r_alt, Nat.sub_diag by lia.
Qed.

Lemma arr_num_end (a : list float) : arr_num a (length a) = nan.
Proof. unfold arr_num. by rewrite lookup_ge_None_2. Qed.

Lemma arr_set_end (a : list float) (v : float) : arr_set a (length a) v = a ++ [v].
Proof. unfold arr_set. by rewrite decide_False by lia. Qed.

(** With enough fuel the loop, started at the end of [pre], leaves [pre] and
    remaps the coordinates after it pair by pair. *)
Lemma remap_loop_pairs (sx ox sy oy : float) (fuel : nat) (pre coords : list float) :
  (length coords <= 2 * fuel)%nat ->
  remap_loop sx ox sy oy fuel (length pre) (pre ++ coords)
  = pre ++ remap_pairs sx ox sy oy coords.
Proof.
  revert pre coords. induction fuel as [|fuel IH]; intros pre coords Hfuel.
  { destruct coords; [done|cbn in Hfuel; lia]. }
  destruct coords as [|vx [|vy coords]].
  - apply remap_loop_done. rewrite length_app. cbn. lia.
  - cbn [remap_loop remap_pairs].
    rewrite decide_True by (rewrite length_app; cbn; lia).
    rewrite arr_num_middle, arr_set_middle.
    replace (length pre + 1)%nat with (length (pre ++ [floor (vx * sx + ox)]))
      by (rewrite length_app; cbn; lia).
    rewrite arr_num_end, arr_set_end.
    rewrite remap_loop_done by (rewrite !length_app; cbn; lia).
    by rewrite <- app_assoc.
  - cbn [remap_loop remap_pairs].
    rewrite decide_True by (rewrite length_app; cbn; lia).
    rewrite arr_num_middle, arr_set_middle.
    replace (pre ++ floor (vx * sx + ox) :: vy :: coords)
      with ((pre ++ [floor (vx * sx + ox)]) ++ vy :: coords)
      by (by rewrite <- app_assoc).
    replace (length pre + 1)%nat with (length (pre ++ [floor (vx * sx + ox)]))
      by (rewrite length_app; cbn; lia).
    rewrite arr_num_middle, arr_set_middle.
    replace ((pre ++ [floor (vx * sx + ox)]) ++ floor (vy * sy + oy) :: coords)
      with ((pre ++ [floor (vx * sx + ox); floor (vy * sy + oy)]) ++ coords)
      by (by rewrite <- !app_assoc).
    replace (length pre + 2)%nat
      with (length (pre ++ [floor (vx * sx + ox); floor (vy * sy + oy)]))
      by (rewrite length_app; cbn; lia).
    rewrite IH by (cbn in Hfuel; lia).
    by rewrite <- !app_assoc.
Qed.

(** The loop of [compose] on a whole stroke: fields 0 to 2, then the
    coordinates pair by pair. *)
Lemma remap_loop_stroke (sx ox sy oy : float) (s : stroke) :
  remap_loop sx ox sy oy (length s) 3 s
  = take 3 s ++ remap_pairs sx ox sy oy (drop 3 s).
Proof.
  destruct (decide (3 <= length s)%nat) as [Hlen|Hlen].
  - rewrite <- (take_drop 3 s) at 2.
    rewrite <- (length_take_le s 3 Hlen) at 1.
    apply remap_loop_pairs. rewrite length_drop. lia.
  - rewrite remap_loop_done, take_ge, drop_ge by lia.
    by rewrite app_nil_r.
Qed.

Lemma transformCurrent_pairs (strokes : list stroke) (box : Rect.t) (cur : float) :
  transformCurrent strokes box cur =
    map (fun s : stroke =>
           take 3 s ++ remap_pairs (Rect.w box / cur) (Rect.x box)
                         (Rect.h box / cur) (Rect.y box) (drop 3 s))
        strokes.
Proof.
  unfold transformCurrent. cbv zeta. apply map_ext. intros s.
  apply remap_loop_stroke.
Qed.

Lemma transformCurrent_frames (strokes : list stroke) (box : Rect.t) (cur : float) :
  Forall complete_pairs strokes ->
  Forall2 same_frame (transformCurrent strokes box cur) strokes.
Proof.
  rewrite transformCurrent_pairs.
  induction 1 as [|s strokes Hs _ IH]; constructor; [|exact IH].
  apply same_frame_take_app, length_remap_pairs.
  by rewrite length_drop.
Qed.

(** *** The scenarios and rules of the design document *)

(** C1.  Composing [ADD_RIGHT] onto a composite of size 200 and area 40000
    with factor 1 and no rect, a part that flattens to
    [[1,0,0,10,10,50,50]] gives size 500 and area 100000, the part box
    (200,0,300,500), and the part stroke mapped to
    [[1,0,0,215,25,275,125]] after the existing strokes. *)
Theorem add_right_scenario (currentData partData : string) :
  flatten partData = [[1; 0; 0; 10; 10; 50; 50]] ->
  let r := compose currentData partData "ADD_RIGHT" 200 40000 1 None in
  let boxCurrent := {| Rect.x := 0; Rect.y := 0; Rect.w := 200; Rect.h := 500 |} in
  let boxPart := {| Rect.x := 200; Rect.y := 0; Rect.w := 300; Rect.h := 500 |} in
  logicalSize r = 500
  /\ area r = 100000
  /\ place "ADD_RIGHT" 200 1 = Boxes 500 boxCurrent boxPart
  /\ compose_strokes currentData partData "ADD_RIGHT" 200 40000 1 None
     = (transformCurrent (flatten currentData) boxCurrent 200
          ++ [[1; 0; 0; 215; 25; 275; 125]], 500, 100000)
  /\ data r = stringify (transformCurrent (flatten currentData) boxCurrent 200
                           ++ [[1; 0; 0; 215; 25; 275; 125]])
  /\ floor (10 * (300 / 200) + 200) = 215
  /\ floor (10 * (500 / 200) + 0) = 25
  /\ 40000 * (500 / 200) = 100000.
Proof.
  intros Hpart r boxCurrent boxPart.
  assert (Hstrokes :
    compose_strokes currentData partData "ADD_RIGHT" 200 40000 1 None
    = (transformCurrent (flatten currentData) boxCurrent 200
         ++ [[1; 0; 0; 215; 25; 275; 125]], 500, 100000)).
  { unfold KanjiComposer.compose_strokes. rewrite Hpart. reflexivity. }
  unfold r. rewrite compose_unfold, Hstrokes.
  repeat split.
Qed.

(** C2, as the program computes it.  For a layout other than [TRIANGLE]
    the returned area is
    [currentArea + (currentArea * (newSize / currentSize) - currentArea) * areaFactor]
    in binary64 arithmetic, [newSize] being the size of the layout table
    before it is floored.  With factor 1 the product by the factor rounds
    nothing, so the area is [currentArea + (currentArea * ratio - currentArea)];
    and whenever the area is positive and finite and the ratio is from 1 to
    2, the subtraction and the addition round nothing either and the area is
    [currentArea * ratio] bit for bit.  With factor 0 the area is
    [currentArea] as [===] sees it whenever the difference is finite, and
    bit for bit when [currentArea] is positive. *)
Theorem area_rule (currentData partData layoutMode : string)
    (currentLogicalSize currentArea areaFactor : float) (partRect : option Rect.t) :
  layoutMode <> "TRIANGLE" ->
  let r := compose currentData partData layoutMode
             currentLogicalSize currentArea areaFactor partRect in
  let ratio := table_size layoutMode currentLogicalSize / currentLogicalSize in
  let delta := currentArea * ratio - currentArea in
  area r = currentArea + delta * areaFactor
  /\ logicalSize r = floor (table_size layoutMode currentLogicalSize)
  /\ (areaFactor = 1 -> area r = currentArea + delta)
  /\ (areaFactor = 1 ->
      (0 <? currentArea) = true -> (currentArea <? infinity) = true ->
      (1 <=? ratio) = true -> (ratio <=? 2) = true ->
      area r = currentArea * ratio)
  /\ (areaFactor = 0 -> is_finite delta = true ->
      (area r =? currentArea) = true
      /\ ((0 <? currentArea) = true -> area r = currentArea)).
Proof.
  intros Hlayout r ratio delta.
  assert (Harea : area r = currentArea + delta * areaFactor
                  /\ logicalSize r = floor (table_size layoutMode currentLogicalSize)).
  { unfold r. rewrite compose_unfold. unfold KanjiComposer.compose_strokes.
    destruct (place_boxes layoutMode currentLogicalSize areaFactor Hlayout)
      as (boxCurrent & boxPart & ->).
    by split. }
  destruct Harea as [Harea Hsize].
  split; [exact Harea|]. split; [exact Hsize|]. split; [|split].
  - intros ->. by rewrite Harea, mul_one_r.
  - intros -> Hpos Hfin Hlo Hhi. rewrite Harea, mul_one_r.
    by apply add_sub_exact.
  - intros -> Hfinite. rewrite Harea. by apply add_scaled_by_zero.
Qed.

Lemma imap_alternate {A B : Type} (f g : A -> B) (l : list A) :
  imap (fun k v => if Nat.even k then f v else g v) l = alternate f g l.
Proof.
  revert f g. induction l as [|v l IH]; intros f g; [done|].
  cbn [imap alternate]. f_equal. rewrite <- IH.
  apply imap_ext. intros k w _. unfold Basics.compose.
  rewrite Nat.even_succ, <- Nat.negb_even. by destruct (Nat.even k).
Qed.

Lemma transformStrokes_fitted (strokes : list stroke) (box rect : Rect.t) :
  transformStrokes strokes box (Some rect) = map (fitted box rect) strokes.
Proof.
  unfold transformStrokes, fitted. cbv zeta. apply map_ext. intros s.
  f_equal. apply imap_alternate.
Qed.

(** C3.  [TRIANGLE] returns three placed copies of the part's strokes and
    nothing of the existing composite: the records of the part placed into
    the top box, then into the left box, then into the right box, each box
    half the new size, every coordinate mapped from the source region and
    floored.  The text is these records written out, the size is
    [currentSize * 2] and the area [3 * 40000 * areaFactor]: the result is
    the same whatever the current data and the current area are. *)
Theorem triangle_layout (currentData currentData' partData : string)
    (currentLogicalSize currentArea currentArea' areaFactor : float)
    (partRect : option Rect.t) :
  let region := default {| Rect.x := 0; Rect.y := 0; Rect.w := 1; Rect.h := 1 |} partRect in
  let half := currentLogicalSize * 2 / 2 in
  let boxTop := {| Rect.x := half / 2; Rect.y := 0; Rect.w := half; Rect.h := half |} in
  let boxLeft := {| Rect.x := 0; Rect.y := half; Rect.w := half; Rect.h := half |} in
  let boxRight := {| Rect.x := half; Rect.y := half; Rect.w := half; Rect.h := half |} in
  let part := flatten partData in
  let copies := map (fitted boxTop region) part
                ++ map (fitted boxLeft region) part
                ++ map (fitted boxRight region) part in
  compose_strokes currentData partData "TRIANGLE"
      currentLogicalSize currentArea areaFactor partRect
    = (copies, currentLogicalSize * 2, 3 * 40000 * areaFactor)
  /\ compose currentData partData "TRIANGLE"
       currentLogicalSize currentArea areaFactor partRect
     = {| data := text_of Number_toString copies;
          logicalSize := currentLogicalSize * 2;
          area := 3 * 40000 * areaFactor |}
  /\ length copies = (3 * length part)%nat
  /\ compose currentData partData "TRIANGLE"
       currentLogicalSize currentArea areaFactor partRect
     = compose currentData' partData "TRIANGLE"
         currentLogicalSize currentArea' areaFactor partRect
  /\ logicalSize (compose currentData partData "TRIANGLE" 200 currentArea 1 partRect)
     = 400
  /\ area (compose currentData partData "TRIANGLE" 200 currentArea 1 partRect)
     = 120000.
Proof.
  intros region half boxTop boxLeft boxRight part copies.
  assert (Hstrokes : compose_strokes currentData partData "TRIANGLE"
                       currentLogicalSize currentArea areaFactor partRect
                     = (copies, currentLogicalSize * 2, 3 * 40000 * areaFactor)).
  { unfold KanjiComposer.compose_strokes. cbn [place String.eqb Ascii.eqb Bool.eqb].
    cbv zeta. by rewrite !transformStrokes_fitted. }
  split; [exact Hstrokes|]. split.
  { rewrite compose_unfold, Hstrokes. reflexivity. }
  split.
  { unfold copies. rewrite !length_app, !length_map. lia. }
  repeat split.
Qed.

(** C10, for the layouts that keep the existing composite.  When the
    coordinates of every flattened record come in pairs, the records handed
    to [stringify] are, in order, one per record of the existing composite
    followed by one per record of the part, each with the length and the
    fields 0 to 2 of the record it was made from.  For [TRIANGLE] the same
    holds against three copies of the part's records. *)
Theorem compose_keeps_frames (currentData partData layoutMode : string)
    (currentLogicalSize currentArea areaFactor : float) (partRect : option Rect.t) :
  Forall complete_pairs (flatten currentData) ->
  Forall complete_pairs (flatten partData) ->
  let out := (compose_strokes currentData partData layoutMode
                currentLogicalSize currentArea areaFactor partRect).1.1 in
  data (compose currentData partData layoutMode
          currentLogicalSize currentArea areaFactor partRect) = stringify out
  /\ (layoutMode <> "TRIANGLE" ->
      Forall2 same_frame out (flatten currentData ++ flatten partData))
  /\ (layoutMode = "TRIANGLE" ->
      Forall2 same_frame out (flatten partData ++ flatten partData ++ flatten partData)).
Proof.
  intros Hcurrent Hpart out. split; [|split].
  - unfold out. rewrite compose_unfold.
    by destruct (compose_strokes _ _ _ _ _ _ _) as [[strokes size] nextArea].
  - intros Hlayout. unfold out, KanjiComposer.compose_strokes.
    destruct (place_boxes layoutMode currentLogicalSize areaFactor Hlayout)
      as (boxCurrent & boxPart & ->).
    cbn [fst]. apply Forall2_app.
    + by apply transformCurrent_frames.
    + apply transformStrokes_frames.
  - intros ->. unfold out, KanjiComposer.compose_strokes.
    rewrite place_triangle. cbn [fst].
    repeat apply Forall2_app; apply transformStrokes_frames.
Qed.

End ComposerProperties.

(** *** The scenarios on the example collaborators *)

Section ComposerExamples.
Import JS KanjiComposer.
Local Open Scope float_scope.

Abbreviation sample_compose :=
  (compose Sample.getEachStrokes Sample.Number_toString GlyphLoader.new).
Abbreviation sample_strokes :=
  (compose_strokes Sample.getEachStrokes GlyphLoader.new).
Abbreviation sample_flatten := (flatten Sample.getEachStrokes GlyphLoader.new).

(** The scenario of C1 on a composite of one stroke. *)
Lemma add_right_scenario_witness :
  sample_compose "2:0:0:0:0:200:200" "1:0:0:10:10:50:50" "ADD_RIGHT" 200 40000 1 None
  = {| data := "2:0:0:0:0:200:500$1:0:0:215:25:275:125";
       logicalSize := 500;
       area := 100000 |}.
Proof.
  destruct (add_right_scenario Sample.getEachStrokes Sample.Number_toString
              GlyphLoader.new "2:0:0:0:0:200:200" "1:0:0:10:10:50:50" eq_refl)
    as (Hsize & Harea & _ & _ & Hdata & _).
  destruct (sample_compose _ _ _ _ _ _ _) as [d size a]; cbn in *.
  by rewrite Hsize, Harea, Hdata.
Defined.

(** The area rule of C2.  At the starting square factor 1 gives 100000 and
    factor 0 keeps 40000.  At the area 43690.68, where [ADD_RIGHT] at size
    200 rounds, [ADD_LEFT] at size 200 (ratio 1.6) and [ADD_RIGHT] at size
    300 (ratio 2) give the product itself. *)
Lemma area_rule_witness :
  area (sample_compose "" "1:0:0:10:10:50:50" "ADD_RIGHT" 200 40000 1 None) = 100000
  /\ area (sample_compose "" "1:0:0:10:10:50:50" "ADD_RIGHT" 200 40000 0 None) = 40000
  /\ area (sample_compose "" "1:0:0:10:10:50:50" "ADD_LEFT" 200 43690.68 1 None)
     = 43690.68 * (320 / 200)
  /\ area (sample_compose "" "1:0:0:10:10:50:50" "ADD_RIGHT" 300 43690.68 1 None)
     = 43690.68 * (600 / 300).
Proof.
  assert (Hright : "ADD_RIGHT" <> "TRIANGLE") by discriminate.
  assert (Hleft : "ADD_LEFT" <> "TRIANGLE") by discriminate.
  split; [|split; [|split]].
  - exact (proj1 (proj2 (proj2
      (area_rule Sample.getEachStrokes Sample.Number_toString GlyphLoader.new
         "" "1:0:0:10:10:50:50" "ADD_RIGHT" 200 40000 1 None Hright))) eq_refl).
  - exact (proj2 (proj2 (proj2 (proj2 (proj2
      (area_rule Sample.getEachStrokes Sample.Number_toString GlyphLoader.new
         "" "1:0:0:10:10:50:50" "ADD_RIGHT" 200 40000 0 None Hright)))) eq_refl eq_refl)
      eq_refl).
  - exact (proj1 (proj2 (proj2 (proj2
      (area_rule Sample.getEachStrokes Sample.Number_toString GlyphLoader.new
         "" "1:0:0:10:10:50:50" "ADD_LEFT" 200 43690.68 1 None Hleft))))
      eq_refl eq_refl eq_refl eq_refl eq_refl).
  - exact (proj1 (proj2 (proj2 (proj2
      (area_rule Sample.getEachStrokes Sample.Number_toString GlyphLoader.new
         "" "1:0:0:10:10:50:50" "ADD_RIGHT" 300 43690.68 1 None Hright))))
      eq_refl eq_refl eq_refl eq_refl eq_refl).
Defined.

(** C2 fails as stated.  With factor 1, size 200, [ADD_RIGHT] and area
    43690.68 the returned area is 109226.69999999998, one unit in the last
    place below [currentArea * (newSize / currentSize)] = 109226.7: the
    subtraction and the addition of the rule each round.  With factor 0 and
    area 1e308 the product overflows and the returned area is NaN. *)
Lemma area_rule_rounds :
  area (sample_compose "" "" "ADD_RIGHT" 200 43690.68 1 None) = 109226.69999999998
  /\ 43690.68 * (table_size "ADD_RIGHT" 200 / 200) = 109226.7
  /\ (109226.69999999998 =? 109226.7) = false
  /\ is_nan (area (sample_compose "" "" "ADD_RIGHT" 200 1e308 0 None)) = true.
Proof. repeat split. Qed.

(** C3 on the sample part at size 200: the stroke from (10,10) to (50,50)
    comes out three times, in the top box, the left box and the right box
    of a square of side 400, and the existing stroke is gone. *)
Lemma triangle_layout_witness :
  sample_compose "2:0:0:0:0:200:200" "1:0:0:10:10:50:50" "TRIANGLE" 200 40000 1 None
  = {| data := "1:0:0:110:10:150:50$1:0:0:10:210:50:250$1:0:0:210:210:250:250";
       logicalSize := 400;
       area := 120000 |}.
Proof.
  exact (proj1 (proj2
    (triangle_layout Sample.getEachStrokes Sample.Number_toString GlyphLoader.new
       "2:0:0:0:0:200:200" "" "1:0:0:10:10:50:50" 200 40000 0 1 None))).
Defined.

(** C10 fails as stated for [TRIANGLE]: the one record of the existing
    composite is dropped and the one record of the part comes out three
    times. *)
Lemma triangle_changes_record_count :
  sample_flatten "2:0:0:0:0:200:200" = [[2; 0; 0; 0; 0; 200; 200]]
  /\ sample_flatten "1:0:0:10:10:50:50" = [[1; 0; 0; 10; 10; 50; 50]]
  /\ (sample_strokes "2:0:0:0:0:200:200" "1:0:0:10:10:50:50" "TRIANGLE"
        200 40000 1 None).1.1
     = [[1; 0; 0; 110; 10; 150; 50]; [1; 0; 0; 10; 210; 50; 250];
        [1; 0; 0; 210; 210; 250; 250]].
Proof. repeat split. Qed.

(** C10 on [ADD_RIGHT]: the two records keep their frames. *)
Lemma compose_keeps_frames_witness :
  Forall2 same_frame
    [[2; 0; 0; 0; 0; 200; 500]; [1; 0; 0; 215; 25; 275; 125]]
    [[2; 0; 0; 0; 0; 200; 200]; [1; 0; 0; 10; 10; 50; 50]].
Proof.
  refine (proj1 (proj2
    (compose_keeps_frames Sample.getEachStrokes Sample.Number_toString
       GlyphLoader.new "2:0:0:0:0:200:200" "1:0:0:10:10:50:50" "ADD_RIGHT"
       200 40000 1 None _ _)) _).
  - repeat constructor.
  - repeat constructor.
  - discriminate.
Defined.

End ComposerExamples.

(** ** The loader *)

Section LoaderProperties.
Import JS GlyphLoader.

Implicit Types (w : world) (id nameOrId : string) (v : value).

(** *** What a call and a response can change *)

(** A call returns at once, or adds one request for an identifier whose
    entry is not truthy. *)
Lemma load_call_cases nameOrId w :
  (exists v, load_call nameOrId w = (w, Returned v))
  \/ (exists id,
       resolve nameOrId = Some id
       /\ truthy (cache_get (cache (loader w)) id) = false
       /\ load_call nameOrId w =
            ({| loader := loader w;
                inflight := inflight w ++ [id];
                fetched := fetched w ++ [id] |}, Awaiting id)).
Proof.
  unfold load_call. destruct (resolve nameOrId) as [id|]; [|by eauto].
  destruct (truthy (cache_get (cache (loader w)) id)) eqn:Hid; eauto.
Qed.

Lemma keeps_refl w : keeps w w.
Proof. by split. Qed.

Lemma keeps_trans w1 w2 w3 : keeps w1 w2 -> keeps w2 w3 -> keeps w1 w3.
Proof.
  intros [Hk12 Hs12] [Hk23 Hs23]. split; [by etrans|].
  intros id v H1. destruct (Hs12 id v H1) as [H2 Hf2].
  destruct (Hs23 id v H2) as [H3 Hf3]. split; [done|congruence].
Qed.

Lemma load_call_keeps nameOrId w : keeps w (load_call nameOrId w).1.
Proof.
  destruct (load_call_cases nameOrId w) as [[v ->]|(id & _ & Hmiss & ->)];
    [apply keeps_refl|].
  split; [done|]. intros id' v (Hget & Hv & Hfly). cbn [fst].
  assert (Hne : id' <> id).
  { intros ->. unfold cache_get in Hmiss. rewrite Hget in Hmiss. cbn in Hmiss.
    congruence. }
  split.
  - split; [done|]. split; [done|]. cbn. rewrite elem_of_app, list_elem_of_singleton.
    by intros [?|?].
  - unfold fetches_of. cbn. rewrite filter_app, filter_cons_False, filter_nil by done.
    by rewrite app_nil_r.
Qed.

Lemma scan_line_keeps w line : keeps w (scan_line w line).
Proof.
  unfold scan_line.
  repeat (case_match; try apply keeps_refl).
  apply load_call_keeps.
Qed.

Lemma scan_lines_keeps (lines : list string) w : keeps w (foldl scan_line w lines).
Proof.
  revert w. induction lines as [|line lines IH]; intros w; [apply keeps_refl|].
  cbn [foldl]. eapply keeps_trans; [apply scan_line_keeps|apply IH].
Qed.

(** Handling the response to a request for [id] keeps everything but the
    entry of [id]. *)
Lemma load_resume_keeps id (r : response) w w0 :
  dom (cache (loader w0)) ⊆ dom (cache (loader w)) ->
  (forall id' v, settled w0 id' v -> id' <> id /\ settled w id' v
                                 /\ fetches_of id' w = fetches_of id' w0) ->
  keeps w0 (load_resume id r w).1.
Proof.
  intros Hkeys Hsettled.
  assert (Hw : keeps w0 w).
  { split; [done|]. intros id' v H. by destruct (Hsettled id' v H) as (_ & ? & ?). }
  unfold load_resume. destruct r as [|json]; [done|].
  destruct (get_prop json "data") as [d|]; [|done].
  set (w1 := {| loader := {| cache := <[id:=d]> (cache (loader w)) |};
                inflight := inflight w; fetched := fetched w |}).
  assert (Hw1 : keeps w0 w1).
  { split; [cbn; etrans; [exact Hkeys|apply dom_insert_subseteq]|].
    intros id' v H. destruct (Hsettled id' v H) as (Hne & (Hget & Hv & Hfly) & Hf).
    split; [|done]. split; [|done]. cbn. by rewrite lookup_insert_ne. }
  destruct d; try exact Hw1.
  cbn [fst]. eapply keeps_trans; [exact Hw1|apply scan_lines_keeps].
Qed.

Lemma step_keeps w (e : event) : keeps w (step w e).
Proof.
  destruct e as [nameOrId|k r]; cbn [step]; [apply load_call_keeps|].
  destruct (inflight w !! k) as [id|] eqn:Hk; [|apply keeps_refl].
  apply load_resume_keeps; [done|].
  intros id' v (Hget & Hv & Hfly). split.
  - intros ->. apply Hfly. by eapply list_elem_of_lookup_2.
  - split; [|done]. split; [done|]. split; [done|]. cbn.
    intros Hin. apply Hfly. eapply elem_of_sublist; [exact Hin|].
    apply sublist_delete.
Qed.

Lemma run_keeps (es : list event) w : keeps w (run es w).
Proof.
  revert w. induction es as [|e es IH]; intros w; [apply keeps_refl|].
  cbn [run foldl]. eapply keeps_trans; [apply step_keeps|apply IH].
Qed.

Lemma load_call_hit nameOrId id v w :
  resolve nameOrId = Some id ->
  cache (loader w) !! id = Some v ->
  truthy v = true ->
  load_call nameOrId w = (w, Returned v).
Proof.
  intros Hid Hget Hv. unfold load_call, cache_get.
  by rewrite Hid, Hget; cbn; rewrite Hv.
Qed.

Lemma load_call_miss nameOrId id w :
  resolve nameOrId = Some id ->
  truthy (cache_get (cache (loader w)) id) = false ->
  load_call nameOrId w =
    ({| loader := loader w;
        inflight := inflight w ++ [id];
        fetched := fetched w ++ [id] |}, Awaiting id).
Proof. intros Hid Hmiss. unfold load_call. by rewrite Hid, Hmiss. Qed.

(** *** The cache over any sequence of calls and responses *)

(** C4, as the program behaves.  Over any sequence of calls and responses
    no key leaves the cache; a call for an identifier whose entry is truthy
    returns that entry at once, issues no request and changes nothing; and
    an entry that is truthy while no request for its identifier is in
    flight stays as it is for ever, its identifier never requested again. *)
Theorem cache_grows (es : list event) w :
  dom (cache (loader w)) ⊆ dom (cache (loader (run es w)))
  /\ (forall nameOrId id v,
        resolve nameOrId = Some id ->
        cache (loader w) !! id = Some v ->
        truthy v = true ->
        load_call nameOrId w = (w, Returned v))
  /\ (forall id v,
        settled w id v ->
        settled (run es w) id v /\ fetches_of id (run es w) = fetches_of id w).
Proof.
  destruct (run_keeps es w) as [Hkeys Hsettled].
  split; [exact Hkeys|]. split; [|exact Hsettled].
  intros nameOrId id v. apply load_call_hit.
Qed.

(** C5, as the program behaves.  Two calls for the same identifier made
    while its entry is not truthy issue one request each; the call whose
    response carries the text [s] answers [s], its own text; only a call
    made once a truthy entry is there answers from the cache. *)
Theorem concurrent_calls_fetch_twice nameOrId id w :
  resolve nameOrId = Some id ->
  truthy (cache_get (cache (loader w)) id) = false ->
  run [Call nameOrId; Call nameOrId] w =
    {| loader := loader w;
       inflight := inflight w ++ [id; id];
       fetched := fetched w ++ [id; id] |}
  /\ (forall json s w',
        get_prop json "data" = Some (VStr s) ->
        (load_resume id (Body json) w').2 = VStr s)
  /\ (forall v w',
        cache (loader w') !! id = Some v -> truthy v = true ->
        load_call nameOrId w' = (w', Returned v)).
Proof.
  intros Hid Hmiss. split; [|split].
  - unfold run. cbn [foldl step].
    rewrite (load_call_miss nameOrId id w Hid Hmiss). cbn [fst].
    rewrite (load_call_miss nameOrId id) by done. cbn.
    by rewrite <- !app_assoc.
  - intros json s w' Hdata. unfold load_resume. by rewrite Hdata.
  - intros v w'. by apply load_call_hit.
Qed.

End LoaderProperties.

(** *** Traces of the loader *)

Section LoaderExamples.
Import JS GlyphLoader.

(** C4 on a loader that has loaded 木: loading it again by character or by
    identifier answers from the cache, and whatever else is loaded the
    entry stays and u6728 is not requested again. *)
Lemma cache_grows_witness :
  let tree := VStr "1:0:0:10:10:50:50" in
  let w := run [Call "木"; Settle 0 (Body (glyph "u6728" tree))] start in
  let es := [Call "木"; Call "u65e5"; Call "u6728";
             Settle 0 (Body (glyph "u65e5" (VStr "99:0:0:0:0:200:200:u6728")))] in
  load_call "木" w = (w, Returned tree)
  /\ cache (loader (run es w)) !! "u6728" = Some tree
  /\ fetched (run es w) = ["u6728"; "u65e5"]
  /\ dom (cache (loader w)) ⊆ dom (cache (loader (run es w))).
Proof.
  intros tree w es.
  destruct (cache_grows es w) as (Hkeys & Hhit & Hsettled).
  assert (Hw : settled w "u6728" tree).
  { split; [reflexivity|]. split; [reflexivity|]. apply not_elem_of_nil. }
  destruct (Hsettled "u6728" tree Hw) as [(Hget & _ & _) _].
  split; [exact (Hhit "木" "u6728" tree eq_refl eq_refl eq_refl)|].
  split; [exact Hget|]. split; [reflexivity|exact Hkeys].
Defined.

(** C4 fails as stated.  One call [load("uA")] for a definition that
    refers to uB twice issues two requests for uB, and the second response
    overwrites the entry the first one made. *)
Lemma duplicate_reference_fetched_twice :
  let uA := VStr "99:0:0:0:0:200:100:uB$99:0:0:0:100:200:200:uB" in
  let es := [Call "uA"; Settle 0 (Body (glyph "uA" uA));
             Settle 0 (Body (glyph "uB" (VStr "1:0:0:10:10:50:50")))] in
  fetched (run es start) = ["uA"; "uB"; "uB"]
  /\ inflight (run es start) = ["uB"]
  /\ cache (loader (run es start)) !! "uB" = Some (VStr "1:0:0:10:10:50:50")
  /\ cache (loader (run (es ++ [Settle 0 (Body (glyph "uB" (VStr "1:0:0:20:20:60:60")))])
                       start)) !! "uB"
     = Some (VStr "1:0:0:20:20:60:60").
Proof. repeat split. Qed.

(** C5 on 木 and a new loader. *)
Lemma concurrent_calls_fetch_twice_witness :
  run [Call "木"; Call "木"] start =
    {| loader := new; inflight := ["u6728"; "u6728"]; fetched := ["u6728"; "u6728"] |}.
Proof.
  exact (proj1 (concurrent_calls_fetch_twice "木" "u6728" start eq_refl eq_refl)).
Defined.

(** C5 fails as stated: [load("木")] called twice before either request
    settles sends two requests for u6728, and when the two responses differ
    the two callers get different texts. *)
Lemma two_calls_two_fetches :
  let w := run [Call "木"; Call "木"] start in
  let first := load_resume "u6728" (Body (glyph "u6728" (VStr "1:0:0:10:10:50:50")))
                 {| loader := loader w; inflight := ["u6728"]; fetched := fetched w |} in
  let second := load_resume "u6728" (Body (glyph "u6728" (VStr "1:0:0:20:20:60:60")))
                  {| loader := loader first.1; inflight := []; fetched := fetched w |} in
  fetched w = ["u6728"; "u6728"]
  /\ first.2 = VStr "1:0:0:10:10:50:50"
  /\ second.2 = VStr "1:0:0:20:20:60:60".
Proof. repeat split. Qed.

(** C9 fails in the program.  A response whose [data] is [null] makes
    [load] answer [null], yet leaves the entry [u6728 -> null] in the
    cache; a response whose [data] is the number 5 leaves an entry that
    later calls answer from. *)
Lemma malformed_data_is_cached :
  let w0 := {| loader := new; inflight := []; fetched := ["u6728"] |} in
  let failed := load_resume "u6728" (Body (glyph "u6728" VNull)) w0 in
  let poisoned := load_resume "u6728" (Body (glyph "u6728" (VNum 5))) w0 in
  run [Call "u6728"] start
    = {| loader := new; inflight := ["u6728"]; fetched := ["u6728"] |}
  /\ failed.2 = VNull
  /\ cache (loader failed.1) !! "u6728" = Some VNull
  /\ poisoned.2 = VNull
  /\ cache (loader poisoned.1) !! "u6728" = Some (VNum 5)
  /\ load_call "u6728" poisoned.1 = (poisoned.1, Returned (VNum 5)).
Proof. repeat split. Qed.

(** The other half of C9 holds: a rejected request, or a document that is
    [null], changes nothing and answers [null]. *)
Lemma failed_fetch_leaves_cache (id : string) (w : world) :
  load_resume id Rejected w = (w, VNull)
  /\ load_resume id (Body VNull) w = (w, VNull).
Proof. by split. Qed.

End LoaderExamples.

(** ** More on the edit history *)

Section EditorLaws.
Import JS KanjiEditorState EditorRuns.
Local Open Scope float_scope.

Lemma obj_get_set_eq (o : obj) (k : string) (v : value) :
  obj_get (obj_set o k v) k = v.
Proof.
  induction o as [|[k' v'] o IH]; cbn.
  - by rewrite String.eqb_refl.
  - destruct (String.eqb k' k) eqn:Hk; cbn.
    + by rewrite String.eqb_refl.
    + by rewrite Hk.
Qed.

Lemma obj_get_set_ne (o : obj) (k k' : string) (v : value) :
  k <> k' -> obj_get (obj_set o k v) k' = obj_get o k'.
Proof.
  intros Hne. induction o as [|[k0 v0] o IH]; cbn.
  - by apply String.eqb_neq in Hne as ->.
  - destruct (String.eqb k0 k) eqn:Hk; cbn.
    + apply String.eqb_eq in Hk as ->.
      by apply String.eqb_neq in Hne as ->.
    + by rewrite IH.
Qed.

Lemma undo_update (newData newSize newArea : value) (ed : t) :
  undo (update newData newSize newArea ed) = (true, ed).
Proof.
  destruct ed as [h st]. unfold undo, update. cbn [history state].
  rewrite last_snoc, length_app. cbn [length].
  replace (length h + 1 - 1)%nat with (length h) by lia.
  by rewrite take_app_length.
Qed.

(** X1.  [update] writes exactly the three fields: whatever object is current,
    even one that lacks them, [getCurrent] then reads the three values
    given, and every other property reads as before. *)
Theorem update_writes_three_fields (newData newSize newArea : value) (ed : t) :
  let cur := getCurrent (update newData newSize newArea ed) in
  obj_get cur "data" = newData
  /\ obj_get cur "logicalSize" = newSize
  /\ obj_get cur "area" = newArea
  /\ (forall k, k <> "data" -> k <> "logicalSize" -> k <> "area" ->
        obj_get cur k = obj_get (state ed) k)
  /\ history (update newData newSize newArea ed) = history ed ++ [state ed].
Proof.
  cbn. repeat split.
  - rewrite !obj_get_set_ne by done. apply obj_get_set_eq.
  - rewrite obj_get_set_ne by done. apply obj_get_set_eq.
  - apply obj_get_set_eq.
  - intros k Hd Hs Ha. by rewrite !obj_get_set_ne.
Qed.

(** X2.  [undo] takes back [update]: on any editor, with any history and any
    current object, an [update] followed by an [undo] succeeds and gives the
    editor as it was, history included. *)
Theorem undo_takes_back_update (newData newSize newArea : value) (ed : t) :
  undo (update newData newSize newArea ed) = (true, ed)
  /\ (undo ed).1 = negb (bool_decide (history ed = [])).
Proof.
  split; [apply undo_update|].
  destruct ed as [h st]. unfold undo. cbn [history].
  destruct h as [|s h] using rev_ind; [done|].
  rewrite last_snoc. cbn. rewrite bool_decide_eq_false_2; [done|].
  by destruct h.
Qed.

Lemma undos_updates (us : list (value * value * value)) (ed : t) :
  undos (length us) (updates us ed) = ed.
Proof.
  revert ed. induction us as [|u us IH] using rev_ind; intros ed; [done|].
  unfold updates. rewrite foldl_snoc, length_app. cbn [length].
  replace (length us + 1)%nat with (S (length us)) by lia.
  unfold undos. rewrite Nat.iter_succ_r.
  rewrite undo_update. apply IH.
Qed.

Lemma updates_snoc (us : list (value * value * value)) (u : value * value * value)
    (ed : t) :
  updates (us ++ [u]) ed = update u.1.1 u.1.2 u.2 (updates us ed).
Proof. unfold updates. by rewrite foldl_snoc. Qed.

Lemma history_updates (us : list (value * value * value)) (ed : t) :
  length (history (updates us ed)) = (length (history ed) + length us)%nat.
Proof.
  induction us as [|u us IH] using rev_ind; [cbn; lia|].
  rewrite updates_snoc. cbn [update history].
  rewrite !length_app, IH. cbn. lia.
Qed.

(** Undoing [k] of the updates leaves the editor where the first
    [length us - k] of them had brought it. *)
Lemma undos_some_updates (us : list (value * value * value)) (k : nat) (ed : t) :
  (k <= length us)%nat ->
  undos k (updates us ed) = updates (take (length us - k) us) ed.
Proof.
  induction k as [|k IH]; intros Hk.
  - by rewrite Nat.sub_0_r, firstn_all.
  - change (undos (S k) (updates us ed)) with (undo (undos k (updates us ed))).2.
    rewrite IH by lia.
    destruct (lookup_lt_is_Some_2 us (length us - S k)) as [u Hu]; [lia|].
    replace (length us - k)%nat with (S (length us - S k)) by lia.
    rewrite (take_S_r _ _ _ Hu), updates_snoc.
    by rewrite undo_update.
Qed.

(** X3.  After [reset(d)] and any number of updates, exactly as many undos
    succeed as there were updates: each of them succeeds, together they lead
    back to the starting state with an empty history, and the next one fails
    and changes nothing. *)
Theorem undo_depth (d : value) (us : list (value * value * value)) (ed : t) :
  let ed' := updates us (reset d ed) in
  let origin := {| history := []; state := starting_state d |} in
  length (history ed') = length us
  /\ (forall k, (k < length us)%nat -> (undo (undos k ed')).1 = true)
  /\ undos (length us) ed' = origin
  /\ undo (undos (length us) ed') = (false, origin).
Proof.
  intros ed' origin. split; [|split; [|split]].
  - unfold ed'. by rewrite history_updates.
  - intros k Hk. unfold ed'. rewrite undos_some_updates by lia.
    destruct (lookup_lt_is_Some_2 us (length us - S k)) as [u Hu]; [lia|].
    replace (length us - k)%nat with (S (length us - S k)) by lia.
    rewrite (take_S_r _ _ _ Hu), updates_snoc.
    by rewrite undo_update.
  - apply undos_updates.
  - unfold ed'. by rewrite undos_updates.
Qed.

Lemma jsonify_defined (v : value) : jsonify v <> VUndefined.
Proof. destruct v; cbn; try done. by destruct (is_finite n). Qed.

Lemma json_number_idem (n : float) :
  is_finite n = true ->
  is_finite (json_number n) = true /\ json_number (json_number n) = json_number n.
Proof.
  intros Hn. unfold json_number. destruct (is_zero n) eqn:Hz; [done|].
  by rewrite Hn, Hz.
Qed.

Lemma jsonify_props_cons_defined (k : string) (v : value) (o : obj) :
  v <> VUndefined -> jsonify_props ((k, v) :: o) = (k, jsonify v) :: jsonify_props o.
Proof. by destruct v. Qed.

(** What is read back is written again as it is. *)
Lemma jsonify_idem : forall v : value, jsonify (jsonify v) = jsonify v.
Proof.
  fix IH 1. intros [| |b|n|s|items|props]; try reflexivity.
  - cbn [jsonify]. destruct (is_finite n) eqn:Hn; [|reflexivity].
    destruct (json_number_idem n Hn) as [Hfin Hidem].
    cbn [jsonify]. by rewrite Hfin, Hidem.
  - cbn [jsonify]. f_equal.
    induction items as [|item items IHitems]; [reflexivity|].
    cbn [map]. f_equal; [apply IH|apply IHitems].
  - change (VObj (jsonify_props (jsonify_props props)) = VObj (jsonify_props props)).
    f_equal.
    induction props as [|[k v] props IHprops]; [reflexivity|].
    pose proof (IH v) as Hv.
    assert (Hcase : v = VUndefined \/ v <> VUndefined) by (destruct v; auto).
    destruct Hcase as [->|Hdef]; [exact IHprops|].
    rewrite (jsonify_props_cons_defined k v) by done.
    rewrite jsonify_props_cons_defined by apply jsonify_defined.
    by rewrite Hv, IHprops.
Qed.

(** X4.  An exported text is a fixed point of the round trip: when importing it
    succeeds, into whatever editor, exporting again gives the same text.
    This holds also where the first export lost something (a number that
    was not finite, a property that was [undefined]). *)
Theorem export_is_stable (ed other restored : t) :
  importJson (exportJson ed) other = (true, restored) ->
  exportJson restored = exportJson ed
  /\ history restored = []
  /\ state restored = jsonify_props (state ed).
Proof.
  unfold exportJson, JSON_stringify. rewrite importJson_parsed.
  destruct (_ && _); [|discriminate]. intros [= <-]. cbn [state history].
  split; [|done]. f_equal.
  pose proof (jsonify_idem (VObj (state ed))) as Hidem.
  exact Hidem.
Qed.

(** The stability of the export for an editor that was updated with an
    area that is not a number and then given a finite area again. *)
Lemma export_is_stable_witness :
  let ed := update (VStr "1:0:0:10:10:50:50") (VNum neg_zero) (VNum 40000)
              (update (VStr "") (VNum 200) (VNum nan) new) in
  let restored := {| history := [];
                     state := [("data", VStr "1:0:0:10:10:50:50");
                               ("logicalSize", VNum 0); ("area", VNum 40000)] |} in
  importJson (exportJson ed) new = (true, restored)
  /\ exportJson restored = exportJson ed.
Proof.
  intros ed restored. split; [reflexivity|].
  exact (proj1 (export_is_stable ed new restored eq_refl)).
Defined.

End EditorLaws.

(** ** More on the loader *)

Section LoaderLaws.
Import JS GlyphLoader LoaderSpec.

Implicit Types (w : world) (id nameOrId refId : string) (v : value).

Lemma resolve_is_id nameOrId id : resolve nameOrId = Some id -> is_id id.
Proof.
  unfold resolve, is_id. destruct (startsWith nameOrId "u") eqn:Hu.
  - by intros [= <-].
  - unfold charToId. destruct (codePointAt0 nameOrId); [|done]. by intros [= <-].
Qed.

Lemma resolve_nonempty nameOrId : nameOrId <> "" -> is_Some (resolve nameOrId).
Proof.
  intros Hne. unfold resolve. destruct (startsWith nameOrId "u"); [by eexists|].
  unfold charToId. destruct nameOrId; [done|]. by eexists.
Qed.

(** An identifier is never a name that [Object.prototype] defines, so for
    identifiers the two readings of the cache agree. *)
Lemma cache_truthy_id (c : gmap string value) id :
  is_id id -> cache_truthy c id = truthy (cache_get c id).
Proof.
  unfold is_id, cache_truthy, cache_get. intros Hid.
  destruct (c !! id); [done|]. cbn.
  apply bool_decide_eq_false_2. intros Hin.
  unfold Object_prototype_names in Hin.
  repeat (apply elem_of_cons in Hin as [->|Hin]; [discriminate Hid|]).
  by apply elem_of_nil in Hin.
Qed.

Ltac nothing_new :=
  split; [done|]; exists []; rewrite !app_nil_r;
  repeat split; [constructor|by intros ? ?%elem_of_nil].

(** A call changes nothing of the cache and only adds to the requests. *)
Lemma load_call_frame nameOrId w :
  loader (load_call nameOrId w).1 = loader w
  /\ exists new, fetched (load_call nameOrId w).1 = fetched w ++ new
              /\ inflight (load_call nameOrId w).1 = inflight w ++ new
              /\ Forall is_id new
              /\ forall id, id ∈ new ->
                    truthy (cache_get (cache (loader w)) id) = false.
Proof.
  unfold load_call. destruct (resolve nameOrId) as [id|] eqn:Hid.
  - destruct (truthy (cache_get (cache (loader w)) id)) eqn:Hhit; cbn.
    + nothing_new.
    + split; [done|]. exists [id]. repeat split.
      * repeat constructor. by eapply resolve_is_id.
      * by intros id' ->%list_elem_of_singleton.
  - nothing_new.
Qed.

Lemma scan_line_ref w line :
  scan_line w line =
    match line_ref line with
    | Some refId =>
        if cache_truthy (cache (loader w)) refId then w else (load_call refId w).1
    | None => w
    end.
Proof.
  unfold scan_line, line_ref.
  destruct (split ":" line !! 0%nat) as [kind|]; [|done].
  destruct (String.eqb kind "99") eqn:Hkind.
  - apply String.eqb_eq in Hkind as ->.
    destruct (split ":" line !! 7%nat) as [refId|]; [|done]. cbn.
    destruct (String.eqb refId ""); cbn; [done|].
    by destruct (cache_truthy (cache (loader w)) refId).
  - assert (Hw : match kind with "99" => w | _ => w end = w)
      by (repeat (case_match; try done)).
    destruct (split ":" line !! 7%nat) as [refId|]; cbn.
    + repeat (case_match; try done); subst; discriminate.
    + repeat (case_match; try done).
Qed.

Lemma scan_line_frame w line :
  loader (scan_line w line) = loader w
  /\ exists new, fetched (scan_line w line) = fetched w ++ new
              /\ inflight (scan_line w line) = inflight w ++ new
              /\ Forall is_id new
              /\ forall id, id ∈ new ->
                    truthy (cache_get (cache (loader w)) id) = false.
Proof.
  rewrite scan_line_ref.
  destruct (line_ref line) as [refId|];
    [destruct (cache_truthy (cache (loader w)) refId)|];
    try apply load_call_frame; nothing_new.
Qed.

Lemma scan_lines_frame (lines : list string) w :
  loader (foldl scan_line w lines) = loader w
  /\ exists new, fetched (foldl scan_line w lines) = fetched w ++ new
              /\ inflight (foldl scan_line w lines) = inflight w ++ new
              /\ Forall is_id new
              /\ forall id, id ∈ new ->
                    truthy (cache_get (cache (loader w)) id) = false.
Proof.
  revert w. induction lines as [|line lines IH]; intros w; cbn [foldl].
  { nothing_new. }
  destruct (scan_line_frame w line) as (Hl1 & new1 & Hf1 & Hi1 & Hid1 & Hmiss1).
  destruct (IH (scan_line w line)) as (Hl2 & new2 & Hf2 & Hi2 & Hid2 & Hmiss2).
  split; [congruence|]. exists (new1 ++ new2).
  rewrite Hf2, Hf1, Hi2, Hi1, <- !app_assoc. repeat split.
  - by apply Forall_app.
  - intros id [Hin|Hin]%elem_of_app; [by apply Hmiss1|].
    rewrite <- Hl1. by apply Hmiss2.
Qed.

Lemma line_ref_nonempty (line refId : string) :
  line_ref line = Some refId -> refId <> "".
Proof.
  unfold line_ref. repeat case_match; try done. intros [= <-] ->.
  by rewrite andb_false_r in *.
Qed.

Lemma scan_line_provides w line refId :
  line_ref line = Some refId -> provided (scan_line w line) refId.
Proof.
  intros Href. rewrite scan_line_ref, Href.
  destruct (cache_truthy (cache (loader w)) refId) eqn:Hhit; [by left|].
  right. destruct (resolve_nonempty refId) as [id Hid];
    [by eapply line_ref_nonempty|].
  exists id. split; [done|]. unfold load_call. rewrite Hid.
  destruct (truthy (cache_get (cache (loader w)) id)) eqn:Hid'; cbn.
  - by left.
  - right. apply elem_of_app. right. by apply list_elem_of_singleton.
Qed.

Lemma provided_frame w w' refId (new : list string) :
  loader w' = loader w -> fetched w' = fetched w ++ new ->
  provided w refId -> provided w' refId.
Proof.
  intros Hl Hf [Hhit|(id & Hid & [Hhit|Hin])]; unfold provided; rewrite Hl, Hf.
  - by left.
  - right. exists id. auto.
  - right. exists id. split; [done|]. right. apply elem_of_app. by left.
Qed.

Lemma scan_lines_provide (lines : list string) w :
  Forall (provided (foldl scan_line w lines)) (omap line_ref lines).
Proof.
  revert w. induction lines as [|line lines IH]; intros w; cbn; [constructor|].
  destruct (line_ref line) as [refId|] eqn:Href; [|apply IH].
  constructor; [|apply IH].
  destruct (scan_lines_frame lines (scan_line w line)) as (Hl & new & Hf & _).
  eapply provided_frame; [exact Hl|exact Hf|].
  by apply scan_line_provides.
Qed.

Lemma fetches_of_app id w w' (new : list string) :
  fetched w' = fetched w ++ new -> id ∉ new -> fetches_of id w' = fetches_of id w.
Proof.
  intros Hf Hnew. unfold fetches_of. rewrite Hf, filter_app.
  replace (filter (eq id) new) with (@nil string); [by rewrite app_nil_r|].
  symmetry. clear Hf. induction new as [|x new IH]; [done|].
  apply not_elem_of_cons in Hnew as [Hx Hnew].
  rewrite filter_cons_False by done. by apply IH.
Qed.

(** X5.  A response that carries a text is answered with that text, the text is
    stored under the identifier before its records are looked at, and when
    the rest of [load] has run every part the text refers to is provided
    for: it has a truthy entry, or a request for it has been issued. *)
Theorem references_are_requested id (json : value) (s : string) w :
  get_prop json "data" = Some (VStr s) ->
  let r := load_resume id (Body json) w in
  r.2 = VStr s
  /\ cache (loader r.1) = <[id := VStr s]> (cache (loader w))
  /\ Forall (provided r.1) (references s).
Proof.
  intros Hdata r. unfold r, load_resume. rewrite Hdata. cbn [fst snd].
  split; [done|]. split.
  - by destruct (scan_lines_frame (split "$" s)
       {| loader := {| cache := <[id:=VStr s]> (cache (loader w)) |};
          inflight := inflight w; fetched := fetched w |}) as [-> _].
  - apply scan_lines_provide.
Qed.

(** 林 refers to two forms of 木, of which one is in the cache: handling the
    response requests the other one only. *)
Lemma references_are_requested_witness :
  let w := {| loader := {| cache := {[ "u6728" := VStr "1:0:0:10:10:50:50" ]} |};
              inflight := []; fetched := ["u6728"; "u6797"] |} in
  let text := "99:0:0:0:0:100:200:u6728-01$99:0:0:100:0:200:200:u6728" in
  let r := load_resume "u6797" (Body (glyph "u6797" (VStr text))) w in
  references text = ["u6728-01"; "u6728"]
  /\ fetched r.1 = ["u6728"; "u6797"; "u6728-01"]
  /\ Forall (provided r.1) (references text).
Proof.
  intros w text r. split; [reflexivity|]. split; [reflexivity|].
  exact (proj2 (proj2 (references_are_requested "u6797"
                         (glyph "u6797" (VStr text)) text w eq_refl))).
Defined.

(** X6.  The rest of [load] never requests an identifier whose entry is truthy
    once the text is stored.  In particular a text that is not empty and
    refers to itself, directly or round a cycle, is not requested again. *)
Theorem cached_parts_are_not_requested id (json : value) (s : string) w id' v :
  get_prop json "data" = Some (VStr s) ->
  <[id := VStr s]> (cache (loader w)) !! id' = Some v ->
  truthy v = true ->
  fetches_of id' (load_resume id (Body json) w).1 = fetches_of id' w
  /\ (s <> "" -> fetches_of id (load_resume id (Body json) w).1 = fetches_of id w).
Proof.
  intros Hdata Hget Hv. unfold load_resume. rewrite Hdata. cbn [fst].
  set (w1 := {| loader := {| cache := <[id:=VStr s]> (cache (loader w)) |};
                inflight := inflight w; fetched := fetched w |}).
  destruct (scan_lines_frame (split "$" s) w1) as (_ & new & Hf & _ & _ & Hmiss).
  split.
  - apply (fetches_of_app id' w _ new); [exact Hf|].
    intros Hin. apply Hmiss in Hin. unfold cache_get in Hin. cbn in Hin.
    rewrite Hget in Hin. cbn in Hin. congruence.
  - intros Hne. apply (fetches_of_app id w _ new); [exact Hf|].
    intros Hin. apply Hmiss in Hin. unfold cache_get in Hin. cbn in Hin.
    rewrite lookup_insert_eq in Hin. cbn in Hin.
    destruct s; [done|discriminate].
Qed.

(** A text that refers to itself: no request for it is added. *)
Lemma cached_parts_are_not_requested_witness :
  let text := "99:0:0:0:0:200:200:u6728$1:0:0:10:10:50:50" in
  let w := {| loader := new; inflight := []; fetched := ["u6728"] |} in
  fetches_of "u6728" (load_resume "u6728" (Body (glyph "u6728" (VStr text))) w).1
  = ["u6728"].
Proof.
  intros text w.
  refine (proj2 (cached_parts_are_not_requested "u6728"
    (glyph "u6728" (VStr text)) text w "u6728" (VStr text) eq_refl eq_refl eq_refl) _).
  discriminate.
Defined.

Lemma canonical_frame w w' (new : list string) :
  canonical w -> loader w' = loader w ->
  fetched w' = fetched w ++ new -> inflight w' = inflight w ++ new ->
  Forall is_id new -> canonical w'.
Proof.
  intros (Hids & Hfly & Hkeys) Hl Hf Hi Hnew. unfold canonical.
  rewrite Hl, Hf, Hi. split; [by apply Forall_app|]. split.
  - intros x [Hx|Hx]%elem_of_app; apply elem_of_app; auto.
  - intros k Hk. apply elem_of_app. auto.
Qed.

Lemma canonical_step w (e : event) : canonical w -> canonical (step w e).
Proof.
  intros Hw. destruct e as [nameOrId|k r]; cbn [step].
  - destruct (load_call_frame nameOrId w) as (Hl & new & Hf & Hi & Hnew & _).
    by eapply canonical_frame.
  - destruct (inflight w !! k) as [id|] eqn:Hk; [|done].
    destruct Hw as (Hids & Hfly & Hkeys).
    assert (Hid : id ∈ fetched w) by (by eapply Hfly, list_elem_of_lookup_2).
    set (w0 := {| loader := loader w; inflight := delete k (inflight w);
                  fetched := fetched w |}).
    assert (Hw0 : canonical w0).
    { split; [done|]. split; [|done]. cbn. intros x Hx. apply Hfly.
      eapply elem_of_sublist; [exact Hx|apply sublist_delete]. }
    unfold load_resume. destruct r as [|json]; [done|].
    destruct (get_prop json "data") as [d|]; [|done].
    set (w1 := {| loader := {| cache := <[id:=d]> (cache (loader w0)) |};
                  inflight := inflight w0; fetched := fetched w0 |}).
    assert (Hw1 : canonical w1).
    { split; [done|]. split; [apply Hw0|]. cbn. intros k'.
      destruct (decide (id = k')) as [<-|Hne]; [done|].
      rewrite lookup_insert_ne by done. apply Hkeys. }
    destruct d; try exact Hw1. cbn [fst].
    destruct (scan_lines_frame (split "$" s) w1) as (Hl & new & Hf & Hi & Hnew & _).
    by eapply canonical_frame.
Qed.

(** X7.  Whatever is called and however the requests settle, starting from a new
    loader every identifier requested and every key of the cache starts
    with [u], every key of the cache was requested before it was written,
    and no key is a name that the cache object inherits. *)
Theorem cache_keys_are_identifiers (es : list event) :
  let w := run es start in
  canonical w
  /\ (forall k, is_Some (cache (loader w) !! k) ->
        is_id k /\ k ∈ fetched w /\ k ∉ Object_prototype_names).
Proof.
  assert (Hrun : forall w0, canonical w0 -> canonical (run es w0)).
  { induction es as [|e es IH]; intros w0 Hw0; [done|].
    cbn [run foldl]. apply IH. by apply canonical_step. }
  intros w. assert (Hw : canonical w).
  { apply Hrun. split; [constructor|]. split; [done|].
    intros k [v Hk]. cbn in Hk. by rewrite lookup_empty in Hk. }
  split; [done|]. intros k Hk. destruct Hw as (Hids & _ & Hkeys).
  assert (Hid : is_id k).
  { eapply Forall_forall in Hids; [exact Hids|by apply Hkeys]. }
  split; [done|]. split; [by apply Hkeys|].
  intros Hin. unfold Object_prototype_names in Hin.
  repeat (apply elem_of_cons in Hin as [->|Hin]; [discriminate Hid|]).
  by apply elem_of_nil in Hin.
Qed.

(** X8.  A failure is not remembered.  When the request of a call is rejected,
    or its document is [null], the loader is as before the call, and the
    next call for the same name sends a new request.  A document with an
    empty text stores the empty text, which is falsy, so the next call
    sends a new request as well. *)
Theorem failed_load_is_retried nameOrId id w :
  resolve nameOrId = Some id ->
  truthy (cache_get (cache (loader w)) id) = false ->
  let settle r := run [Call nameOrId; Settle (length (inflight w)) r] w in
  let again r := load_call nameOrId (settle r) in
  (forall r, r = Rejected \/ r = Body VNull ->
     settle r = {| loader := loader w; inflight := inflight w;
                   fetched := fetched w ++ [id] |}
     /\ (again r).2 = Awaiting id
     /\ fetched (again r).1 = fetched w ++ [id; id])
  /\ cache (loader (settle (Body (glyph id (VStr ""))))) !! id = Some (VStr "")
  /\ (again (Body (glyph id (VStr "")))).2 = Awaiting id.
Proof.
  intros Hid Hmiss settle again.
  assert (Hcall : forall r, settle r =
    (load_resume id r {| loader := loader w; inflight := inflight w;
                         fetched := fetched w ++ [id] |}).1).
  { intros r. unfold settle, run. cbn [foldl step].
    rewrite (load_call_miss nameOrId id w Hid Hmiss). cbn [fst inflight].
    rewrite list_lookup_middle by done. cbn [loader fetched].
    replace (delete (length (inflight w)) (inflight w ++ [id])) with (inflight w);
      [done|].
    rewrite delete_middle by done. by rewrite app_nil_r. }
  split; [|split].
  - intros r Hr.
    assert (Hs : settle r = {| loader := loader w; inflight := inflight w;
                               fetched := fetched w ++ [id] |})
      by (rewrite Hcall; by destruct Hr as [->| ->]).
    split; [exact Hs|]. unfold again. rewrite Hs.
    rewrite (load_call_miss nameOrId id) by done. cbn.
    by rewrite <- app_assoc.
  - rewrite Hcall. cbn. apply lookup_insert_eq.
  - unfold again. rewrite Hcall. cbn.
    rewrite (load_call_miss nameOrId id); [done|done|].
    unfold cache_get. cbn. by rewrite lookup_insert_eq.
Qed.

(** A rejected request for 木 on a new loader, and the call after it. *)
Lemma failed_load_is_retried_witness :
  run [Call "木"; Settle 0 Rejected] start
    = {| loader := new; inflight := []; fetched := ["u6728"] |}
  /\ fetched (run [Call "木"; Settle 0 Rejected; Call "木"] start)
     = ["u6728"; "u6728"].
Proof.
  destruct (proj1 (failed_load_is_retried "木" "u6728" start eq_refl eq_refl)
              Rejected (or_introl eq_refl)) as (Hsettle & _ & Hagain).
  split; [exact Hsettle|exact Hagain].
Defined.

End LoaderLaws.

(** ** Identifiers *)

Section IdentifierLaws.
Import JS GlyphLoader LoaderSpec Codec.
Local Open Scope N_scope.

Lemma hex_digit_value_digit (d : N) : d < 16 -> hex_digit_value (hex_digit d) = Some d.
Proof.
  intros Hd.
  assert (Hcases : d = 0 \/ d = 1 \/ d = 2 \/ d = 3 \/ d = 4 \/ d = 5 \/ d = 6
                   \/ d = 7 \/ d = 8 \/ d = 9 \/ d = 10 \/ d = 11 \/ d = 12
                   \/ d = 13 \/ d = 14 \/ d = 15) by lia.
  repeat (destruct Hcases as [->|Hcases]; [reflexivity|]). by subst.
Qed.

Lemma hex_val_digits (fuel : nat) (n : N) (acc : string) (va pa : N) :
  fuel <> O -> n < 2 ^ N.of_nat fuel -> hex_val acc = Some (va, pa) ->
  exists p, hex_val (hex_digits fuel n acc) = Some (n * pa + va, p).
Proof.
  revert n acc va pa. induction fuel as [|fuel IH]; intros n acc va pa Hfuel Hn Hacc;
    [done|].
  cbn [hex_digits].
  assert (Hstep : hex_val (String (hex_digit (n mod 16)) acc)
                  = Some ((n mod 16) * pa + va, 16 * pa)).
  { cbn [hex_val]. rewrite hex_digit_value_digit, Hacc; [done|].
    by apply N.mod_lt. }
  pose proof (N.div_mod n 16 ltac:(done)) as Hdiv.
  destruct (n / 16 =? 0) eqn:Hq.
  - apply N.eqb_eq in Hq. exists (16 * pa). rewrite Hstep. f_equal. f_equal.
    rewrite Hq, N.mul_0_r, N.add_0_l in Hdiv. by rewrite <- Hdiv.
  - apply N.eqb_neq in Hq.
    assert (Hlt : n / 16 < 2 ^ N.of_nat fuel).
    { apply N.Div0.div_lt_upper_bound.
      rewrite Nat2N.inj_succ, N.pow_succ_r' in Hn.
      revert Hn. generalize (2 ^ N.of_nat fuel). lia. }
    assert (Hfuel' : fuel <> O).
    { intros ->. change (2 ^ N.of_nat 0) with 1 in Hlt. by apply N.lt_1_r in Hlt. }
    destruct (IH (n / 16) _ _ _ Hfuel' Hlt Hstep) as [p Hp].
    exists p. rewrite Hp. f_equal. f_equal.
    clear -Hdiv. set (q := n / 16) in *. set (r := n mod 16) in *.
    clearbody q r. subst n. ring.
Qed.

Lemma lt_pow2_size_nat (n : N) : n < 2 ^ N.of_nat (N.size_nat n).
Proof.
  destruct n as [|p]; [done|]. cbn [N.size_nat].
  induction p as [p IH|p IH|]; cbn [Pos.size_nat];
    rewrite ?Nat2N.inj_succ, ?N.pow_succ_r'; [lia|lia|done].
Qed.

Lemma hex_digits_nonempty (fuel : nat) (n : N) (acc : string) :
  acc <> "" \/ fuel <> O -> hex_digits fuel n acc <> "".
Proof.
  revert n acc. induction fuel as [|fuel IH]; intros n acc Hne.
  - by destruct Hne.
  - cbn [hex_digits]. destruct (n / 16 =? 0); [done|]. apply IH. by left.
Qed.

Lemma toString16_nonempty (n : N) : toString16 n <> "".
Proof. apply hex_digits_nonempty. by right. Qed.

Lemma hex_value_toString16 (n : N) : hex_value (toString16 n) = Some n.
Proof.
  pose proof (toString16_nonempty n) as Hne.
  destruct (hex_val_digits (S (N.size_nat n)) n "" 0 1) as [p Hp]; [done| |done|].
  { pose proof (lt_pow2_size_nat n). rewrite Nat2N.inj_succ, N.pow_succ_r'. lia. }
  unfold hex_value. fold (toString16 n) in Hp.
  destruct (toString16 n); [done|]. rewrite Hp. cbn. f_equal. lia.
Qed.

Lemma land_low_bits (k q n : N) : q < 2 ^ n -> N.land (k * 2 ^ n + q) (N.ones n) = q.
Proof.
  intros Hq. rewrite N.land_ones, N.add_comm, N.Div0.mod_add.
  by apply N.mod_small.
Qed.

(** One continuation byte adds its six low bits below what was read. *)
Lemma utf8_step (acc r : N) :
  r < 64 -> N.lor (N.shiftl acc 6) (N.land (128 + r) 63) = 64 * acc + r.
Proof.
  intros Hr.
  change (128 + r) with (2 * 2 ^ 6 + r). change 63 with (N.ones 6).
  rewrite land_low_bits by done.
  rewrite N.shiftl_mul_pow2.
  assert (Hdisjoint : N.land (acc * 2 ^ 6) r = 0).
  { rewrite <- (land_low_bits 0 r 6 Hr) at 1. cbn [N.mul N.add].
    rewrite N.land_assoc, (N.land_comm _ r), <- N.land_assoc, N.land_ones.
    by rewrite N.Div0.mod_mul, N.land_0_r. }
  rewrite <- N.lxor_lor, <- N.add_nocarry_lxor by done.
  change (2 ^ 6) with 64. lia.
Qed.

Lemma byte_value (n : N) : n < 256 -> N_of_ascii (ascii_of_N n) = n.
Proof. apply N_ascii_embedding. Qed.

(** Reading the first code point of a text that starts with the UTF-8 form
    of [cp] gives [cp]. *)
Lemma codePointAt0_utf8 (cp : N) (rest : string) :
  cp < 2097152 -> codePointAt0 (utf8_encode cp +:+ rest) = Some cp.
Proof.
  intros Hcp. unfold utf8_encode. cbv zeta.
  pose proof (N.div_mod cp 64 ltac:(done)) as H64.
  pose proof (N.mod_lt cp 64 ltac:(done)) as Hr0.
  pose proof (N.div_mod (cp / 64) 64 ltac:(done)) as H4096.
  pose proof (N.mod_lt (cp / 64) 64 ltac:(done)) as Hr1.
  pose proof (N.div_mod (cp / 4096) 64 ltac:(done)) as H262144.
  pose proof (N.mod_lt (cp / 4096) 64 ltac:(done)) as Hr2.
  replace (cp / 64 / 64) with (cp / 4096) in H4096
    by (by rewrite N.Div0.div_div).
  replace (cp / 4096 / 64) with (cp / 262144) in H262144
    by (by rewrite N.Div0.div_div).
  set (q1 := cp / 64) in *. set (q2 := cp / 4096) in *. set (q3 := cp / 262144) in *.
  set (r0 := cp mod 64) in *. set (r1 := q1 mod 64) in *. set (r2 := q2 mod 64) in *.
  clearbody q1 q2 q3 r0 r1 r2.
  destruct (cp <? 128) eqn:H1; [apply N.ltb_lt in H1|apply N.ltb_ge in H1].
  { cbv [String.append]; cbn [codePointAt0]. rewrite byte_value by lia.
    by apply N.ltb_lt in H1 as ->. }
  destruct (cp <? 2048) eqn:H2; [apply N.ltb_lt in H2|apply N.ltb_ge in H2].
  { cbv [String.append]; cbn [codePointAt0 utf8_tail]. rewrite !byte_value by lia.
    rewrite (proj2 (N.ltb_ge _ _)) by lia.
    rewrite (proj2 (N.ltb_lt _ _)) by lia.
    change (192 + q1) with (6 * 2 ^ 5 + q1). change 31 with (N.ones 5).
    rewrite land_low_bits by (change (2 ^ 5) with 32; lia).
    rewrite utf8_step by done. f_equal. lia. }
  destruct (cp <? 65536) eqn:H3; [apply N.ltb_lt in H3|apply N.ltb_ge in H3].
  { cbv [String.append]; cbn [codePointAt0 utf8_tail]. rewrite !byte_value by lia.
    rewrite !(proj2 (N.ltb_ge _ 128)) by lia.
    rewrite (proj2 (N.ltb_ge _ _)) by lia.
    rewrite (proj2 (N.ltb_lt _ _)) by lia.
    change (224 + q2) with (14 * 2 ^ 4 + q2). change 15 with (N.ones 4).
    rewrite land_low_bits by (change (2 ^ 4) with 16; lia).
    rewrite !utf8_step by done. f_equal. lia. }
  cbv [String.append]; cbn [codePointAt0 utf8_tail]. rewrite !byte_value by lia.
  rewrite !(proj2 (N.ltb_ge _ _)) by lia.
  change (240 + q3) with (30 * 2 ^ 3 + q3). change 7 with (N.ones 3).
  rewrite land_low_bits by (change (2 ^ 3) with 8; lia).
  rewrite !utf8_step by done. f_equal. lia.
Qed.

(** X9.  [charToId] is ['u'] and the lower-case hexadecimal digits of the first
    code point of its argument, for every code point: the digits read back
    as the code point, so different code points get different identifiers,
    and the identifier is in the form that [load] uses as it is. *)
Theorem charToId_of_code_point (cp : N) (rest : string) :
  cp < 1114112 ->
  let id := String "u" (toString16 cp) in
  charToId (utf8_encode cp +:+ rest) = Some id
  /\ hex_value (toString16 cp) = Some cp
  /\ resolve id = Some id
  /\ (forall cp' rest', cp' < 1114112 ->
        charToId (utf8_encode cp' +:+ rest') = Some id -> cp' = cp).
Proof.
  intros Hcp id.
  split; [|split; [|split]].
  - unfold charToId. by rewrite codePointAt0_utf8 by lia.
  - apply hex_value_toString16.
  - reflexivity.
  - intros cp' rest' Hcp' Hid. unfold charToId in Hid.
    rewrite codePointAt0_utf8 in Hid by lia.
    injection Hid as Hdigits.
    pose proof (hex_value_toString16 cp') as Hback.
    rewrite Hdigits, hex_value_toString16 in Hback. congruence.
Qed.

(** 木 is U+6728. *)
Lemma charToId_of_code_point_witness :
  utf8_encode 26408 = "木" /\ charToId "木" = Some "u6728"
  /\ hex_value "6728" = Some 26408.
Proof.
  destruct (charToId_of_code_point 26408 "" eq_refl) as (Hid & Hhex & _).
  split; [reflexivity|]. split; [exact Hid|exact Hhex].
Defined.

(** X10.  Loading by character and loading by the identifier of the character
    are the same call: the same outcome and the same world. *)
Theorem load_by_char_or_id (nameOrId id : string) (w : world) :
  resolve nameOrId = Some id ->
  resolve id = Some id /\ load_call id w = load_call nameOrId w.
Proof.
  intros Hid. pose proof (resolve_is_id _ _ Hid) as Hu.
  assert (Hres : resolve id = Some id).
  { unfold resolve. unfold is_id in Hu. by rewrite Hu. }
  split; [exact Hres|]. unfold load_call. by rewrite Hid, Hres.
Qed.

Lemma load_by_char_or_id_witness :
  load_call "u6728" start = load_call "木" start.
Proof. exact (proj2 (load_by_char_or_id "木" "u6728" start eq_refl)). Defined.

End IdentifierLaws.

(** ** More on the composition engine *)

Section NaN.
Import JS.
Local Open Scope float_scope.

Lemma nan_spec (x : float) : Prim2SF x = S754_nan -> x = nan.
Proof. intros Hx. by apply Prim2SF_inj. Qed.

Lemma mul_nan_r (x : float) : x * nan = nan.
Proof.
  apply nan_spec. rewrite mul_spec. change (Prim2SF nan) with S754_nan.
  by destruct (Prim2SF x).
Qed.

Lemma mul_nan_l (x : float) : nan * x = nan.
Proof. apply nan_spec. by rewrite mul_spec. Qed.

Lemma add_nan_r (x : float) : x + nan = nan.
Proof.
  apply nan_spec. rewrite add_spec. change (Prim2SF nan) with S754_nan.
  by destruct (Prim2SF x).
Qed.

Lemma sub_nan_l (x : float) : nan - x = nan.
Proof. apply nan_spec. by rewrite sub_spec. Qed.

Lemma div_nan_l (x : float) : nan / x = nan.
Proof. apply nan_spec. by rewrite div_spec. Qed.

Lemma add_nan_l (x : float) : nan + x = nan.
Proof. apply nan_spec. by rewrite add_spec. Qed.

Lemma floor_nan : floor nan = nan.
Proof. reflexivity. Qed.

End NaN.

Section ComposerLaws.
Import JS KanjiComposer PlacementSpec ComposerSpec.
Local Open Scope float_scope.

Variable getEachStrokes : list (string * value) -> string -> list stroke.
Variable Number_toString : float -> string.
Variable loader : GlyphLoader.t.

Abbreviation flatten := (flatten getEachStrokes loader).
Abbreviation compose := (compose getEachStrokes Number_toString loader).
Abbreviation compose_strokes := (compose_strokes getEachStrokes loader).
Abbreviation stringify := (stringify Number_toString).

(** *** A layout the chain does not know *)

Lemma place_unknown (layoutMode : string) (cur f : float) :
  layoutMode ∉ known_layouts ->
  place layoutMode cur f = Boxes cur Rect.empty Rect.empty.
Proof.
  intros Hunknown. unfold place.
  repeat (match goal with
          | |- context [String.eqb layoutMode ?l] =>
              destruct (String.eqb layoutMode l) eqn:Hl;
              [apply String.eqb_eq in Hl; subst layoutMode; destruct Hunknown;
               unfold known_layouts; cbn; rewrite !elem_of_cons; by auto 20|clear Hl]
          end).
  reflexivity.
Qed.

Lemma imap_nan (f : nat -> float -> float) (l : list float) :
  (forall k v, f k v = nan) -> imap f l = replicate (length l) nan.
Proof.
  revert f. induction l as [|v l IH]; intros f Hf; [done|].
  cbn. rewrite Hf. f_equal. apply IH. intros k v'. apply Hf.
Qed.

Lemma transformStrokes_empty (strokes : list stroke) (src : option Rect.t) :
  transformStrokes strokes Rect.empty src
  = map (fun s => blanked s (length s - 3)) strokes.
Proof.
  unfold transformStrokes. cbv zeta. apply map_ext. intros s.
  unfold blanked. f_equal. rewrite imap_nan; [by rewrite length_drop|].
  intros k v. cbn [Rect.w Rect.h Rect.x Rect.y Rect.empty].
  rewrite !div_nan_l, !sub_nan_l, !add_nan_r, floor_nan. by destruct (Nat.even k).
Qed.

Lemma paired_SS (n : nat) : paired (S (S n)) = S (S (paired n)).
Proof.
  unfold paired. change (Nat.odd (S (S n))) with (Nat.odd n).
  by destruct (Nat.odd n).
Qed.

Lemma remap_pairs_nan (coords : list float) :
  remap_pairs nan nan nan nan coords = replicate (paired (length coords)) nan.
Proof.
  enough (H : remap_pairs nan nan nan nan coords = replicate (paired (length coords)) nan
              /\ forall v, remap_pairs nan nan nan nan (v :: coords)
                           = replicate (paired (length (v :: coords))) nan)
    by apply H.
  induction coords as [|vy coords [IH0 IH1]].
  - split; [done|]. intros v. cbn [remap_pairs].
    by rewrite !mul_nan_r, !add_nan_r, floor_nan.
  - split; [apply IH1|]. intros vx. cbn [remap_pairs length].
    by rewrite !mul_nan_r, !add_nan_r, floor_nan, IH0, paired_SS.
Qed.

Lemma transformCurrent_empty (strokes : list stroke) (cur : float) :
  transformCurrent strokes Rect.empty cur
  = map (fun s => blanked s (paired (length s - 3))) strokes.
Proof.
  rewrite transformCurrent_pairs. apply map_ext. intros s.
  cbn [Rect.w Rect.h Rect.x Rect.y Rect.empty].
  by rewrite !div_nan_l, remap_pairs_nan, length_drop.
Qed.

(** X11.  A layout mode that is none of the eight is not refused: [compose] keeps
    the size (floored), applies the area rule to the unchanged size, and
    returns every record with its fields 0 to 2 and NaN for every coordinate,
    the missing [y] of a record with a last lone [x] included. *)
Theorem unknown_layout_gives_nan (currentData partData layoutMode : string)
    (currentLogicalSize currentArea areaFactor : float) (partRect : option Rect.t) :
  layoutMode ∉ known_layouts ->
  compose_strokes currentData partData layoutMode
      currentLogicalSize currentArea areaFactor partRect
  = (map (fun s => blanked s (paired (length s - 3))) (flatten currentData)
       ++ map (fun s => blanked s (length s - 3)) (flatten partData),
     floor currentLogicalSize,
     currentArea
     + (currentArea * (currentLogicalSize / currentLogicalSize) - currentArea)
       * areaFactor).
Proof.
  intros Hunknown. unfold KanjiComposer.compose_strokes.
  rewrite place_unknown by done.
  by rewrite transformCurrent_empty, transformStrokes_empty.
Qed.

(** *** Records whose coordinates do not come in pairs *)

Lemma length_remap_pairs_any (sx ox sy oy : float) (coords : list float) :
  length (remap_pairs sx ox sy oy coords) = paired (length coords)
  /\ (Nat.odd (length coords) = true ->
      last (remap_pairs sx ox sy oy coords) = Some nan).
Proof.
  enough (H : (length (remap_pairs sx ox sy oy coords) = paired (length coords)
               /\ (Nat.odd (length coords) = true ->
                   last (remap_pairs sx ox sy oy coords) = Some nan))
              /\ forall v,
                  length (remap_pairs sx ox sy oy (v :: coords))
                  = paired (length (v :: coords))
                  /\ (Nat.odd (length (v :: coords)) = true ->
                      last (remap_pairs sx ox sy oy (v :: coords)) = Some nan))
    by apply H.
  induction coords as [|vy coords [[IHlen IHlast] IH1]].
  - split; [by split|]. intros v. split; [done|]. intros _. cbn [remap_pairs last].
    by rewrite mul_nan_l, add_nan_l, floor_nan.
  - split; [apply IH1|]. intros vx. cbn [remap_pairs length]. split.
    + by rewrite IHlen, paired_SS.
    + intros Hodd. change (Nat.odd (S (S (length coords))))
        with (Nat.odd (length coords)) in Hodd.
      specialize (IHlast Hodd).
      destruct (remap_pairs sx ox sy oy coords); [done|exact IHlast].
Qed.

Lemma transformCurrent_remapped (strokes : list stroke) (box : Rect.t) (cur : float) :
  Forall2 (remapped box cur) (transformCurrent strokes box cur) strokes.
Proof.
  rewrite transformCurrent_pairs.
  induction strokes as [|s strokes IH]; constructor; [|exact IH].
  destruct (length_remap_pairs_any (Rect.w box / cur) (Rect.x box)
              (Rect.h box / cur) (Rect.y box) (drop 3 s)) as [Hlen Hlast].
  rewrite length_drop in Hlen, Hlast.
  split; [done|split].
  - by rewrite length_app, Hlen.
  - intros Hodd. specialize (Hlast Hodd).
    destruct (remap_pairs _ _ _ _ (drop 3 s)) as [|v coords] eqn:Hcoords; [done|].
    rewrite <- Hlast. by rewrite last_app_cons.
Qed.

(** X12.  Without any condition on the records, a layout other than
    [TRIANGLE] places two boxes and returns one record per existing record
    and then one per record of the part.  An existing record keeps its
    fields 0 to 2 and has every x and y remapped into the box of the
    composite and floored; one whose coordinates end in a lone [x] comes out
    one longer, a NaN standing where its [y] would be.  A record of the part
    is placed into the box of the part from the source region, and keeps
    its length whatever it is. *)
Theorem lone_coordinate_grows_record (currentData partData layoutMode : string)
    (currentLogicalSize currentArea areaFactor : float) (partRect : option Rect.t) :
  layoutMode <> "TRIANGLE" ->
  let out := (compose_strokes currentData partData layoutMode
                currentLogicalSize currentArea areaFactor partRect).1.1 in
  let n := length (flatten currentData) in
  let region := default {| Rect.x := 0; Rect.y := 0; Rect.w := 1; Rect.h := 1 |} partRect in
  exists nextLogicalSize boxCurrent boxPart,
    place layoutMode currentLogicalSize areaFactor
    = Boxes nextLogicalSize boxCurrent boxPart
    /\ length out = (n + length (flatten partData))%nat
    /\ Forall2 (remapped boxCurrent currentLogicalSize) (take n out) (flatten currentData)
    /\ drop n out = map (fitted boxPart region) (flatten partData)
    /\ Forall2 same_frame (drop n out) (flatten partData).
Proof.
  intros Hlayout out n region. unfold out, KanjiComposer.compose_strokes.
  destruct (place_boxes layoutMode currentLogicalSize areaFactor Hlayout)
    as (boxCurrent & boxPart & ->).
  exists (table_size layoutMode currentLogicalSize), boxCurrent, boxPart.
  cbn [fst].
  assert (Hn : length (transformCurrent (flatten currentData) boxCurrent
                         currentLogicalSize) = n)
    by (unfold transformCurrent; by rewrite length_map).
  split; [done|]. split; [|split; [|split]].
  - by rewrite length_app, Hn, length_transformStrokes.
  - rewrite take_app_length' by done. apply transformCurrent_remapped.
  - rewrite drop_app_length' by done. apply transformStrokes_fitted.
  - rewrite drop_app_length' by done. apply transformStrokes_frames.
Qed.

(** *** The text of a composite reads back *)

Lemma split_clean (c : ascii) (s : string) : has_char c s = false -> split c s = [s].
Proof.
  induction s as [|a s IH]; [done|]. cbn [has_char split].
  intros [Ha Hs]%orb_false_elim. by rewrite Ha, IH.
Qed.

Lemma split_app_sep (c : ascii) (p rest : string) :
  has_char c p = false ->
  split c (p +:+ String c rest) = p :: split c rest.
Proof.
  induction p as [|a p IH].
  - intros _. cbv [String.append]. cbn [split]. by rewrite Ascii.eqb_refl.
  - cbn [has_char]. intros [Ha Hp]%orb_false_elim.
    change (String a p +:+ String c rest) with (String a (p +:+ String c rest)).
    cbn [split]. by rewrite Ha, IH.
Qed.

Lemma join_cons_cons (sep p q : string) (ps : list string) :
  join sep (p :: q :: ps) = p +:+ sep +:+ join sep (q :: ps).
Proof. reflexivity. Qed.

Lemma split_join (c : ascii) (pieces : list string) :
  pieces <> [] -> Forall (fun p => has_char c p = false) pieces ->
  split c (join (String c "") pieces) = pieces.
Proof.
  intros Hne Hclean. induction Hclean as [|p ps Hp Hps IH]; [done|].
  destruct ps as [|q ps]; [by apply split_clean|].
  rewrite join_cons_cons.
  change (String c "" +:+ join (String c "") (q :: ps))
    with (String c (join (String c "") (q :: ps))).
  rewrite split_app_sep by done. by rewrite IH.
Qed.

Lemma has_char_app (c : ascii) (s1 s2 : string) :
  has_char c (s1 +:+ s2) = has_char c s1 || has_char c s2.
Proof.
  induction s1 as [|a s1 IH]; [done|].
  change (String a s1 +:+ s2) with (String a (s1 +:+ s2)).
  cbn [has_char]. by rewrite IH, orb_assoc.
Qed.

Lemma has_char_join (c d : ascii) (pieces : list string) :
  Ascii.eqb d c = false -> Forall (fun p => has_char c p = false) pieces ->
  has_char c (join (String d "") pieces) = false.
Proof.
  intros Hd Hclean. induction Hclean as [|p ps Hp Hps IH]; [done|].
  destruct ps as [|q ps]; [done|].
  rewrite join_cons_cons, !has_char_app, Hp, IH. cbn. by rewrite Hd.
Qed.

(** X13.  The text [stringify] writes reads back as the records it was given:
    splitting it at [$] and each piece at [:] gives, record by record, the
    texts of the numbers, provided there is a record, no record is empty and
    no number's text has a separator in it.  (Without a record the text is
    empty, and an empty text splits into one empty record.) *)
Theorem stringify_reads_back (strokes : list stroke) :
  strokes <> [] ->
  Forall (fun s : stroke => s <> [] /\ Forall (clean Number_toString) s) strokes ->
  map (split ":") (split "$" (stringify strokes))
  = map (map Number_toString) strokes.
Proof.
  intros Hne Hstrokes. unfold KanjiComposer.stringify.
  rewrite split_join.
  - rewrite map_map. apply map_ext_Forall. eapply Forall_impl; [exact Hstrokes|].
    intros s [Hs Hclean]. cbn. apply split_join.
    + by destruct s.
    + apply Forall_map. eapply Forall_impl; [exact Hclean|]. by intros n [Hn _].
  - by destruct strokes.
  - apply Forall_map. eapply Forall_impl; [exact Hstrokes|].
    intros s [_ Hclean]. cbn. apply has_char_join; [done|].
    apply Forall_map. eapply Forall_impl; [exact Hclean|]. by intros n [_ Hn].
Qed.

End ComposerLaws.

Section ComposerLawsExamples.
Import JS KanjiComposer ComposerSpec PlacementSpec.
Local Open Scope float_scope.

(** The layout [ADD_DIAGONAL], which the chain does not know, on the two
    sample strokes. *)
Lemma unknown_layout_gives_nan_witness :
  compose_strokes Sample.getEachStrokes GlyphLoader.new
    "2:0:0:0:0:200:200" "1:0:0:10:10:50:50" "ADD_DIAGONAL" 200 40000 1 None
  = ([[2; 0; 0; nan; nan; nan; nan]; [1; 0; 0; nan; nan; nan; nan]], 200, 40000).
Proof.
  refine (unknown_layout_gives_nan Sample.getEachStrokes GlyphLoader.new
            "2:0:0:0:0:200:200" "1:0:0:10:10:50:50" "ADD_DIAGONAL"
            200 40000 1 None _).
  unfold known_layouts. cbn. rewrite !not_elem_of_cons.
  repeat split; try discriminate. apply not_elem_of_nil.
Defined.

(** A record of eight values on [ADD_RIGHT] at size 200: the pairs are
    remapped into the box (0, 0, 200, 500), the x 7 has no y and a NaN is
    appended; the record of the part goes into the box (200, 0, 300, 500). *)
Lemma lone_coordinate_grows_record_witness :
  (compose_strokes lone_x_engine GlyphLoader.new "" "" "ADD_RIGHT"
     200 40000 1 None).1.1
  = [[2; 0; 0; 0; 0; 200; 500; 7; nan]; [2; 0; 0; 200; 0; 500; 500; 210]]
  /\ remapped {| Rect.x := 0; Rect.y := 0; Rect.w := 200; Rect.h := 500 |} 200
       [2; 0; 0; 0; 0; 200; 500; 7; nan] [2; 0; 0; 0; 0; 200; 200; 7]
  /\ [[2; 0; 0; 200; 0; 500; 500; 210]]
     = map (fitted {| Rect.x := 200; Rect.y := 0; Rect.w := 300; Rect.h := 500 |}
              {| Rect.x := 0; Rect.y := 0; Rect.w := 1; Rect.h := 1 |})
         [[2; 0; 0; 0; 0; 200; 200; 7]].
Proof.
  split; [reflexivity|].
  destruct (lone_coordinate_grows_record lone_x_engine GlyphLoader.new
              "" "" "ADD_RIGHT" 200 40000 1 None ltac:(discriminate))
    as (size & boxCurrent & boxPart & Hplace & _ & Hcurrent & Hpart & _).
  injection Hplace as <- <- <-.
  split; [|exact Hpart].
  by apply Forall2_cons_1 in Hcurrent as [Hcurrent _].
Defined.

(** The text of the composite of the scenario reads back. *)
Lemma stringify_reads_back_witness :
  map (split ":") (split "$" "2:0:0:0:0:200:500$1:0:0:215:25:275:125")
  = [["2"; "0"; "0"; "0"; "0"; "200"; "500"];
     ["1"; "0"; "0"; "215"; "25"; "275"; "125"]].
Proof.
  refine (stringify_reads_back Sample.Number_toString
            [[2; 0; 0; 0; 0; 200; 500]; [1; 0; 0; 215; 25; 275; 125]] _ _).
  - discriminate.
  - repeat (constructor; [split; [discriminate|repeat (constructor; [by split|])]|]);
      try constructor.
    all: constructor.
Defined.

End ComposerLawsExamples.

(** ** The catalog and the variant resolver *)

Section CatalogLaws.
Import JS GlyphConfig CatalogSpec.
Local Open Scope float_scope.

(** X14.  What [getVariantInfo] answers, by the variant it finds.  The identifier
    is never empty for an entry with a character; without a variant, or with
    a variant whose identifier is empty, it is the character and there is no
    rect, whatever rect the variant has; a rect is answered only together
    with the identifier of an object variant. *)
Theorem getVariantInfo_cases (c : CharConfig) (l : string) :
  let id := (getVariantInfo c l).1 in
  let rect := (getVariantInfo c l).2 in
  (char c <> "" -> id <> "")
  /\ (variant_of c l = None -> id = char c /\ rect = None)
  /\ (forall vid, variant_of c l = Some (Bare vid) ->
        rect = None /\ id = (if String.eqb vid "" then char c else vid))
  /\ (forall vrect, variant_of c l = Some (WithRect "" vrect) ->
        id = char c /\ rect = None)
  /\ (forall r, rect = Some r ->
        exists vrect, variant_of c l = Some (WithRect id (Some vrect))
                      /\ id <> "" /\ r = rect_of vrect).
Proof.
  unfold getVariantInfo.
  destruct (variant_of c l) as [[vid|vid [vrect|]]|] eqn:Hv; cbn [fst snd].
  - split; [|split; [|split; [|split]]]; try done.
    + intros Hc. destruct (String.eqb vid "") eqn:Hvid; [done|].
      by apply String.eqb_neq in Hvid.
    + by intros vid' [= <-].
  - destruct (String.eqb vid "") eqn:Hvid; cbn.
    + apply String.eqb_eq in Hvid as ->.
      split; [|split; [|split; [|split]]]; done.
    + rewrite Hvid. apply String.eqb_neq in Hvid.
      split; [|split; [|split; [|split]]]; try done.
      * intros vrect' [= Hempty _]. by destruct Hvid.
      * intros r [= <-]. by exists vrect.
  - destruct (String.eqb vid "") eqn:Hvid; cbn.
    + apply String.eqb_eq in Hvid as ->.
      split; [|split; [|split; [|split]]]; done.
    + rewrite Hvid. apply String.eqb_neq in Hvid.
      split; [|split; [|split; [|split]]]; try done.
      intros vrect' [= Hempty _]. by destruct Hvid.
  - split; [|split; [|split; [|split]]]; done.
Qed.

Ltac entry_is_composable :=
  split; [unfold two_box_layouts; rewrite !elem_of_cons; by auto 10|];
  split; [by eexists|];
  split; [eexists; split; [vm_compute; reflexivity|reflexivity]|];
  vm_compute; intros r Hr;
  first [discriminate Hr | injection Hr as <-; by repeat split].

Lemma catalog_composable :
  Forall (fun c => Forall (composable c) (layouts c)) CHARS.
Proof.
  unfold CHARS.
  repeat (constructor;
          [cbn [layouts]; repeat (constructor; [entry_is_composable|]); constructor|]).
  constructor.
Qed.

(** X15.  Whatever the two draws of [composeRandom] are, what it picks can be
    composed: the layout is one of the entry's own, it is placed with two
    boxes (never [TRIANGLE], never an unknown layout) and has a label, the
    identifier resolved is one [load] can ask for, and the rect, if any, lies
    in the unit square with a positive width and height. *)
Theorem composeRandom_picks_composable (i j : nat) (c : CharConfig)
    (l id : string) (rect : option Rect.t) :
  composeRandom_pick i j = Some (c, l, id, rect) ->
  CHARS !! i = Some c
  /\ layouts c !! j = Some l
  /\ (id, rect) = getVariantInfo c l
  /\ composable c l
  /\ l <> "TRIANGLE"
  /\ (forall cur f, exists size boxCurrent boxPart,
        KanjiComposer.place l cur f = KanjiComposer.Boxes size boxCurrent boxPart).
Proof.
  unfold composeRandom_pick.
  destruct (CHARS !! i) as [c'|] eqn:Hc; [|done].
  destruct (layouts c' !! j) as [l'|] eqn:Hl; [|done].
  destruct (getVariantInfo c' l') as [id' rect'] eqn:Hv.
  intros [= <- <- <- <-].
  assert (Hok : composable c' l').
  { pose proof catalog_composable as Hall.
    eapply Forall_forall in Hall; [|by eapply list_elem_of_lookup_2].
    eapply Forall_forall in Hall; [exact Hall|by eapply list_elem_of_lookup_2]. }
  assert (Hnot : l' <> "TRIANGLE").
  { destruct Hok as [Hin _]. intros ->. unfold two_box_layouts in Hin.
    rewrite !elem_of_cons in Hin. rewrite elem_of_nil in Hin.
    by repeat destruct Hin as [Hin|Hin]. }
  split; [done|]. split; [done|]. split; [done|]. split; [done|].
  split; [done|].
  intros cur f. destruct (place_boxes l' cur f Hnot) as (boxCurrent & boxPart & Hplace).
  by eauto.
Qed.

(** The draw of 火 and its second layout: the fire dots under the composite. *)
Lemma composeRandom_picks_composable_witness :
  exists c, composeRandom_pick 7 1
            = Some (c, "ADD_BOTTOM", "u706c-04",
                    Some {| Rect.x := 0; Rect.y := 0.6; Rect.w := 1; Rect.h := 0.4 |})
            /\ char c = "火" /\ composable c "ADD_BOTTOM".
Proof.
  destruct (composeRandom_pick 7 1) as [[[[c l] id] rect]|] eqn:Hpick; [|discriminate].
  destruct (composeRandom_picks_composable 7 1 c l id rect Hpick)
    as (_ & _ & _ & Hok & _).
  injection Hpick as <- <- <- <-.
  eexists. split; [reflexivity|]. split; [reflexivity|exact Hok].
Defined.

(** X16.  The catalog is well formed: no character is listed twice, every entry
    has a character and at least one layout, lists no layout twice, and has
    variants only for layouts it permits. *)
Theorem catalog_is_well_formed :
  NoDup (map char CHARS)
  /\ Forall (fun c => char c <> "" /\ layouts c <> [] /\ NoDup (layouts c)
                      /\ Forall (fun l => l ∈ layouts c) (variant_keys c)
                      /\ NoDup (variant_keys c)) CHARS.
Proof.
  split; apply (bool_decide_unpack _); vm_compute; exact I.
Qed.

End CatalogLaws.

(** ** The renderer *)

Section RendererLaws.
Import JS KanjiRenderer RendererSpec.
Local Open Scope float_scope.

Variable new_Kage : Kage.
Variable makeGlyph : Kage -> list (string * value) -> string -> list (list point).
Variable loader : GlyphLoader.t.

Local Abbreviation draw := (draw new_Kage makeGlyph loader).

Lemma scaleArray_one (arr : option (list float)) : scaleArray 1 arr = arr.
Proof.
  destruct arr as [a|]; [|done]. cbn. f_equal.
  induction a as [|v a IH]; [done|]. cbn. by rewrite mul_one_r, IH.
Qed.

Lemma scaleArray_same_length (s : float) (arr : option (list float)) :
  same_length arr (scaleArray s arr).
Proof. destruct arr as [a|]; [|done]. cbn. by rewrite length_map. Qed.

Lemma scaleArray_scaled (s : float) (arr : option (list float)) :
  scaled s arr (scaleArray s arr).
Proof.
  destruct arr as [a|]; [|done]. cbn. split; [by rewrite length_map|].
  intros i v Hv. by rewrite list_lookup_fmap, Hv.
Qed.

(** X17.  [_applyKageScale(kage, s)] multiplies every width parameter by
    [s]: each of the six numbers, and each array element by element, at its
    place; [kAdjustKakatoRangeX] is scaled as the array or as the number it
    is.  No array changes its length, a missing one stays missing, and
    scaling by 1 changes no parameter at all. *)
Theorem applyKageScale_multiplies (kage : Kage) (s : float) :
  scaled_by s kage (_applyKageScale kage s)
  /\ same_shape kage (_applyKageScale kage s)
  /\ _applyKageScale kage 1 = kage.
Proof.
  split; [|split].
  - unfold scaled_by, _applyKageScale; cbn.
    repeat (split; [first [reflexivity | by apply scaleArray_scaled]|]).
    split; [|repeat split; first [reflexivity | by apply scaleArray_scaled]].
    destruct (kAdjustKakatoRangeX kage) as [a|v]; [|done].
    by apply (scaleArray_scaled s (Some a)).
  - unfold same_shape, _applyKageScale; cbn.
    repeat (split; [by apply scaleArray_same_length|]).
    split; [|repeat split; by apply scaleArray_same_length].
    destruct (kAdjustKakatoRangeX kage) as [a|v]; [|done]. by rewrite length_map.
  - destruct kage. unfold _applyKageScale; cbn.
    rewrite !mul_one_r, !scaleArray_one.
    f_equal. destruct kAdjustKakatoRangeX0 as [a|v]; [|by rewrite mul_one_r].
    f_equal. induction a as [|v a IH]; [done|]. cbn. by rewrite mul_one_r, IH.
Qed.

Lemma vertex_trace_polygon (poly : list point) :
  omap vertex (trace_polygon poly) = poly.
Proof.
  destruct poly as [|[x0 y0] rest]; [done|]. cbn. f_equal.
  induction rest as [|[x y] rest IH]; [done|]. cbn. by rewrite IH.
Qed.

Lemma vertex_trace (polygons : list (list point)) :
  omap vertex (flat_map trace_polygon polygons) = concat polygons.
Proof.
  induction polygons as [|poly polygons IH]; [done|]. cbn.
  by rewrite omap_app, vertex_trace_polygon, IH.
Qed.

Lemma moves_trace_polygon (poly : list point) :
  length (filter is_MoveTo (trace_polygon poly)) = (if nonempty poly then 1 else 0)%nat.
Proof.
  destruct poly as [|p0 rest]; [done|]. cbn. f_equal.
  induction rest as [|p rest IH]; [done|]. by cbn.
Qed.

Lemma moves_trace (polygons : list (list point)) :
  length (filter is_MoveTo (flat_map trace_polygon polygons))
  = length (filter nonempty polygons).
Proof.
  induction polygons as [|poly polygons IH]; [done|]. cbn [flat_map].
  rewrite filter_app, length_app, moves_trace_polygon, IH.
  rewrite filter_cons. by destruct poly.
Qed.

Lemma no_save_trace (polygons : list (list point)) :
  filter is_Save (flat_map trace_polygon polygons) = []
  /\ filter is_Restore (flat_map trace_polygon polygons) = [].
Proof.
  induction polygons as [|poly polygons [IHs IHr]]; [done|]. cbn [flat_map].
  rewrite !filter_app, IHs, IHr, !app_nil_r.
  destruct poly as [|p0 rest]; [done|]. cbn.
  split; (induction rest as [|p rest IH]; [done|]; by cbn).
Qed.

(** X18.  Every [draw] first clears the whole canvas.  Without data (an empty
    string, [null], [undefined]) it does nothing else and returns [null].
    With data it returns the metrics, saves the context once and restores
    it once at the very end, starts one sub-path for each polygon that has
    a vertex, and takes the path through the vertices of the polygons of the
    engine, all of them and in their order. *)
Theorem draw_trace (width height : float) (kageData : value)
    (logicalSize area : float) :
  let ops := (draw width height kageData logicalSize area).1 in
  let returned := (draw width height kageData logicalSize area).2 in
  head ops = Some (ClearRect 0 0 width height)
  /\ (truthy kageData = false -> ops = [ClearRect 0 0 width height] /\ returned = None)
  /\ (truthy kageData = true ->
       exists polygons,
         polygons = makeGlyph
                      (_applyKageScale new_Kage (1 / (width / sqrt area) * 2))
                      (map_to_list (GlyphLoader.cache loader) ++ [("u_render", kageData)])
                      "u_render"
         /\ returned = Some {| visualSize := sqrt area;
                               scaleFactor := sqrt area / logicalSize |}
         /\ omap vertex ops = concat polygons
         /\ length (filter is_MoveTo ops) = length (filter nonempty polygons)
         /\ filter is_Save ops = [Save]
         /\ filter is_Restore ops = [Restore]
         /\ last ops = Some Restore).
Proof.
  unfold KanjiRenderer.draw. destruct (truthy kageData); cbn [negb fst snd].
  - split; [done|]. split; [done|]. intros _.
    eexists. split; [reflexivity|]. split; [done|].
    set (polygons := makeGlyph _ _ _).
    destruct (no_save_trace polygons) as [Hs Hr].
    split; [|split; [|split; [|split]]].
    + rewrite !omap_app, vertex_trace. cbn. by rewrite app_nil_r.
    + rewrite !filter_app, !length_app, moves_trace. cbn. by rewrite Nat.add_0_r.
    + rewrite !filter_app, Hs. done.
    + rewrite !filter_app, Hr. done.
    + by rewrite !last_app.
  - split; [done|]. split; [done|]. done.
Qed.

End RendererLaws.

(** ** Examples for the laws above *)

Section LawsExamples.
Import JS GlyphLoader LoaderSpec KanjiEditorState EditorRuns GlyphConfig KanjiRenderer RendererSpec.
Local Open Scope float_scope.

(** A property that is none of the three is read after an [update] as it
    was before. *)
Lemma update_writes_three_fields_witness :
  let ed := {| history := []; state := [("note", VStr "draft")] |} in
  obj_get (getCurrent (update (VStr "1:0:0:10:10:50:50") (VNum 200) (VNum 40000) ed)) "note"
  = VStr "draft".
Proof.
  intros ed.
  destruct (update_writes_three_fields (VStr "1:0:0:10:10:50:50") (VNum 200) (VNum 40000) ed)
    as (_ & _ & _ & Hother & _).
  by apply Hother.
Defined.

(** After two updates the second undo succeeds as the first does. *)
Lemma undo_depth_witness :
  let us := [(VStr "a", VNum 200, VNum 40000); (VStr "b", VNum 500, VNum 100000)] in
  (undo (undos 1 (updates us (reset (VStr "") new)))).1 = true.
Proof.
  intros us.
  destruct (undo_depth (VStr "") us new) as (_ & Hundo & _).
  apply Hundo. cbn. lia.
Defined.

(** 木 loaded by its character is stored under [u6728]. *)
Lemma cache_keys_are_identifiers_witness :
  let es := [Call "木"; Settle 0 (Body (glyph "u6728" (VStr "1:0:0:10:10:50:50")))] in
  cache (loader (run es start)) !! "u6728" = Some (VStr "1:0:0:10:10:50:50")
  /\ is_id "u6728"
  /\ "u6728" ∈ fetched (run es start).
Proof.
  intros es.
  assert (Hentry : cache (loader (run es start)) !! "u6728"
                   = Some (VStr "1:0:0:10:10:50:50")) by (by vm_compute).
  destruct (cache_keys_are_identifiers es) as [_ Hkeys].
  destruct (Hkeys "u6728") as (Hid & Hfetched & _); [by rewrite Hentry|].
  by split.
Defined.

(** An object variant whose identifier is empty gives the character, and
    its rect is dropped. *)
Lemma getVariantInfo_cases_witness :
  let c := {| char := "木"; layouts := ["ADD_LEFT"];
              variants := Some [("ADD_LEFT", WithRect "" (Some [0; 0; 0.45; 1]))] |} in
  (getVariantInfo c "ADD_LEFT").1 = "木" /\ (getVariantInfo c "ADD_LEFT").2 = None.
Proof.
  intros c.
  destruct (getVariantInfo_cases c "ADD_LEFT") as (_ & _ & _ & Hempty & _).
  by apply (Hempty (Some [0; 0; 0.45; 1])).
Defined.

(** The sample parameters scaled by 2.5, the compensation of a canvas of
    160 for a visual size of 200. *)
Lemma applyKageScale_multiplies_witness :
  let k := _applyKageScale sample_Kage 2.5 in
  kWidth k = 12.5 /\ kMage k = 25
  /\ kAdjustKakatoL k = Some [35; 22.5; 12.5; 5; 0]
  /\ kAdjustKakatoRangeX k = inr 50
  /\ kAdjustUroko2Length k = 100.
Proof.
  intros k.
  destruct (applyKageScale_multiplies sample_Kage 2.5)
    as ((Hwidth & _ & _ & _ & Hmage & Hkakato & _ & Hrange & _ & _ & _ & _ & _ & Hlength)
        & _ & _).
  fold k in Hwidth, Hmage, Hkakato, Hrange, Hlength.
  split; [exact Hwidth|]. split; [exact Hmage|]. split; [|split; [|exact Hlength]].
  - destruct (kAdjustKakatoL k) as [l|]; [|done]. destruct Hkakato as [Hlen Hat].
    destruct l as [|a0 [|a1 [|a2 [|a3 [|a4 [|a5 l]]]]]]; try discriminate Hlen.
    pose proof (Hat 0%nat _ eq_refl) as [= ->]. pose proof (Hat 1%nat _ eq_refl) as [= ->].
    pose proof (Hat 2%nat _ eq_refl) as [= ->]. pose proof (Hat 3%nat _ eq_refl) as [= ->].
    pose proof (Hat 4%nat _ eq_refl) as [= ->]. reflexivity.
  - destruct (kAdjustKakatoRangeX k) as [a|v]; [done|]. cbn in Hrange. by rewrite Hrange.
Defined.

(** The composite of the starting square drawn on a canvas of 400 by 400. *)
Lemma draw_trace_witness :
  let d := draw sample_Kage sample_makeGlyph GlyphLoader.new
             400 400 (VStr "1:0:0:10:10:50:50") 200 40000 in
  d.2 = Some {| visualSize := 200; scaleFactor := 1 |}
  /\ omap vertex d.1
     = [ {| px := 0; py := 0 |}; {| px := 200; py := 0 |}; {| px := 0; py := 200 |};
         {| px := 10; py := 10 |}; {| px := 50; py := 50 |} ]
  /\ length (filter is_MoveTo d.1) = 2%nat.
Proof.
  intros d.
  destruct (draw_trace sample_Kage sample_makeGlyph GlyphLoader.new
              400 400 (VStr "1:0:0:10:10:50:50") 200 40000) as (_ & _ & Hdrawn).
  destruct (Hdrawn eq_refl) as (polygons & -> & Hret & Hpath & Hmoves & _).
  split; [exact Hret|]. split; [exact Hpath|exact Hmoves].
Defined.

End LawsExamples.
